(** * visual-keys: the metronome timing engine and its rhythm visualisation

    A shallow embedding of [audio/Metronome.js] (class [Metronome]) and of the
    marker bookkeeping of [ui/MetronomeUI.js] (class [MetronomeUI]), followed
    by [utils/NoteConverter.js], the pressed keys of [ui/KeyboardUI.js] and
    the application that ties them together, [VisualKeysApp.js].

    Conventions of the embedding.
    - JavaScript numbers that carry times, tempi and pixel positions are exact
      rationals ([Q]); rounding of IEEE doubles, [NaN] and the infinities are
      outside the model.  Beat counters and timer handles are integers ([Z]).
    - A method is a computation in the monad [M]: it reads and writes the
      [World] (the object's fields together with the browser facilities the
      object talks to), and it may return, throw, or fail to terminate; each
      outcome carries the world it left behind.
    - The browser is modelled by [Host]: the wall clock [performance.now()],
      the table of armed [setTimeout] callbacks, the armed [setInterval]
      handles and the sequence of callback invocations observed by the owner
      of the metronome ([onBeatScheduled], [onTick]).
    - [audioContext.currentTime] does not change while a method runs; clocks
      move between event-loop turns ([advance]). *)

From Stdlib Require Import String.
From Stdlib Require Import QArith Qabs Qround ZArith List Bool Lia Lqa.
From Stdlib Require DecimalString.
Import ListNotations.
Open Scope Q_scope.

(** ** Numeric helpers of the JavaScript runtime *)

Module JsNum.

(** [a < b] and [a > b] on numbers. *)
Definition ltb (a b : Q) : bool := negb (Qle_bool b a).
Definition gtb (a b : Q) : bool := ltb b a.

(** [Math.max], [Math.min], [Math.abs]. *)
Definition max (a b : Q) : Q := if Qle_bool a b then b else a.
Definition min (a b : Q) : Q := if Qle_bool a b then a else b.
Definition abs (a : Q) : Q := Qabs a.

(** [Math.round]: nearest integer, ties towards plus infinity. *)
Definition round (a : Q) : Q := inject_Z (Qfloor (a + (1 # 2))).

(** [a % b] on integers: the sign follows the dividend. The JavaScript
    result for [b = 0] is [NaN], which the model does not represent. *)
Definition rem (a b : Z) : Z := Z.rem a b.

End JsNum.

(** ** Metronome.js *)

Module Metronome.

Inductive ContextState : Type := running | suspended | closed.

(** The Web Audio context the metronome samples; never written by it. *)
Record AudioContext : Type := mkAudioContext
  { state : ContextState;
    currentTime : Q }.

(** The fields of a [Metronome] instance. [audioContext] is [None] when the
    field holds [undefined] or [null]. *)
Record Metronome : Type := mkMetronome
  { tempo : Q;
    timeSignature : Z;
    audioContext : option AudioContext;
    isPlaying : bool;
    nextTickTime : Q;
    currentBeat : Z;
    scheduledTicks : list Z;
    lookahead : Q;
    scheduleAheadTime : Q;
    timerID : option Z;
    beatStartTime : Q }.

(** Calls received by the two callbacks of the owner. *)
Inductive Event : Type :=
| BeatScheduled (beatNumber : Z) (isDownbeat : bool) (time : Q)
| Tick (beatNumber : Z) (isDownbeat : bool) (time : Q).

(** An armed [setTimeout]: its handle, the wall-clock instant (ms) from
    which it may run, and the two variables its closure captured. *)
Record Timeout : Type := mkTimeout
  { handle : Z;
    due : Q;
    tick_time : Q;
    tick_beat : Z }.

(** A Beat produced by the scheduler: the arguments of one invocation of
    [_scheduleTick]. *)
Record Beat : Type := mkBeat
  { targetTime : Q;
    beatIndex : Z }.

(** The browser as the metronome meets it. [fresh] is the next timer handle
    ([setTimeout] and [setInterval] hand out positive integers from one
    counter). [calls] is a ghost record, without a counterpart in the
    source: the Beats handed to [_scheduleTick], in order. *)
Record Host : Type := mkHost
  { performance_now : Q;
    fresh : Z;
    timeouts : list Timeout;
    intervals : list Z;
    events : list Event;
    calls : list Beat }.

Record World : Type := mkWorld
  { metro : Metronome;
    host : Host }.

Inductive Error : Type :=
| TypeError
| JsError (message : string).

(** *** Field updates *)

Definition with_tempo (v : Q) (m : Metronome) : Metronome :=
  mkMetronome v (timeSignature m) (audioContext m) (isPlaying m)
    (nextTickTime m) (currentBeat m) (scheduledTicks m) (lookahead m)
    (scheduleAheadTime m) (timerID m) (beatStartTime m).

Definition with_timeSignature (v : Z) (m : Metronome) : Metronome :=
  mkMetronome (tempo m) v (audioContext m) (isPlaying m)
    (nextTickTime m) (currentBeat m) (scheduledTicks m) (lookahead m)
    (scheduleAheadTime m) (timerID m) (beatStartTime m).

Definition with_audioContext (v : option AudioContext) (m : Metronome) : Metronome :=
  mkMetronome (tempo m) (timeSignature m) v (isPlaying m)
    (nextTickTime m) (currentBeat m) (scheduledTicks m) (lookahead m)
    (scheduleAheadTime m) (timerID m) (beatStartTime m).

Definition with_isPlaying (v : bool) (m : Metronome) : Metronome :=
  mkMetronome (tempo m) (timeSignature m) (audioContext m) v
    (nextTickTime m) (currentBeat m) (scheduledTicks m) (lookahead m)
    (scheduleAheadTime m) (timerID m) (beatStartTime m).

Definition with_nextTickTime (v : Q) (m : Metronome) : Metronome :=
  mkMetronome (tempo m) (timeSignature m) (audioContext m) (isPlaying m)
    v (currentBeat m) (scheduledTicks m) (lookahead m)
    (scheduleAheadTime m) (timerID m) (beatStartTime m).

Definition with_currentBeat (v : Z) (m : Metronome) : Metronome :=
  mkMetronome (tempo m) (timeSignature m) (audioContext m) (isPlaying m)
    (nextTickTime m) v (scheduledTicks m) (lookahead m)
    (scheduleAheadTime m) (timerID m) (beatStartTime m).

Definition with_scheduledTicks (v : list Z) (m : Metronome) : Metronome :=
  mkMetronome (tempo m) (timeSignature m) (audioContext m) (isPlaying m)
    (nextTickTime m) (currentBeat m) v (lookahead m)
    (scheduleAheadTime m) (timerID m) (beatStartTime m).

Definition with_timerID (v : option Z) (m : Metronome) : Metronome :=
  mkMetronome (tempo m) (timeSignature m) (audioContext m) (isPlaying m)
    (nextTickTime m) (currentBeat m) (scheduledTicks m) (lookahead m)
    (scheduleAheadTime m) v (beatStartTime m).

Definition with_beatStartTime (v : Q) (m : Metronome) : Metronome :=
  mkMetronome (tempo m) (timeSignature m) (audioContext m) (isPlaying m)
    (nextTickTime m) (currentBeat m) (scheduledTicks m) (lookahead m)
    (scheduleAheadTime m) (timerID m) v.

Definition with_performance_now (v : Q) (h : Host) : Host :=
  mkHost v (fresh h) (timeouts h) (intervals h) (events h) (calls h).

Definition with_fresh (v : Z) (h : Host) : Host :=
  mkHost (performance_now h) v (timeouts h) (intervals h) (events h) (calls h).

Definition with_timeouts (v : list Timeout) (h : Host) : Host :=
  mkHost (performance_now h) (fresh h) v (intervals h) (events h) (calls h).

Definition with_intervals (v : list Z) (h : Host) : Host :=
  mkHost (performance_now h) (fresh h) (timeouts h) v (events h) (calls h).

Definition with_events (v : list Event) (h : Host) : Host :=
  mkHost (performance_now h) (fresh h) (timeouts h) (intervals h) v (calls h).

Definition with_calls (v : list Beat) (h : Host) : Host :=
  mkHost (performance_now h) (fresh h) (timeouts h) (intervals h) (events h) v.

(** *** The monad of methods *)

Inductive Outcome (A : Type) : Type :=
| Return (a : A) (w : World)
| Throw (e : Error) (w : World)
| Hang (w : World).

Arguments Return {A} a w.
Arguments Throw {A} e w.
Arguments Hang {A} w.

Definition M (A : Type) : Type := World -> Outcome A.

Definition ret {A : Type} (a : A) : M A := fun w => Return a w.

Definition bind {A B : Type} (c : M A) (k : A -> M B) : M B :=
  fun w =>
    match c w with
    | Return a w' => k a w'
    | Throw e w' => Throw e w'
    | Hang w' => Hang w'
    end.

Definition throw {A : Type} (e : Error) : M A := fun w => Throw e w.

(** The world an outcome leaves behind. *)
Definition world_of {A : Type} (o : Outcome A) : World :=
  match o with
  | Return _ w => w
  | Throw _ w => w
  | Hang w => w
  end.

Declare Scope js_scope.
Delimit Scope js_scope with js.
Notation "x <- c ;; k" := (bind c (fun x => k))
  (at level 61, c at next level, right associativity) : js_scope.
Notation "c ;; k" := (bind c (fun _ => k))
  (at level 61, right associativity) : js_scope.
Open Scope js_scope.

(** [this]: the current fields; [assign f]: a field assignment. *)
Definition this : M Metronome := fun w => Return (metro w) w.

Definition assign (f : Metronome -> Metronome) : M unit :=
  fun w => Return tt (mkWorld (f (metro w)) (host w)).

Definition onHost (f : Host -> Host) : M unit :=
  fun w => Return tt (mkWorld (metro w) (f (host w))).

(** [this.audioContext.currentTime]; reading a property of [undefined]
    throws a [TypeError]. *)
Definition audio_currentTime : M Q :=
  m <- this ;;
  match audioContext m with
  | Some ctx => ret (currentTime ctx)
  | None => throw TypeError
  end.

(** [this.audioContext && this.audioContext.state === 'closed'] *)
Definition context_closed (m : Metronome) : bool :=
  match audioContext m with
  | Some ctx => match state ctx with closed => true | _ => false end
  | None => false
  end.

(** [performance.now()], in milliseconds. *)
Definition performance_now_ms : M Q := fun w => Return (performance_now (host w)) w.

(** [setTimeout(() => this.onTick(beatNumber + 1, beatNumber === 0, time), ms)] *)
Definition setTimeout (time : Q) (beatNumber : Z) (ms : Q) : M Z :=
  fun w =>
    let h := host w in
    let id := fresh h in
    Return id
      (mkWorld (metro w)
         (with_fresh (id + 1)
            (with_timeouts
               (timeouts h ++ [mkTimeout id (performance_now h + ms) time beatNumber]) h))).

Definition clearTimeout (id : Z) : M unit :=
  onHost (fun h => with_timeouts (filter (fun t => negb (handle t =? id)%Z) (timeouts h)) h).

(** [setInterval(this._scheduler, this.lookahead)] *)
Definition setInterval : M Z :=
  fun w =>
    let h := host w in
    let id := fresh h in
    Return id (mkWorld (metro w) (with_fresh (id + 1) (with_intervals (intervals h ++ [id]) h))).

(** [clearInterval(id)]; [null] names no timer. *)
Definition clearInterval (id : option Z) : M unit :=
  match id with
  | Some i => onHost (fun h => with_intervals (filter (fun j => negb (j =? i)%Z) (intervals h)) h)
  | None => ret tt
  end.

Definition onBeatScheduled (beatNumber : Z) (isDownbeat : bool) (time : Q) : M unit :=
  onHost (fun h => with_events (events h ++ [BeatScheduled beatNumber isDownbeat time]) h).

Definition onTick (beatNumber : Z) (isDownbeat : bool) (time : Q) : M unit :=
  onHost (fun h => with_events (events h ++ [Tick beatNumber isDownbeat time]) h).

(** [xs.forEach(f)] *)
Fixpoint forEach {A : Type} (xs : list A) (f : A -> M unit) : M unit :=
  match xs with
  | [] => ret tt
  | x :: rest => f x ;; forEach rest f
  end.

(** *** The class *)

Record Options : Type := mkOptions
  { opt_tempo : option Q;
    opt_timeSignature : option Z;
    opt_audioContext : option AudioContext }.

(** [options.tempo || 120]: an absent or zero value takes the default. *)
Definition orQ (v : option Q) (d : Q) : Q :=
  match v with
  | Some x => if Qeq_bool x 0 then d else x
  | None => d
  end.

Definition orZ (v : option Z) (d : Z) : Z :=
  match v with
  | Some x => if (x =? 0)%Z then d else x
  | None => d
  end.

Definition constructor (options : Options) : Metronome :=
  {| tempo := orQ (opt_tempo options) 120;
     timeSignature := orZ (opt_timeSignature options) 4;
     audioContext := opt_audioContext options;
     isPlaying := false;
     nextTickTime := 0;
     currentBeat := 0;
     scheduledTicks := [];
     lookahead := 25.0;
     scheduleAheadTime := 0.1;
     timerID := None;
     beatStartTime := 0 |}.

Definition start (delayFirstBeat : bool) : M unit :=
  m <- this ;;
  if isPlaying m then ret tt
  else if context_closed m
  then throw (JsError "AudioContext is closed. Cannot start metronome."%string)
  else
    assign (with_isPlaying true) ;;
    assign (with_currentBeat 0) ;;
    (if delayFirstBeat then
       let firstBeatDelay := 60 / tempo m in
       now <- audio_currentTime ;;
       assign (with_nextTickTime (now + firstBeatDelay)) ;;
       m' <- this ;;
       onBeatScheduled 1 true (nextTickTime m')
     else
       now <- audio_currentTime ;;
       assign (with_nextTickTime now)) ;;
    t <- performance_now_ms ;;
    assign (with_beatStartTime (t / 1000)) ;;
    id <- setInterval ;;
    assign (with_timerID (Some id)).

Definition stop : M unit :=
  m <- this ;;
  if negb (isPlaying m) then ret tt
  else
    assign (with_isPlaying false) ;;
    assign (with_currentBeat 0) ;;
    clearInterval (timerID m) ;;
    assign (with_timerID None) ;;
    forEach (scheduledTicks m)
      (fun tickId => if (tickId =? 0)%Z then ret tt else clearTimeout tickId) ;;
    assign (with_scheduledTicks []).

Definition setTempo (bpm : Q) : M unit :=
  assign (with_tempo (JsNum.max 30 (JsNum.min 300 bpm))).

Definition setTimeSignature (beats : Z) : M unit :=
  assign (with_timeSignature beats) ;;
  assign (with_currentBeat 0).

(** The first line keeps the ghost record [calls]; the rest is the method.
    [push] appends, [shift] drops the head. *)
Definition _scheduleTick (time : Q) (beatNumber : Z) : M unit :=
  onHost (fun h => with_calls (calls h ++ [mkBeat time beatNumber]) h) ;;
  now <- audio_currentTime ;;
  let relativeTime := time - now in
  if JsNum.gtb relativeTime 0 then
    tickId <- setTimeout time beatNumber (relativeTime * 1000) ;;
    assign (fun m => with_scheduledTicks (scheduledTicks m ++ [tickId]) m) ;;
    onBeatScheduled (beatNumber + 1) (beatNumber =? 0)%Z time ;;
    m <- this ;;
    if (20 <? length (scheduledTicks m))%nat
    then assign (fun m => with_scheduledTicks (tl (scheduledTicks m)) m)
    else ret tt
  else ret tt.

(** One iteration of the [while] body of [_scheduler]. *)
Definition scheduler_body : M unit :=
  m <- this ;;
  _scheduleTick (nextTickTime m) (currentBeat m) ;;
  m1 <- this ;;
  let secondsPerBeat := 60 / tempo m1 in
  assign (with_nextTickTime (nextTickTime m1 + secondsPerBeat)) ;;
  m2 <- this ;;
  assign (with_currentBeat (JsNum.rem (currentBeat m2 + 1) (timeSignature m2))).

(** [_scheduler]: [fuel] bounds the number of iterations of the loop; a
    pass that would need more has outcome [Hang], with the world reached
    when the bound was hit. *)
Fixpoint _scheduler (fuel : nat) : M unit :=
  m <- this ;;
  now <- audio_currentTime ;;
  if JsNum.ltb (nextTickTime m) (now + scheduleAheadTime m) then
    match fuel with
    | O => fun w => Hang w
    | S fuel' => scheduler_body ;; _scheduler fuel'
    end
  else ret tt.

Definition getHitAccuracy (hitTime : Q) : M Q :=
  m <- this ;;
  if negb (isPlaying m) then ret 0
  else
    let beatDuration := 60 / tempo m in
    let elapsedTime := hitTime - beatStartTime m in
    let expectedBeatPosition := elapsedTime / beatDuration in
    let nearestBeat := JsNum.round expectedBeatPosition in
    let distanceFromBeat := JsNum.abs (expectedBeatPosition - nearestBeat) in
    let accuracy := JsNum.max 0 (1 - distanceFromBeat * 2) in
    ret accuracy.

(** *** The event loop of the browser *)

(** An armed timeout runs its callback once and is forgotten; it never runs
    before it is due. *)
Definition fire_timeout (id : Z) : M unit :=
  fun w =>
    match find (fun t => (handle t =? id)%Z) (timeouts (host w)) with
    | Some t =>
        if Qle_bool (due t) (performance_now (host w)) then
          (clearTimeout id ;;
           onTick (tick_beat t + 1) (tick_beat t =? 0)%Z (tick_time t)) w
        else Return tt w
    | None => Return tt w
    end.

(** An armed interval runs [this._scheduler]. *)
Definition fire_interval (fuel : nat) (id : Z) : M unit :=
  fun w =>
    if existsb (fun j => (j =? id)%Z) (intervals (host w))
    then _scheduler fuel w
    else Return tt w.

(** Time passes: [dt] seconds on both clocks; the audio clock only moves
    while the context is running. *)
Definition advance (dt : Q) : M unit :=
  onHost (fun h => with_performance_now (performance_now h + dt * 1000) h) ;;
  assign (fun m =>
            match audioContext m with
            | Some (mkAudioContext running t) =>
                with_audioContext (Some (mkAudioContext running (t + dt))) m
            | _ => m
            end).

(** A page that has just loaded. *)
Definition initial_host : Host :=
  {| performance_now := 0; fresh := 1; timeouts := []; intervals := [];
     events := []; calls := [] |}.

Definition new (options : Options) : World :=
  mkWorld (constructor options) initial_host.

End Metronome.

(** ** MetronomeUI.js: the markers of the rhythm visualisation

    Only the state that positions markers is modelled; drawing, styling and
    the DOM are left out.  [now] is [performance.now() / 1000], the value a
    method samples when it runs.  A method that would read a property of a
    missing canvas throws a [TypeError]; such a method returns [None]. *)

Module MetronomeUI.

Record Canvas : Type := mkCanvas
  { width : Q;
    height : Q }.

Record BeatMarker : Type := mkBeatMarker
  { x : Q;
    beatNumber : Z;
    isDownbeat : bool;
    time : Q;
    targetTime : Q }.

(** The object pushed by [registerNoteHit]; its [x] is [hit_x] here. *)
Record HitMarker : Type := mkHitMarker
  { hit_x : Q;
    accuracy : Q;
    opacity : Q }.

Record MetronomeUI : Type := mkMetronomeUI
  { enabled : bool;
    canvas : option Canvas;
    ctx : bool;
    beatMarkers : list BeatMarker;
    hitMarkers : list HitMarker;
    lastBeatTime : Q;
    accuracyThreshold : Q;
    markerSpeed : Q;
    showVisualization : bool;
    hitLineX : Q;
    firstBeat : bool;
    currentTempo : Q;
    secondsPerBeat : Q }.

Definition with_enabled (v : bool) (u : MetronomeUI) : MetronomeUI :=
  mkMetronomeUI v (canvas u) (ctx u) (beatMarkers u) (hitMarkers u)
    (lastBeatTime u) (accuracyThreshold u) (markerSpeed u)
    (showVisualization u) (hitLineX u) (firstBeat u) (currentTempo u)
    (secondsPerBeat u).

Definition with_canvas (v : option Canvas) (u : MetronomeUI) : MetronomeUI :=
  mkMetronomeUI (enabled u) v (ctx u) (beatMarkers u) (hitMarkers u)
    (lastBeatTime u) (accuracyThreshold u) (markerSpeed u)
    (showVisualization u) (hitLineX u) (firstBeat u) (currentTempo u)
    (secondsPerBeat u).

Definition with_beatMarkers (v : list BeatMarker) (u : MetronomeUI) : MetronomeUI :=
  mkMetronomeUI (enabled u) (canvas u) (ctx u) v (hitMarkers u)
    (lastBeatTime u) (accuracyThreshold u) (markerSpeed u)
    (showVisualization u) (hitLineX u) (firstBeat u) (currentTempo u)
    (secondsPerBeat u).

Definition with_hitMarkers (v : list HitMarker) (u : MetronomeUI) : MetronomeUI :=
  mkMetronomeUI (enabled u) (canvas u) (ctx u) (beatMarkers u) v
    (lastBeatTime u) (accuracyThreshold u) (markerSpeed u)
    (showVisualization u) (hitLineX u) (firstBeat u) (currentTempo u)
    (secondsPerBeat u).

Definition with_lastBeatTime (v : Q) (u : MetronomeUI) : MetronomeUI :=
  mkMetronomeUI (enabled u) (canvas u) (ctx u) (beatMarkers u) (hitMarkers u)
    v (accuracyThreshold u) (markerSpeed u)
    (showVisualization u) (hitLineX u) (firstBeat u) (currentTempo u)
    (secondsPerBeat u).

Definition with_markerSpeed (v : Q) (u : MetronomeUI) : MetronomeUI :=
  mkMetronomeUI (enabled u) (canvas u) (ctx u) (beatMarkers u) (hitMarkers u)
    (lastBeatTime u) (accuracyThreshold u) v
    (showVisualization u) (hitLineX u) (firstBeat u) (currentTempo u)
    (secondsPerBeat u).

Definition with_showVisualization (v : bool) (u : MetronomeUI) : MetronomeUI :=
  mkMetronomeUI (enabled u) (canvas u) (ctx u) (beatMarkers u) (hitMarkers u)
    (lastBeatTime u) (accuracyThreshold u) (markerSpeed u)
    v (hitLineX u) (firstBeat u) (currentTempo u)
    (secondsPerBeat u).

Definition with_firstBeat (v : bool) (u : MetronomeUI) : MetronomeUI :=
  mkMetronomeUI (enabled u) (canvas u) (ctx u) (beatMarkers u) (hitMarkers u)
    (lastBeatTime u) (accuracyThreshold u) (markerSpeed u)
    (showVisualization u) (hitLineX u) v (currentTempo u)
    (secondsPerBeat u).

Definition with_currentTempo (v : Q) (u : MetronomeUI) : MetronomeUI :=
  mkMetronomeUI (enabled u) (canvas u) (ctx u) (beatMarkers u) (hitMarkers u)
    (lastBeatTime u) (accuracyThreshold u) (markerSpeed u)
    (showVisualization u) (hitLineX u) (firstBeat u) v
    (secondsPerBeat u).

Definition with_secondsPerBeat (v : Q) (u : MetronomeUI) : MetronomeUI :=
  mkMetronomeUI (enabled u) (canvas u) (ctx u) (beatMarkers u) (hitMarkers u)
    (lastBeatTime u) (accuracyThreshold u) (markerSpeed u)
    (showVisualization u) (hitLineX u) (firstBeat u) (currentTempo u)
    v.

Definition with_x (v : Q) (m : BeatMarker) : BeatMarker :=
  mkBeatMarker v (beatNumber m) (isDownbeat m) (time m) (targetTime m).

(** The fields set by the constructor, with the canvas found in the page
    ([setupRhythmVisualization] sizes it to its display rectangle). *)
Definition constructor (rect : Canvas) : MetronomeUI :=
  {| enabled := false;
     canvas := Some rect;
     ctx := true;
     beatMarkers := [];
     hitMarkers := [];
     lastBeatTime := 0;
     accuracyThreshold := 0.15;
     markerSpeed := 2;
     showVisualization := true;
     hitLineX := 80;
     firstBeat := true;
     currentTempo := 120;
     secondsPerBeat := 60 / 120 |}.

Definition resizeCanvas (rect : Canvas) (u : MetronomeUI) : MetronomeUI :=
  with_canvas (Some rect) u.

(** The body of the [forEach] callback of [updateBeatMarkers]. *)
Definition moveBeatMarker (u : MetronomeUI) (now : Q) (marker : BeatMarker)
  : option BeatMarker :=
  let timeLeft := targetTime marker - now in
  let totalTime := targetTime marker - time marker in
  let progress := 1 - timeLeft / totalTime in
  if firstBeat u then Some (with_x (hitLineX u) marker)
  else
    match canvas u with
    | Some c =>
        let distance := width c - hitLineX u in
        Some (with_x (width c - progress * distance) marker)
    | None => None
    end.

Fixpoint forEach {A : Type} (f : A -> option A) (xs : list A) : option (list A) :=
  match xs with
  | [] => Some []
  | a :: rest =>
      match f a with
      | Some a' =>
          match forEach f rest with
          | Some rest' => Some (a' :: rest')
          | None => None
          end
      | None => None
      end
  end.

Definition updateBeatMarkers (now : Q) (u : MetronomeUI) : option MetronomeUI :=
  match forEach (moveBeatMarker u now) (beatMarkers u) with
  | Some moved =>
      Some (with_beatMarkers (filter (fun marker => JsNum.gtb (x marker) (-30)) moved) u)
  | None => None
  end.

(** The body of the [forEach] callback of [updateHitMarkers]. *)
Definition moveHitMarker (u : MetronomeUI) (marker : HitMarker) : HitMarker :=
  let x' := hit_x marker - markerSpeed u in
  let opacity' := opacity marker - 0.01 in
  mkHitMarker x' (accuracy marker) (if JsNum.ltb opacity' 0 then 0 else opacity').

Definition updateHitMarkers (u : MetronomeUI) : MetronomeUI :=
  with_hitMarkers
    (filter (fun marker => JsNum.gtb (hit_x marker) (-30) && JsNum.gtb (opacity marker) 0)
       (map (moveHitMarker u) (hitMarkers u)))
    u.

(** The marker updates of one animation frame. *)
Definition renderRhythmVisualization (now : Q) (u : MetronomeUI) : option MetronomeUI :=
  if negb (ctx u) || negb (showVisualization u) then Some u
  else
    match updateBeatMarkers now u with
    | Some u' => Some (updateHitMarkers u')
    | None => None
    end.

Definition addBeatMarker (now : Q) (beatNumber : Z) (isDownbeat : bool)
  (u : MetronomeUI) : MetronomeUI :=
  match canvas u with
  | None => u
  | Some c =>
      let startX := if firstBeat u then hitLineX u else width c in
      let u1 := if firstBeat u then with_firstBeat false u else u in
      let marker := mkBeatMarker startX beatNumber isDownbeat now (now + secondsPerBeat u1) in
      with_lastBeatTime (targetTime marker)
        (with_beatMarkers (beatMarkers u1 ++ [marker]) u1)
  end.

Definition registerNoteHit (accuracyValue : Q) (u : MetronomeUI) : MetronomeUI :=
  if negb (enabled u) || negb (showVisualization u) then u
  else
    let hitLineX := 80 in
    with_hitMarkers (hitMarkers u ++ [mkHitMarker hitLineX accuracyValue 1.0]) u.

Definition updateMarkerSpeed (u : MetronomeUI) : option MetronomeUI :=
  match canvas u with
  | Some c =>
      let distanceToHitLine := width c - hitLineX u in
      Some (with_markerSpeed (distanceToHitLine / (secondsPerBeat u * 60)) u)
  | None => None
  end.

(** [input] is [parseInt(this.tempoInput.value, 10)], an integer; a field
    that does not parse is outside the model. *)
Definition handleTempoChange (input : Z) (u : MetronomeUI) : option MetronomeUI :=
  let tempo := Z.min 240 (Z.max 40 input) in
  let u1 := with_currentTempo (inject_Z tempo) u in
  let u2 := with_secondsPerBeat (60 / currentTempo u1) u1 in
  updateMarkerSpeed u2.

Definition resetVisualization (on : bool) (u : MetronomeUI) : option MetronomeUI :=
  let u1 := with_hitMarkers [] (with_beatMarkers [] u) in
  if on then updateMarkerSpeed (with_firstBeat true u1) else Some u1.

(** The [change] listener of the metronome switch. *)
Definition toggle (checked : bool) (u : MetronomeUI) : option MetronomeUI :=
  resetVisualization checked (with_enabled checked u).

Definition updateTempo (tempo : Q) (u : MetronomeUI) : option MetronomeUI :=
  updateMarkerSpeed u.

Record Color : Type := mkColor
  { r : Z;
    g : Z;
    b : Z }.

Definition getAccuracyColor (accuracy : Q) : Color :=
  if JsNum.gtb accuracy 0.9 then mkColor 76 175 80
  else if JsNum.gtb accuracy 0.7 then mkColor 255 193 7
  else mkColor 244 67 54.

End MetronomeUI.

(** ** Vocabulary of the statements *)

Module Sched.
Import Metronome.

(** What the [forEach] of [stop] leaves of the timer table. *)
Definition cancel (ids : list Z) (h : Host) : Host :=
  fold_left
    (fun h id =>
       if (id =? 0)%Z then h
       else with_timeouts (filter (fun t => negb (handle t =? id)%Z) (timeouts h)) h)
    ids h.

Definition clear (id : option Z) (h : Host) : Host :=
  match id with
  | Some i => with_intervals (filter (fun j => negb (j =? i)%Z) (intervals h)) h
  | None => h
  end.

(** The 1-based number and the downbeat flag both callbacks derive from a
    Beat. *)
Definition beatNumber (b : Beat) : Z := beatIndex b + 1.
Definition isDownbeat (b : Beat) : bool := (beatIndex b =? 0)%Z.

Definition is_tick (e : Event) : bool :=
  match e with
  | Tick _ _ _ => true
  | BeatScheduled _ _ _ => false
  end.

(** The Beats of [n] iterations of the scheduling loop that starts at time
    [t] and beat index [b], with [d] seconds per beat and [N] beats per
    measure: one Beat for the current index, then the time moves by [d]
    and the index by one modulo [N]. *)
Fixpoint beats_from (d : Q) (N : Z) (t : Q) (b : Z) (n : nat) : list Beat :=
  match n with
  | O => []
  | S n' => mkBeat t b :: beats_from d N (t + d) (JsNum.rem (b + 1) N) n'
  end.

Fixpoint time_after (d : Q) (t : Q) (n : nat) : Q :=
  match n with
  | O => t
  | S n' => time_after d (t + d) n'
  end.

Fixpoint beat_after (N : Z) (b : Z) (n : nat) : Z :=
  match n with
  | O => b
  | S n' => beat_after N (JsNum.rem (b + 1) N) n'
  end.

(** What the owner hears of a Beat when the audio clock reads [now]. *)
Definition notification (now : Q) (b : Beat) : list Event :=
  if JsNum.gtb (targetTime b - now) 0
  then [BeatScheduled (beatNumber b) (isDownbeat b) (targetTime b)]
  else [].

(** Fields no scheduling pass writes. *)
Definition same_settings (w w' : World) : Prop :=
  tempo (metro w') = tempo (metro w) /\
  timeSignature (metro w') = timeSignature (metro w) /\
  audioContext (metro w') = audioContext (metro w) /\
  scheduleAheadTime (metro w') = scheduleAheadTime (metro w) /\
  isPlaying (metro w') = isPlaying (metro w) /\
  beatStartTime (metro w') = beatStartTime (metro w) /\
  timerID (metro w') = timerID (metro w).

(** Scheduling passes separated by the given lapses of time. *)
Fixpoint passes (fuel : nat) (lapses : list Q) : M unit :=
  match lapses with
  | [] => ret tt
  | dt :: rest => advance dt ;; _scheduler fuel ;; passes fuel rest
  end.

(** *** Worlds the statements are tried on *)

Definition stopped_world : World :=
  new (mkOptions (Some 120) (Some 4%Z) (Some (mkAudioContext running 0))).

Definition running_world : World := world_of (start true stopped_world).

(** The world of the end-to-end scenario: tempo 120, four beats, started
    with a delayed first beat at clock 0, seen 0.425 s later. *)
Definition scenario_world : World :=
  world_of (advance 0.425 running_world).

(** A metronome started without the first-beat delay, 25 ms later, when
    its first pass is due. *)
Definition immediate_world : World :=
  world_of ((start false ;; advance 0.025) stopped_world).

(** A metronome built with a tempo of 15000, started at clock 0; its first
    pass runs 25 ms later. *)
Definition fast_world : World :=
  world_of
    ((start false ;; advance 0.025 ;; fire_interval 40 1)
       (new (mkOptions (Some 15000) (Some 4%Z) (Some (mkAudioContext running 0))))).

End Sched.

(** ** Vocabulary of the statements about the markers *)

Module Vis.
Import MetronomeUI.

(** The states a [MetronomeUI] goes through: what the constructor builds,
    changed by its listeners, by the calls of the application and by
    animation frames. *)
Inductive reachable : MetronomeUI -> Prop :=
| reach_constructor (rect : Canvas) :
    reachable (constructor rect)
| reach_resize (rect : Canvas) (u : MetronomeUI) :
    reachable u -> reachable (resizeCanvas rect u)
| reach_toggle (checked : bool) (u u' : MetronomeUI) :
    reachable u -> toggle checked u = Some u' -> reachable u'
| reach_vis_toggle (checked : bool) (u : MetronomeUI) :
    reachable u -> reachable (with_showVisualization checked u)
| reach_tempo (input : Z) (u u' : MetronomeUI) :
    reachable u -> handleTempoChange input u = Some u' -> reachable u'
| reach_update_tempo (tempo : Q) (u u' : MetronomeUI) :
    reachable u -> updateTempo tempo u = Some u' -> reachable u'
| reach_beat (now : Q) (beatNumber : Z) (isDownbeat : bool) (u : MetronomeUI) :
    reachable u -> reachable (addBeatMarker now beatNumber isDownbeat u)
| reach_hit (accuracyValue : Q) (u : MetronomeUI) :
    reachable u -> reachable (registerNoteHit accuracyValue u)
| reach_frame (now : Q) (u u' : MetronomeUI) :
    reachable u -> renderRhythmVisualization now u = Some u' -> reachable u'.

(** Where the interpolation of [updateBeatMarkers] puts a marker. *)
Definition interpolated (c : Canvas) (hitLine now : Q) (m : BeatMarker) : Q :=
  width c
  - (1 - (targetTime m - now) / (targetTime m - time m)) * (width c - hitLine).

(** *** States the statements are tried on *)

(** The page after the metronome switch has been turned on: a canvas 400
    pixels wide, tempo 120. *)
Definition switched_on : MetronomeUI :=
  match toggle true (constructor (mkCanvas 400 120)) with
  | Some u => u
  | None => constructor (mkCanvas 400 120)
  end.

(** The switched-on page with one hit marker. *)
Definition with_one_hit : MetronomeUI := registerNoteHit 0.8 switched_on.

End Vis.

(** ** Vocabulary of further statements about the metronome *)

Module Timers.
Import Metronome.

(** What [push] followed by the bounded [shift] leaves of a list. *)
Definition push_capped (ids : list Z) (id : Z) : list Z :=
  if (20 <? length (ids ++ [id]))%nat then tl (ids ++ [id]) else ids ++ [id].

End Timers.

(** ** Lives of a metronome *)

Module Life.
Import Metronome.

(** What can happen to a metronome: a call of one of its methods by the
    owner, or a turn of the event loop of the browser (a due timeout, the
    polling interval, time passing, the owner of the audio context
    suspending, resuming or closing it). *)
Inductive Action : Type :=
| Start (delayFirstBeat : bool)
| Stop
| SetTempo (bpm : Q)
| SetTimeSignature (beats : Z)
| GetHitAccuracy (hitTime : Q)
| Poll (fuel : nat) (id : Z)
| Fire (id : Z)
| Wait (dt : Q)
| Context (s : ContextState).

Definition set_context_state (s : ContextState) : M unit :=
  assign (fun m =>
            match audioContext m with
            | Some c => with_audioContext (Some (mkAudioContext s (currentTime c))) m
            | None => m
            end).

Definition perform (a : Action) : M unit :=
  match a with
  | Start d => start d
  | Stop => stop
  | SetTempo bpm => setTempo bpm
  | SetTimeSignature beats => setTimeSignature beats
  | GetHitAccuracy hitTime => _ <- getHitAccuracy hitTime ;; ret tt
  | Poll fuel id => fire_interval fuel id
  | Fire id => fire_timeout id
  | Wait dt => advance dt
  | Context s => set_context_state s
  end.

(** [n % 0] is [NaN], which the model does not represent: the lives
    considered give [setTimeSignature] an integer other than 0. *)
Definition representable (a : Action) : bool :=
  match a with
  | SetTimeSignature beats => negb (beats =? 0)%Z
  | _ => true
  end.

(** The states a metronome goes through. An action that returns or throws
    leaves a state from which life goes on; a scheduling pass that does not
    end leaves none. *)
Inductive reachable : World -> Prop :=
| reach_new (options : Options) : reachable (new options)
| reach_return (a : Action) (w w' : World) :
    reachable w -> representable a = true ->
    perform a w = Return tt w' -> reachable w'
| reach_throw (a : Action) (e : Error) (w w' : World) :
    reachable w -> representable a = true ->
    perform a w = Throw e w' -> reachable w'.

(** The polling interval is armed exactly when [timerID] names it, and a
    stopped metronome names none and tracks no tick. *)
Definition polling_consistent (w : World) : Prop :=
  intervals (host w)
  = match timerID (metro w) with Some id => [id] | None => [] end /\
  (isPlaying (metro w) = false ->
   timerID (metro w) = None /\ scheduledTicks (metro w) = []).

End Life.

(** ** Traces of callbacks *)

Module Trace.
Import Metronome.

(** Every [onTick] call in the trace comes after an [onBeatScheduled] call
    with the same three arguments. *)
Definition ticks_announced (es : list Event) : Prop :=
  forall pre post n d t,
    es = pre ++ Tick n d t :: post -> In (BeatScheduled n d t) pre.

(** The downbeat flag of a call is set exactly for beat number 1. *)
Definition downbeat_is_one (e : Event) : Prop :=
  match e with
  | BeatScheduled n d _ => d = (n =? 1)%Z
  | Tick n d _ => d = (n =? 1)%Z
  end.

(** What has been announced for every armed tick. *)
Definition armed_announced (w : World) : Prop :=
  forall t,
    In t (timeouts (host w)) ->
    In (BeatScheduled (tick_beat t + 1) (tick_beat t =? 0)%Z (tick_time t))
      (events (host w)).

(** *** Worlds the statements are tried on *)

(** The scenario 25 ms later, after the pass that arms the tick of the
    first beat. *)
Definition ticking_world : World :=
  world_of ((advance 0.025 ;; fire_interval 5 1) Sched.scenario_world).

Definition first_armed : Timeout :=
  hd (mkTimeout 0 0 0 0) (timeouts (host ticking_world)).

(** 50 ms later, after that tick. *)
Definition ticked_world : World :=
  world_of ((advance 0.05 ;; fire_timeout (handle first_armed)) ticking_world).

End Trace.
(** ** Vocabulary of further statements about the markers *)

Module Frames.
Import MetronomeUI.

(** Where a frame at [now] puts a beat marker of a page with canvas [c]. *)
Definition placed (c : Canvas) (u : MetronomeUI) (now : Q) (m : BeatMarker)
  : BeatMarker :=
  with_x (Vis.interpolated c (hitLineX u) now m) m.

(** Beat markers added one after the other; each entry is the time of the
    call, the beat number and the downbeat flag. *)
Definition addBeatMarkers (beats : list (Q * Z * bool)) (u : MetronomeUI)
  : MetronomeUI :=
  fold_left (fun u b => addBeatMarker (fst (fst b)) (snd (fst b)) (snd b) u) beats u.

(** [n] frames of hit-marker updates. *)
Fixpoint hitFrames (n : nat) (u : MetronomeUI) : MetronomeUI :=
  match n with
  | O => u
  | S n' => hitFrames n' (updateHitMarkers u)
  end.

(** *** Pages the statements are tried on *)

(** The switched-on page after the first two beats have been announced. *)
Definition two_beats : MetronomeUI :=
  addBeatMarkers [(10, 1%Z, true); (10.5, 2%Z, false)] Vis.switched_on.

Definition second_marker : BeatMarker :=
  mkBeatMarker 400 2 false 10.5 (10.5 + 60 / 120).

End Frames.
(** ** NoteConverter.js *)

Module NoteConverter.

Definition noteNames : list string :=
  ["C"; "C#"; "D"; "D#"; "E"; "F"; "F#"; "G"; "G#"; "A"; "A#"; "B"]%string.

(** [this.noteNames[i]] printed in a template: a missing element prints as
    [undefined]. *)
Definition nameAt (i : Z) : string :=
  match (if (i <? 0)%Z then None else nth_error noteNames (Z.to_nat i)) with
  | Some s => s
  | None => "undefined"%string
  end.

(** Note numbers are integers, [Math.floor(midiNote / 12)] is the floored
    quotient and the template literal prints the octave as a decimal
    numeral.  This is what the code computes on small integers, MIDI's 0
    to 127 among them; far beyond them a double is no longer an exact
    integer and, from 1e21, prints in exponent form, which the model does
    not follow. *)
Definition midiToNote (midiNote : Z) : string :=
  let octave := (midiNote / 12 - 1)%Z in
  let noteName := nameAt (JsNum.rem midiNote 12) in
  String.append noteName (DecimalString.NilZero.string_of_int (Z.to_int octave)).

Definition isBlackKey (midiNote : Z) : bool :=
  existsb (Z.eqb (JsNum.rem midiNote 12)) [1; 3; 6; 8; 10]%Z.

End NoteConverter.

(** ** KeyboardUI.js: the set of pressed keys

    The DOM of the keyboard is left out; [activeKeys], a [Set], is the list
    of its elements in insertion order. *)

Module KeyboardUI.

Record KeyboardUI : Type := mkKeyboardUI
  { startNote : Z;
    numKeys : Z;
    endNote : Z;
    activeKeys : list Z }.

Definition with_activeKeys (v : list Z) (k : KeyboardUI) : KeyboardUI :=
  mkKeyboardUI (startNote k) (numKeys k) (endNote k) v.

(** [Set.prototype.has], [add] and [delete]. *)
Definition has (x : Z) (s : list Z) : bool := existsb (Z.eqb x) s.
Definition add (x : Z) (s : list Z) : list Z := if has x s then s else s ++ [x].
Definition delete (x : Z) (s : list Z) : list Z :=
  filter (fun y => negb (x =? y)%Z) s.

Definition constructor (optStartNote optNumKeys : option Z) : KeyboardUI :=
  let startNote := Metronome.orZ optStartNote 36 in
  let numKeys := Metronome.orZ optNumKeys 49 in
  {| startNote := startNote;
     numKeys := numKeys;
     endNote := startNote + numKeys - 1;
     activeKeys := [] |}.

Definition activateKey (midiNote : Z) (k : KeyboardUI) : KeyboardUI :=
  if (startNote k <=? midiNote)%Z && (midiNote <=? endNote k)%Z
  then with_activeKeys (add midiNote (activeKeys k)) k
  else k.

Definition deactivateKey (midiNote : Z) (k : KeyboardUI) : KeyboardUI :=
  if has midiNote (activeKeys k)
  then with_activeKeys (delete midiNote (activeKeys k)) k
  else k.

End KeyboardUI.

(** ** VisualKeysApp.js, the version that owns a metronome

    The application after [initialize]: the components it holds, its rhythm
    tracker, its map of sounding notes and the calls it has made to the
    synthesizer. The clock the handlers read, [performance.now()], is the
    one of the host of the metronome. The status line and the MIDI device
    are left out. *)

Module VisualKeysApp.
Import Metronome.

Record Tracker : Type := mkTracker
  { isMetronomeActive : bool;
    lastNoteHitTime : Q;
    perfectHits : Z;
    goodHits : Z;
    missedHits : Z;
    totalNotes : Z }.

(** Calls of methods of the [SynthEngine]. *)
Inductive SynthCall : Type :=
| playNoteCall (noteName : string)
| stopNoteCall (noteName : string)
| playMetronomeTick (beatNumber : Z) (isDownbeat : bool) (time : Q).

Record App : Type := mkApp
  { keyboardUI : option KeyboardUI.KeyboardUI;
    metronome : option World;
    metronomeUI : option MetronomeUI.MetronomeUI;
    rhythmAccuracyTracker : Tracker;
    activeNotes : list (Z * string);
    synthEngine : list SynthCall }.

Definition with_keyboardUI (v : option KeyboardUI.KeyboardUI) (a : App) : App :=
  mkApp v (metronome a) (metronomeUI a) (rhythmAccuracyTracker a)
    (activeNotes a) (synthEngine a).

Definition with_metronome (v : option World) (a : App) : App :=
  mkApp (keyboardUI a) v (metronomeUI a) (rhythmAccuracyTracker a)
    (activeNotes a) (synthEngine a).

Definition with_metronomeUI (v : option MetronomeUI.MetronomeUI) (a : App) : App :=
  mkApp (keyboardUI a) (metronome a) v (rhythmAccuracyTracker a)
    (activeNotes a) (synthEngine a).

Definition with_tracker (v : Tracker) (a : App) : App :=
  mkApp (keyboardUI a) (metronome a) (metronomeUI a) v
    (activeNotes a) (synthEngine a).

Definition with_activeNotes (v : list (Z * string)) (a : App) : App :=
  mkApp (keyboardUI a) (metronome a) (metronomeUI a) (rhythmAccuracyTracker a)
    v (synthEngine a).

Definition with_synthEngine (v : list SynthCall) (a : App) : App :=
  mkApp (keyboardUI a) (metronome a) (metronomeUI a) (rhythmAccuracyTracker a)
    (activeNotes a) v.

(** [Map.prototype.has], [get], [set] and [delete] on [activeNotes]. *)
Definition mapHas (k : Z) (m : list (Z * string)) : bool :=
  existsb (fun e => (fst e =? k)%Z) m.

Definition mapGet (k : Z) (m : list (Z * string)) : option string :=
  option_map snd (find (fun e => (fst e =? k)%Z) m).

Definition mapSet (k : Z) (v : string) (m : list (Z * string)) : list (Z * string) :=
  if mapHas k m
  then map (fun e => if (fst e =? k)%Z then (k, v) else e) m
  else m ++ [(k, v)].

Definition mapDelete (k : Z) (m : list (Z * string)) : list (Z * string) :=
  filter (fun e => negb (fst e =? k)%Z) m.

Definition constructor : App :=
  {| keyboardUI := None;
     metronome := None;
     metronomeUI := None;
     rhythmAccuracyTracker :=
       {| isMetronomeActive := false; lastNoteHitTime := 0; perfectHits := 0;
          goodHits := 0; missedHits := 0; totalNotes := 0 |};
     activeNotes := [];
     synthEngine := [] |}.

(** [initialize]: the keyboard and the metronome with its panel are built
    when their containers are in the page; [context] is the audio context
    of the synthesizer and [rect] the display size of the canvas. *)
Definition initialize (keyboardContainer metronomeContainer : bool)
  (context : AudioContext) (rect : MetronomeUI.Canvas) (a : App) : App :=
  let a1 :=
    if keyboardContainer
    then with_keyboardUI (Some (KeyboardUI.constructor None None)) a
    else a in
  if metronomeContainer
  then
    with_metronomeUI (Some (MetronomeUI.constructor rect))
      (with_metronome
         (Some (new (mkOptions (Some 120) (Some 4%Z) (Some context)))) a1)
  else a1.

Definition handleBeatScheduled (now : Q) (beatNumber : Z) (isDownbeat : bool)
  (time : Q) (a : App) : App :=
  match metronomeUI a with
  | Some u =>
      with_metronomeUI (Some (MetronomeUI.addBeatMarker now beatNumber isDownbeat u)) a
  | None => a
  end.

(** The two callbacks handed to the metronome. *)
Definition deliver (now : Q) (e : Event) (a : App) : App :=
  match e with
  | BeatScheduled n d t => handleBeatScheduled now n d t a
  | Tick n d t => with_synthEngine (synthEngine a ++ [playMetronomeTick n d t]) a
  end.

(** A computation of the metronome run from the application: the callbacks
    it makes reach the application in order, at the time of the run. The
    result is [None] when the computation does not end. *)
Definition drive (c : M unit) (a : App) : option (Outcome unit * App) :=
  match metronome a with
  | None => None
  | Some w =>
      let o := c w in
      let w' := world_of o in
      let made := skipn (length (events (host w))) (events (host w')) in
      let now := performance_now (host w) / 1000 in
      match o with
      | Hang _ => None
      | _ =>
          Some (o, fold_left (fun a e => deliver now e a) made
                     (with_metronome (Some w') a))
      end
  end.

Definition playNote (midiNote : Z) (a : App) : App :=
  let noteName := NoteConverter.midiToNote midiNote in
  let a1 := with_synthEngine (synthEngine a ++ [playNoteCall noteName]) a in
  let a2 := with_activeNotes (mapSet midiNote noteName (activeNotes a1)) a1 in
  match keyboardUI a2 with
  | Some k => with_keyboardUI (Some (KeyboardUI.activateKey midiNote k)) a2
  | None => a2
  end.

Definition stopNote (midiNote : Z) (a : App) : App :=
  match mapGet midiNote (activeNotes a) with
  | Some noteName =>
      let a1 := with_synthEngine (synthEngine a ++ [stopNoteCall noteName]) a in
      let a2 := with_activeNotes (mapDelete midiNote (activeNotes a1)) a1 in
      match keyboardUI a2 with
      | Some k => with_keyboardUI (Some (KeyboardUI.deactivateKey midiNote k)) a2
      | None => a2
      end
  | None => a
  end.

(** The rhythm check of [handleMIDINoteOn]. *)
Definition trackHit (w : World) (u : MetronomeUI.MetronomeUI) (a : App) : App :=
  let currentTime := performance_now (host w) / 1000 in
  match getHitAccuracy currentTime w with
  | Return accuracy w' =>
      let a1 := with_metronome (Some w') a in
      let a2 := with_metronomeUI (Some (MetronomeUI.registerNoteHit accuracy u)) a1 in
      let t := rhythmAccuracyTracker a2 in
      let t1 :=
        mkTracker (isMetronomeActive t) currentTime (perfectHits t) (goodHits t)
          (missedHits t) (totalNotes t + 1) in
      let t2 :=
        if JsNum.gtb accuracy 0.9 then
          mkTracker (isMetronomeActive t1) (lastNoteHitTime t1) (perfectHits t1 + 1)
            (goodHits t1) (missedHits t1) (totalNotes t1)
        else if JsNum.gtb accuracy 0.7 then
          mkTracker (isMetronomeActive t1) (lastNoteHitTime t1) (perfectHits t1)
            (goodHits t1 + 1) (missedHits t1) (totalNotes t1)
        else
          mkTracker (isMetronomeActive t1) (lastNoteHitTime t1) (perfectHits t1)
            (goodHits t1) (missedHits t1 + 1) (totalNotes t1) in
      with_tracker t2 a2
  | Throw _ w' => with_metronome (Some w') a
  | Hang w' => with_metronome (Some w') a
  end.

Definition handleMIDINoteOn (midiNote : Z) (a : App) : App :=
  match keyboardUI a with
  | Some k =>
      if (KeyboardUI.startNote k <=? midiNote)%Z && (midiNote <=? KeyboardUI.endNote k)%Z
      then
        let a1 :=
          match metronome a, metronomeUI a with
          | Some w, Some u =>
              if isMetronomeActive (rhythmAccuracyTracker a) then trackHit w u a else a
          | _, _ => a
          end in
        playNote midiNote a1
      else a
  | None => a
  end.

Definition handleMIDINoteOff (midiNote : Z) (a : App) : App :=
  match keyboardUI a with
  | Some k =>
      if (KeyboardUI.startNote k <=? midiNote)%Z && (midiNote <=? KeyboardUI.endNote k)%Z
      then stopNote midiNote a
      else a
  | None => a
  end.

Record Stats : Type := mkStats
  { perfect : Z;
    perfectPercent : Q;
    good : Z;
    goodPercent : Q;
    missed : Z;
    missedPercent : Q;
    total : Z }.

Definition percent (hits totalNotes : Z) : Q :=
  if (0 <? totalNotes)%Z
  then JsNum.round (inject_Z hits / inject_Z totalNotes * 100)
  else 0.

Definition getRhythmStats (a : App) : Stats :=
  let stats := rhythmAccuracyTracker a in
  {| perfect := perfectHits stats;
     perfectPercent := percent (perfectHits stats) (totalNotes stats);
     good := goodHits stats;
     goodPercent := percent (goodHits stats) (totalNotes stats);
     missed := missedHits stats;
     missedPercent := percent (missedHits stats) (totalNotes stats);
     total := totalNotes stats |}.

(** *** The listeners the application hangs on its components *)

(** The metronome switch: the listener of the panel resets the markers and
    then calls [onToggle]. An error thrown by [start] ends the listener with
    the writes made so far in place. *)
Definition onToggle (enabled : bool) (a : App) : option (Outcome unit * App) :=
  let t := rhythmAccuracyTracker a in
  let a1 :=
    with_tracker
      (mkTracker enabled (lastNoteHitTime t) (perfectHits t) (goodHits t)
         (missedHits t) (totalNotes t)) a in
  if enabled then drive (start true) a1 else drive stop a1.

Definition switch (checked : bool) (a : App) : option App :=
  match metronomeUI a with
  | Some u =>
      match MetronomeUI.toggle checked u with
      | Some u' => option_map snd (onToggle checked (with_metronomeUI (Some u') a))
      | None => None
      end
  | None => None
  end.

(** The tempo field, holding an integer: the panel clamps the input and
    calls [onTempoChange], which sets the tempo of the metronome, and then
    recalibrates its speed. [setTempo] makes no callback, so the panel does
    not change under it. *)
Definition tempoInput (input : Z) (a : App) : option App :=
  match metronomeUI a with
  | Some u =>
      let tempo := Z.min 240 (Z.max 40 input) in
      match drive (setTempo (inject_Z tempo)) a with
      | Some (_, a1) =>
          match MetronomeUI.handleTempoChange input u with
          | Some u' => Some (with_metronomeUI (Some u') a1)
          | None => None
          end
      | None => None
      end
  | None => None
  end.

(** The time-signature menu, which offers 2, 3, 4 and 6. *)
Definition timeSignatureInput (beats : Z) (a : App) : option App :=
  if existsb (Z.eqb beats) [2; 3; 4; 6]%Z
  then option_map snd (drive (setTimeSignature beats) a)
  else None.

(** A frame of the animation of the panel. *)
Definition frame (a : App) : option App :=
  match metronome a, metronomeUI a with
  | Some w, Some u =>
      match MetronomeUI.renderRhythmVisualization (performance_now (host w) / 1000) u with
      | Some u' => Some (with_metronomeUI (Some u') a)
      | None => None
      end
  | _, _ => Some a
  end.

(** A key of the on-screen keyboard pressed and released with the mouse. *)
Definition mouseDown (midiNote : Z) (a : App) : App :=
  match keyboardUI a with
  | Some k =>
      playNote midiNote
        (with_keyboardUI
           (Some (KeyboardUI.with_activeKeys
                    (KeyboardUI.add midiNote (KeyboardUI.activeKeys k)) k)) a)
  | None => a
  end.

Definition mouseUp (midiNote : Z) (a : App) : App :=
  match keyboardUI a with
  | Some k =>
      stopNote midiNote
        (with_keyboardUI
           (Some (KeyboardUI.with_activeKeys
                    (KeyboardUI.delete midiNote (KeyboardUI.activeKeys k)) k)) a)
  | None => a
  end.

(** What happens to the application. *)
Inductive Input : Type :=
| NoteOn (midiNote : Z)
| NoteOff (midiNote : Z)
| MouseDown (midiNote : Z)
| MouseUp (midiNote : Z)
| Switch (checked : bool)
| TempoInput (input : Z)
| TimeSignatureInput (beats : Z)
| VisToggle (checked : bool)
| Frame
| Turn (a : Life.Action).

(** Turns of the event loop that concern the metronome are those of its
    life that the owner does not make: timers and clocks. *)
Definition event_loop (a : Life.Action) : bool :=
  match a with
  | Life.Poll _ _ | Life.Fire _ | Life.Wait _ | Life.Context _ => true
  | _ => false
  end.

Definition react (i : Input) (a : App) : option App :=
  match i with
  | NoteOn m => Some (handleMIDINoteOn m a)
  | NoteOff m => Some (handleMIDINoteOff m a)
  | MouseDown m => Some (mouseDown m a)
  | MouseUp m => Some (mouseUp m a)
  | Switch checked => switch checked a
  | TempoInput input => tempoInput input a
  | TimeSignatureInput beats => timeSignatureInput beats a
  | VisToggle checked =>
      match metronomeUI a with
      | Some u => Some (with_metronomeUI (Some (MetronomeUI.with_showVisualization checked u)) a)
      | None => None
      end
  | Frame => frame a
  | Turn t =>
      if event_loop t then option_map snd (drive (Life.perform t) a) else None
  end.

(** The states of an application with both containers in its page. *)
Inductive reachable : App -> Prop :=
| reach_initialize (context : AudioContext) (rect : MetronomeUI.Canvas) :
    reachable (initialize true true context rect constructor)
| reach_react (i : Input) (a a' : App) :
    reachable a -> react i a = Some a' -> reachable a'.

End VisualKeysApp.
(** ** Vocabulary of the statements about the application *)

Module AppWords.
Import Metronome VisualKeysApp.

(** What the delivery of callbacks does to the panel: beat markers are
    added, nothing else changes. *)
Definition panel_grows (u u' : MetronomeUI.MetronomeUI) : Prop :=
  MetronomeUI.currentTempo u' = MetronomeUI.currentTempo u /\
  MetronomeUI.secondsPerBeat u' = MetronomeUI.secondsPerBeat u /\
  MetronomeUI.enabled u' = MetronomeUI.enabled u /\
  MetronomeUI.hitMarkers u' = MetronomeUI.hitMarkers u /\
  (Vis.reachable u -> Vis.reachable u').

(** The counters of the rhythm tracker add up. *)
Definition counts_add_up (t : Tracker) : Prop :=
  totalNotes t = (perfectHits t + goodHits t + missedHits t)%Z /\
  (0 <= perfectHits t)%Z /\ (0 <= goodHits t)%Z /\ (0 <= missedHits t)%Z.

(** Every sounding note is stored under its own name, once. *)
Definition notes_named (m : list (Z * string)) : Prop :=
  Forall (fun e => snd e = NoteConverter.midiToNote (fst e)) m /\
  NoDup (map fst m).

(** The application, its metronome and its panel are in step. *)
Definition in_step (a : App) : Prop :=
  exists k w u,
    keyboardUI a = Some k /\ metronome a = Some w /\ metronomeUI a = Some u /\
    Life.reachable w /\ Vis.reachable u /\
    tempo (metro w) = MetronomeUI.currentTempo u /\
    MetronomeUI.secondsPerBeat u = 60 / MetronomeUI.currentTempo u /\
    40 <= tempo (metro w) <= 240 /\
    scheduleAheadTime (metro w) = 0.1 /\
    MetronomeUI.enabled u = isMetronomeActive (rhythmAccuracyTracker a) /\
    (isPlaying (metro w) = true ->
     isMetronomeActive (rhythmAccuracyTracker a) = true) /\
    counts_add_up (rhythmAccuracyTracker a) /\
    notes_named (activeNotes a).

(** The lit keys of the keyboard are the sounding notes. *)
Definition lit_keys_sound (a : App) : Prop :=
  forall k,
    keyboardUI a = Some k ->
    forall x, KeyboardUI.has x (KeyboardUI.activeKeys k) = mapHas x (activeNotes a).

(** *** States the statements are tried on *)

(** The application after [initialize], on a page with both containers, a
    canvas 400 pixels wide and a running audio context. *)
Definition fresh_app : App :=
  initialize true true (mkAudioContext running 0) (MetronomeUI.mkCanvas 400 120)
    constructor.

Definition after (i : Input) (a : App) : App :=
  match react i a with
  | Some a' => a'
  | None => a
  end.

(** The metronome switched on. *)
Definition playing_app : App := after (Switch true) fresh_app.

(** A note of the keyboard played a quarter of a second later. *)
Definition hit_app : App :=
  after (NoteOn 60) (after (Turn (Life.Wait 0.25)) playing_app).

End AppWords.
(** ** Vocabulary of the statements about note names *)

Module Notes.

(** The MIDI note numbers, 0 to 127. *)
Definition midi_notes : list Z := map Z.of_nat (seq 0 128).

(** A note name with a sharp. *)
Definition sharp (noteName : string) : bool :=
  String.eqb (substring 1 1 noteName) "#".

(** The decimal numeral of an integer, as a template literal prints it. *)
Definition numeral (z : Z) : string :=
  DecimalString.NilZero.string_of_int (Z.to_int z).

(** No two of the given notes have the same name. *)
Definition distinct_names (notes : list Z) : bool :=
  forallb
    (fun m1 =>
       forallb
         (fun m2 =>
            implb (String.eqb (NoteConverter.midiToNote m1) (NoteConverter.midiToNote m2))
              (m1 =? m2)%Z)
         notes)
    notes.

End Notes.

(** ** Facts about Metronome.js *)

Module MetronomeFacts.
Import Metronome Sched.

Lemma ltb_lt (a b : Q) : JsNum.ltb a b = true <-> a < b.
Proof.
  unfold JsNum.ltb. rewrite negb_true_iff. split; intro H.
  - apply Qnot_le_lt. intro K. apply Qle_bool_iff in K. congruence.
  - destruct (Qle_bool b a) eqn:E; auto. apply Qle_bool_iff in E. lra.
Qed.

Lemma ltb_ge (a b : Q) : JsNum.ltb a b = false <-> b <= a.
Proof.
  unfold JsNum.ltb. rewrite negb_false_iff. apply Qle_bool_iff.
Qed.

Lemma max_r (a b : Q) : a <= b -> JsNum.max a b = b.
Proof.
  intro H. unfold JsNum.max. apply Qle_bool_iff in H. now rewrite H.
Qed.

Lemma max_l (a b : Q) : b < a -> JsNum.max a b = a.
Proof.
  intro H. unfold JsNum.max. destruct (Qle_bool a b) eqn:E; auto.
  apply Qle_bool_iff in E. lra.
Qed.

(** *** [stop] and [start] *)

Lemma forEach_clearTimeout (ids : list Z) (m : Metronome) (h : Host) :
  forEach ids (fun tickId => if (tickId =? 0)%Z then ret tt else clearTimeout tickId)
    (mkWorld m h)
  = Return tt (mkWorld m (cancel ids h)).
Proof.
  revert h. induction ids as [|id ids IH]; intro h; [reflexivity|].
  cbn [forEach]. unfold bind, cancel. cbn [fold_left].
  destruct (id =? 0)%Z; cbn; apply IH.
Qed.

Lemma stop_stopped (w : World) :
  isPlaying (metro w) = false -> stop w = Return tt w.
Proof.
  intro P. unfold stop, bind, this. now rewrite P.
Qed.

Lemma stop_running (w : World) :
  isPlaying (metro w) = true ->
  stop w =
  Return tt
    (mkWorld
       (with_scheduledTicks []
          (with_timerID None (with_currentBeat 0 (with_isPlaying false (metro w)))))
       (cancel (scheduledTicks (metro w)) (clear (timerID (metro w)) (host w)))).
Proof.
  destruct w as [m h]. cbn. intro P.
  unfold stop, bind, this, assign, clearInterval, onHost, ret. cbn. rewrite P. cbn.
  destruct (timerID m); cbn; rewrite forEach_clearTimeout; reflexivity.
Qed.

Lemma start_running (d : bool) (w : World) :
  isPlaying (metro w) = true -> start d w = Return tt w.
Proof.
  intro P. unfold start, bind, this. now rewrite P.
Qed.

(** A closed context is refused before any field is written. *)
Lemma start_closed (d : bool) (w : World) :
  isPlaying (metro w) = false ->
  context_closed (metro w) = true ->
  start d w = Throw (JsError "AudioContext is closed. Cannot start metronome.") w.
Proof.
  intros P C. unfold start, bind, this. now rewrite P, C.
Qed.

(** Without a context the two first assignments of [start] have happened
    when the clock is read. *)
Lemma start_no_context (d : bool) (w : World) :
  isPlaying (metro w) = false ->
  audioContext (metro w) = None ->
  start d w =
  Throw TypeError
    (mkWorld (with_currentBeat 0 (with_isPlaying true (metro w))) (host w)).
Proof.
  destruct w as [m h]. cbn. intros P C.
  unfold start, bind, this, context_closed. cbn. rewrite P, C. cbn.
  destruct d; unfold audio_currentTime, bind, this; cbn; rewrite C; reflexivity.
Qed.

(** C9. [stop()] on a stopped metronome returns without changing anything,
    so [stop(); stop()] is [stop()]; [start()] on a running metronome
    returns without changing anything. *)
Theorem stop_start_idempotent (w : World) :
  (isPlaying (metro w) = false -> stop w = Return tt w) /\
  (stop ;; stop) w = stop w /\
  (forall d, isPlaying (metro w) = true -> start d w = Return tt w).
Proof.
  split; [apply stop_stopped|]. split; [|intros d; apply start_running].
  destruct (isPlaying (metro w)) eqn:P.
  - unfold bind at 1. rewrite (stop_running w P). now apply stop_stopped.
  - unfold bind at 1. rewrite (stop_stopped w P). now apply stop_stopped.
Qed.

Lemma stop_start_idempotent_witness :
  stop stopped_world = Return tt stopped_world /\
  start true running_world = Return tt running_world.
Proof.
  split.
  - apply (proj1 (stop_start_idempotent stopped_world)). reflexivity.
  - apply (proj2 (proj2 (stop_start_idempotent running_world))). reflexivity.
Defined.

Lemma getHitAccuracy_returns (hitTime : Q) (w : World) :
  exists v, getHitAccuracy hitTime w = Return v w.
Proof.
  cbv beta iota delta [getHitAccuracy bind this ret].
  destruct (isPlaying (metro w)); eexists; reflexivity.
Qed.

(** C10. [getHitAccuracy] returns a value and the world it was called in;
    a second call from there returns the same value. *)
Theorem getHitAccuracy_pure (hitTime : Q) (w : World) :
  exists v,
    getHitAccuracy hitTime w = Return v w /\
    (a <- getHitAccuracy hitTime ;; b <- getHitAccuracy hitTime ;; ret (a, b)) w
    = Return (v, v) w.
Proof.
  destruct (getHitAccuracy_returns hitTime w) as [v Hv].
  exists v. split; [exact Hv|].
  unfold bind. now rewrite Hv, Hv.
Qed.

(** C6 (the code departs from it). A metronome built without an audio
    context is stopped and has no clock; [start(true)] throws, and the
    world it leaves has [isPlaying] set and no interval armed, so that a
    later [start] returns at once. *)
Theorem start_without_context :
  let w := new (mkOptions (Some 120) (Some 4%Z) None) in
  isPlaying (metro w) = false /\
  audioContext (metro w) = None /\
  exists w',
    start true w = Throw TypeError w' /\
    isPlaying (metro w') = true /\
    timerID (metro w') = None /\
    intervals (host w') = [] /\
    start true w' = Return tt w'.
Proof.
  cbv zeta. split; [reflexivity|]. split; [reflexivity|].
  eexists. split; [apply start_no_context; reflexivity|].
  repeat split.
Qed.

(** *** [getHitAccuracy] *)

Lemma max_compat (a b b' : Q) : b == b' -> JsNum.max a b == JsNum.max a b'.
Proof.
  intro E. unfold JsNum.max.
  destruct (Qle_bool a b) eqn:H, (Qle_bool a b') eqn:H'; try assumption; try reflexivity.
  - apply Qle_bool_iff in H. rewrite E in H. apply Qle_bool_iff in H. congruence.
  - apply Qle_bool_iff in H'. rewrite <- E in H'. apply Qle_bool_iff in H'. congruence.
Qed.

(** [Math.round] picks the integer [n] with [n - 1/2 <= p < n + 1/2]. *)
Lemma round_nearest (p : Q) :
  inject_Z (Qfloor (p + (1 # 2))) - (1 # 2) <= p /\
  p < inject_Z (Qfloor (p + (1 # 2))) + (1 # 2).
Proof.
  pose proof (Qfloor_le (p + (1 # 2))) as L.
  pose proof (Qlt_floor (p + (1 # 2))) as U.
  rewrite inject_Z_plus in U. change (inject_Z 1) with 1 in U.
  split; lra.
Qed.

Lemma nearest_unique (n k : Z) (p : Q) :
  inject_Z n - (1 # 2) <= p -> p < inject_Z n + (1 # 2) ->
  inject_Z k - (1 # 2) <= p -> p < inject_Z k + (1 # 2) ->
  n = k.
Proof.
  intros A B C D.
  assert (inject_Z n < inject_Z (k + 1)) as H1
    by (rewrite inject_Z_plus; change (inject_Z 1) with 1; lra).
  assert (inject_Z k < inject_Z (n + 1)) as H2
    by (rewrite inject_Z_plus; change (inject_Z 1) with 1; lra).
  rewrite <- Zlt_Qlt in H1, H2. lia.
Qed.

Lemma round_at (k : Z) (p : Q) :
  inject_Z k - (1 # 2) <= p -> p < inject_Z k + (1 # 2) ->
  JsNum.round p = inject_Z k.
Proof.
  intros A B. unfold JsNum.round. f_equal.
  destruct (round_nearest p) as [C D].
  exact (nearest_unique _ _ p C D A B).
Qed.

(** C3. [getHitAccuracy] returns 0 on a stopped metronome; on a running one
    it returns [max(0, 1 - 2 |p - n|)], where [p] is the elapsed time since
    [beatStartTime] counted in beats of [60 / tempo] seconds and [n] is [p]
    rounded half up.  A hit on a beat boundary scores 1, a hit halfway
    between two beats scores 0, and a hit 0.05 s after the start with beats
    of 0.5 s scores 0.8. *)
Theorem getHitAccuracy_formula (hitTime : Q) (w : World) :
  exists v,
    getHitAccuracy hitTime w = Return v w /\
    (isPlaying (metro w) = false -> v = 0) /\
    (isPlaying (metro w) = true ->
     let beatDuration := 60 / tempo (metro w) in
     let elapsed := hitTime - beatStartTime (metro w) in
     let position := elapsed / beatDuration in
     (exists nearest : Z,
         inject_Z nearest - (1 # 2) <= position /\
         position < inject_Z nearest + (1 # 2) /\
         v == JsNum.max 0 (1 - 2 * Qabs (position - inject_Z nearest))) /\
     (forall k : Z,
         ~ beatDuration == 0 -> elapsed == inject_Z k * beatDuration -> v == 1) /\
     (forall k : Z,
         ~ beatDuration == 0 ->
         elapsed == (inject_Z k + (1 # 2)) * beatDuration -> v == 0) /\
     (beatDuration == 0.5 -> elapsed == 0.05 -> v == 0.8)).
Proof.
  cbv beta iota delta [getHitAccuracy bind this ret].
  destruct (isPlaying (metro w)) eqn:P; cbn [negb].
  2:{ exists 0. split; [reflexivity|]. split; [reflexivity|discriminate]. }
  eexists. split; [reflexivity|]. split; [discriminate|]. intros _.
  cbv zeta.
  set (bd := 60 / tempo (metro w)).
  set (el := hitTime - beatStartTime (metro w)).
  set (p := el / bd).
  unfold JsNum.abs.
  split; [|split; [|split]].
  - exists (Qfloor (p + (1 # 2))).
    destruct (round_nearest p) as [A B]. split; [exact A|]. split; [exact B|].
    apply max_compat. unfold JsNum.round. ring.
  - intros k Hbd Hel.
    assert (p == inject_Z k) as Hp
      by (unfold p; rewrite Hel; apply Qdiv_mult_l; exact Hbd).
    rewrite (round_at k p) by lra.
    rewrite max_r.
    + assert (Qabs (p - inject_Z k) == 0) as Z0
        by (assert (p - inject_Z k == 0) as -> by lra; reflexivity).
      rewrite Z0. ring.
    + apply Qabs_case; lra.
  - intros k Hbd Hel.
    assert (p == inject_Z k + (1 # 2)) as Hp
      by (unfold p; rewrite Hel; apply Qdiv_mult_l; exact Hbd).
    rewrite (round_at (k + 1) p)
      by (rewrite inject_Z_plus; change (inject_Z 1) with 1; lra).
    rewrite inject_Z_plus. change (inject_Z 1) with 1.
    assert (Qabs (p - (inject_Z k + 1)) == 1 # 2) as Z0
      by (assert (p - (inject_Z k + 1) == - (1 # 2)) as -> by lra; reflexivity).
    rewrite (max_compat 0 _ 0) by (rewrite Z0; ring).
    reflexivity.
  - intros Hbd Hel.
    assert (p == 0.1) as Hp by (unfold p; rewrite Hel, Hbd; reflexivity).
    rewrite (round_at 0 p) by (change (inject_Z 0) with 0; lra).
    change (inject_Z 0) with 0.
    assert (Qabs (p - 0) == 0.1) as Z0
      by (assert (p - 0 == 0.1) as -> by lra; reflexivity).
    rewrite (max_compat 0 _ 0.8) by (rewrite Z0; reflexivity).
    reflexivity.
Qed.

Lemma getHitAccuracy_formula_witness :
  exists v,
    getHitAccuracy 0.05 running_world = Return v running_world /\ v == 0.8.
Proof.
  destruct (getHitAccuracy_formula 0.05 running_world) as [v [R [_ H]]].
  exists v. split; [exact R|].
  apply H; reflexivity.
Defined.

(** *** The scheduling pass *)

Lemma same_settings_refl (w : World) : same_settings w w.
Proof. repeat split. Qed.

Lemma same_settings_trans (a b c : World) :
  same_settings a b -> same_settings b c -> same_settings a c.
Proof.
  unfold same_settings. intros H1 H2.
  decompose [and] H1. decompose [and] H2. repeat split; congruence.
Qed.

Lemma scheduler_body_spec (w : World) (c : AudioContext) :
  audioContext (metro w) = Some c ->
  exists w',
    scheduler_body w = Return tt w' /\
    same_settings w w' /\
    nextTickTime (metro w') = nextTickTime (metro w) + 60 / tempo (metro w) /\
    currentBeat (metro w')
    = JsNum.rem (currentBeat (metro w) + 1) (timeSignature (metro w)) /\
    calls (host w')
    = calls (host w) ++ [mkBeat (nextTickTime (metro w)) (currentBeat (metro w))] /\
    events (host w')
    = events (host w)
        ++ notification (currentTime c)
             (mkBeat (nextTickTime (metro w)) (currentBeat (metro w))).
Proof.
  destruct w as [m h]. cbn [metro host]. intro C.
  unfold scheduler_body, _scheduleTick, bind, this, onHost, audio_currentTime,
    assign, setTimeout, onBeatScheduled, ret, notification.
  cbn -[Nat.ltb JsNum.gtb Qplus Qminus Qdiv Qmult]. rewrite C.
  cbn -[Nat.ltb JsNum.gtb Qplus Qminus Qdiv Qmult].
  destruct (JsNum.gtb (nextTickTime m - currentTime c) 0) eqn:G.
  - cbn -[Nat.ltb JsNum.gtb Qplus Qminus Qdiv Qmult].
    destruct (20 <? _)%nat;
      (eexists; split; [reflexivity|]);
      cbn -[Qplus Qminus Qdiv Qmult]; repeat split.
  - eexists. split; [reflexivity|].
    cbn -[Qplus Qminus Qdiv Qmult]. rewrite app_nil_r. repeat split.
Qed.

Lemma scheduler_eq (fuel : nat) (w : World) (c : AudioContext) :
  audioContext (metro w) = Some c ->
  _scheduler fuel w =
  if JsNum.ltb (nextTickTime (metro w)) (currentTime c + scheduleAheadTime (metro w))
  then match fuel with
       | O => Hang w
       | S fuel' => (scheduler_body ;; _scheduler fuel') w
       end
  else Return tt w.
Proof.
  intro C.
  destruct fuel; cbn [_scheduler]; unfold bind at 1, this at 1;
    unfold bind at 1, audio_currentTime, bind at 1, this at 1; rewrite C;
    unfold ret at 1; destruct (JsNum.ltb _ _); reflexivity.
Qed.

(** The loop, for any bound on its iterations: it produces the Beats of
    [n] iterations, each while the loop test holds, and either leaves
    with the test false or has used the whole bound. *)
Lemma scheduler_loop (fuel : nat) (w : World) (c : AudioContext) :
  audioContext (metro w) = Some c ->
  exists n w',
    (n <= fuel)%nat /\
    w' = world_of (_scheduler fuel w) /\
    same_settings w w' /\
    nextTickTime (metro w')
    = time_after (60 / tempo (metro w)) (nextTickTime (metro w)) n /\
    currentBeat (metro w')
    = beat_after (timeSignature (metro w)) (currentBeat (metro w)) n /\
    calls (host w')
    = calls (host w)
        ++ beats_from (60 / tempo (metro w)) (timeSignature (metro w))
             (nextTickTime (metro w)) (currentBeat (metro w)) n /\
    events (host w')
    = events (host w)
        ++ flat_map (notification (currentTime c))
             (beats_from (60 / tempo (metro w)) (timeSignature (metro w))
                (nextTickTime (metro w)) (currentBeat (metro w)) n) /\
    (forall i, (i < n)%nat ->
               time_after (60 / tempo (metro w)) (nextTickTime (metro w)) i
               < currentTime c + scheduleAheadTime (metro w)) /\
    ((_scheduler fuel w = Return tt w' /\
      currentTime c + scheduleAheadTime (metro w) <= nextTickTime (metro w')) \/
     (_scheduler fuel w = Hang w' /\ n = fuel /\
      nextTickTime (metro w') < currentTime c + scheduleAheadTime (metro w))).
Proof.
  revert w. induction fuel as [|fuel IH]; intros w C.
  - rewrite (scheduler_eq 0 w c C).
    destruct (JsNum.ltb _ _) eqn:L; exists 0%nat, w;
      cbn [world_of time_after beat_after beats_from flat_map];
      rewrite !app_nil_r;
      (split; [lia|]); (split; [reflexivity|]);
      (split; [apply same_settings_refl|]); do 4 (split; [reflexivity|]);
      (split; [intros i Hi; lia|]).
    + right. split; [reflexivity|]. split; [reflexivity|]. now apply ltb_lt.
    + left. split; [reflexivity|]. now apply ltb_ge.
  - rewrite (scheduler_eq (S fuel) w c C).
    destruct (JsNum.ltb _ _) eqn:L.
    + destruct (scheduler_body_spec w c C) as (w1 & B & S1 & T1 & B1 & C1 & E1).
      assert ((scheduler_body ;; _scheduler fuel) w = _scheduler fuel w1) as ->
          by (unfold bind; now rewrite B).
      assert (audioContext (metro w1) = Some c) as C'
          by (destruct S1 as (_ & _ & A & _); congruence).
      destruct (IH w1 C') as (n & w' & Hn & W & S2 & T2 & B2 & C2 & E2 & I2 & F2).
      destruct S1 as (St & Ss & Sa & Sh & Sr).
      rewrite St, Ss, Sh, T1, B1 in *. 
      exists (S n), w'. cbn [time_after beat_after beats_from flat_map].
      split; [lia|]. split; [exact W|].
      split; [eapply same_settings_trans; [|exact S2]; repeat split; tauto|].
      split; [exact T2|]. split; [exact B2|].
      split; [rewrite C2, C1, <- app_assoc; reflexivity|].
      split; [rewrite E2, E1, <- app_assoc; reflexivity|].
      split.
      * intros [|i] Hi; cbn [time_after]; [now apply ltb_lt|apply I2; lia].
      * destruct F2 as [[R G]|[H [N G]]]; [left|right].
        -- split; assumption.
        -- split; [assumption|]. split; [congruence|assumption].
    + exists 0%nat, w.
      cbn [world_of time_after beat_after beats_from flat_map].
      rewrite !app_nil_r.
      split; [lia|]. split; [reflexivity|].
      split; [apply same_settings_refl|]. do 4 (split; [reflexivity|]).
      split; [intros i Hi; lia|].
      left. split; [reflexivity|]. now apply ltb_ge.
Qed.

Lemma scheduler_no_context (fuel : nat) (w : World) :
  audioContext (metro w) = None -> _scheduler fuel w = Throw TypeError w.
Proof.
  intro C.
  destruct fuel; cbn [_scheduler]; unfold bind at 1, this at 1;
    unfold bind at 1, audio_currentTime, bind at 1, this at 1; rewrite C;
    reflexivity.
Qed.

(** More iterations allowed do not change a pass that returned. *)
Lemma scheduler_fuel_mono (fuel : nat) :
  forall (w w' : World) (fuel' : nat),
    _scheduler fuel w = Return tt w' -> (fuel <= fuel')%nat ->
    _scheduler fuel' w = Return tt w'.
Proof.
  induction fuel as [|fuel IH]; intros w w' fuel' R L;
    (destruct (audioContext (metro w)) as [c|] eqn:C;
     [|rewrite (scheduler_no_context _ w C) in R; discriminate]);
    rewrite (scheduler_eq _ w c C) in R; rewrite (scheduler_eq fuel' w c C);
    destruct (JsNum.ltb _ _); try discriminate; try exact R.
  destruct fuel' as [|fuel']; [lia|].
  destruct (scheduler_body_spec w c C) as (w1 & B & _).
  unfold bind in *. rewrite B in *. apply IH; [exact R|lia].
Qed.

Lemma time_after_linear (d t : Q) (n : nat) :
  time_after d t n == t + inject_Z (Z.of_nat n) * d.
Proof.
  revert t. induction n as [|n IH]; intro t.
  - cbn [time_after]. change (inject_Z (Z.of_nat 0)) with 0. ring.
  - cbn [time_after]. rewrite IH, Nat2Z.inj_succ. unfold Z.succ.
    rewrite inject_Z_plus. change (inject_Z 1) with 1. ring.
Qed.

Lemma seconds_per_beat_pos (T : Q) : 0 < T -> 0 < 60 / T.
Proof.
  intro H. apply Qlt_shift_div_l; [exact H|]. lra.
Qed.

(** With a positive tempo the loop leaves after finitely many iterations. *)
Lemma scheduler_terminates (w : World) (c : AudioContext) :
  audioContext (metro w) = Some c ->
  0 < tempo (metro w) ->
  exists fuel w', _scheduler fuel w = Return tt w'.
Proof.
  intros C T.
  pose proof (seconds_per_beat_pos _ T) as D.
  set (d := 60 / tempo (metro w)) in *.
  set (gap := currentTime c + scheduleAheadTime (metro w) - nextTickTime (metro w)).
  set (fuel := Z.to_nat (Qceiling (gap / d))).
  destruct (scheduler_loop fuel w c C)
    as (n & w' & _ & _ & _ & Tn & _ & _ & _ & _ & [[R _]|[_ [N G]]]).
  - exists fuel, w'. exact R.
  - exfalso. fold d in Tn. rewrite Tn, time_after_linear, N in G.
    assert (gap / d <= inject_Z (Z.of_nat fuel)) as U.
    { eapply Qle_trans; [apply Qle_ceiling|].
      rewrite <- Zle_Qle. unfold fuel. lia. }
    assert (gap / d * d == gap) as M
        by (field; intro Z0; rewrite Z0 in D; lra).
    assert (gap / d * d <= inject_Z (Z.of_nat fuel) * d) as V
        by (apply Qmult_le_compat_r; [exact U|lra]).
    unfold gap in M at 2. lra.
Qed.

Lemma beats_from_app (d : Q) (N : Z) (n m : nat) :
  forall (t : Q) (b : Z),
    beats_from d N t b (n + m)
    = beats_from d N t b n
        ++ beats_from d N (time_after d t n) (beat_after N b n) m.
Proof.
  induction n as [|n IH]; intros t b; [reflexivity|].
  cbn [Nat.add beats_from time_after beat_after app]. now rewrite IH.
Qed.

(** Two neighbours in the Beats of a loop are one step apart. *)
Lemma beats_from_neighbours (d : Q) (N : Z) (n : nat) :
  forall (t : Q) (b : Z) (pre post : list Beat) (b1 b2 : Beat),
    beats_from d N t b n = pre ++ b1 :: b2 :: post ->
    targetTime b2 = targetTime b1 + d /\
    beatIndex b2 = JsNum.rem (beatIndex b1 + 1) N.
Proof.
  induction n as [|n IH]; intros t b pre post b1 b2 E.
  - destruct pre; discriminate.
  - cbn [beats_from] in E. destruct pre as [|x pre].
    + cbn [app] in E. injection E as E1 E2. subst b1.
      destruct n as [|n]; [discriminate|].
      cbn [beats_from] in E2. injection E2 as E2 _. subst b2.
      split; reflexivity.
    + cbn [app] in E. injection E as _ E. exact (IH _ _ _ _ _ _ E).
Qed.

(** One pass with a positive tempo. *)
Lemma scheduler_pass (w : World) (c : AudioContext) :
  audioContext (metro w) = Some c ->
  0 < tempo (metro w) ->
  exists n fuel0 w',
    (forall fuel, (fuel0 <= fuel)%nat -> _scheduler fuel w = Return tt w') /\
    same_settings w w' /\
    calls (host w')
    = calls (host w)
        ++ beats_from (60 / tempo (metro w)) (timeSignature (metro w))
             (nextTickTime (metro w)) (currentBeat (metro w)) n /\
    (forall i, (i < n)%nat ->
               time_after (60 / tempo (metro w)) (nextTickTime (metro w)) i
               < currentTime c + scheduleAheadTime (metro w)) /\
    nextTickTime (metro w')
    = time_after (60 / tempo (metro w)) (nextTickTime (metro w)) n /\
    currentTime c + scheduleAheadTime (metro w) <= nextTickTime (metro w') /\
    currentBeat (metro w')
    = beat_after (timeSignature (metro w)) (currentBeat (metro w)) n.
Proof.
  intros C T.
  destruct (scheduler_terminates w c C T) as (fuel0 & w' & R).
  destruct (scheduler_loop fuel0 w c C)
    as (n & w2 & _ & W & S & Tn & Bn & Cn & _ & In & F).
  rewrite R in W. cbn [world_of] in W. subst w2.
  exists n, fuel0, w'.
  split; [intros fuel L; exact (scheduler_fuel_mono fuel0 w w' fuel R L)|].
  split; [exact S|]. split; [exact Cn|]. split; [exact In|].
  split; [exact Tn|]. split; [|exact Bn].
  destruct F as [[_ G]|[H _]]; [exact G|congruence].
Qed.

Lemma advance_spec (dt : Q) (w : World) (c : AudioContext) :
  audioContext (metro w) = Some c ->
  exists w' c',
    advance dt w = Return tt w' /\
    audioContext (metro w') = Some c' /\
    tempo (metro w') = tempo (metro w) /\
    timeSignature (metro w') = timeSignature (metro w) /\
    nextTickTime (metro w') = nextTickTime (metro w) /\
    currentBeat (metro w') = currentBeat (metro w) /\
    calls (host w') = calls (host w).
Proof.
  destruct w as [m h]. cbn [metro host]. intro C.
  unfold advance, bind, onHost, assign. cbn [metro host]. rewrite C.
  destruct c as [[| |] t]; eexists; eexists; (split; [reflexivity|]);
    cbn; rewrite ?C; repeat split.
Qed.

(** Any number of passes: the Beats of all of them form one run of the
    loop. *)
Lemma passes_beats (lapses : list Q) :
  forall (w : World) (c : AudioContext),
    audioContext (metro w) = Some c ->
    0 < tempo (metro w) ->
    exists n fuel0 w',
      (forall fuel, (fuel0 <= fuel)%nat -> passes fuel lapses w = Return tt w') /\
      calls (host w')
      = calls (host w)
          ++ beats_from (60 / tempo (metro w)) (timeSignature (metro w))
               (nextTickTime (metro w)) (currentBeat (metro w)) n.
Proof.
  induction lapses as [|dt lapses IH]; intros w c C T.
  - exists 0%nat, 0%nat, w. split; [reflexivity|].
    cbn [beats_from]. now rewrite app_nil_r.
  - destruct (advance_spec dt w c C) as (wa & ca & A & Ca & Ta & Sa & Na & Ba & La).
    assert (0 < tempo (metro wa)) as T' by now rewrite Ta.
    destruct (scheduler_pass wa ca Ca T')
      as (n1 & f1 & w1 & R1 & S1 & C1 & _ & N1 & _ & B1).
    destruct S1 as (St & Ss & Sc & _).
    assert (0 < tempo (metro w1)) as T'' by now rewrite St.
    assert (audioContext (metro w1) = Some ca) as C'' by congruence.
    destruct (IH w1 ca C'' T'') as (n2 & f2 & w2 & R2 & C2).
    exists (n1 + n2)%nat, (Nat.max f1 f2), w2. split.
    + intros fuel L. cbn [passes]. unfold bind. rewrite A.
      rewrite (R1 fuel) by lia. apply R2. lia.
    + rewrite C2, C1, St, Ss, N1, B1, Ta, Sa, Na, Ba, La, beats_from_app.
      now rewrite <- app_assoc.
Qed.

(** C1. With a tempo [T] held in [30, 300] and [N] beats per measure, a
    scheduling pass returns after running its loop some [n] times: each
    time the test [nextTickTime < now + scheduleAheadTime] held, one Beat
    was produced for the current beat index, [nextTickTime] moved by
    [60 / T] and the index by one modulo [N]; the test fails at the end.
    The Beats of any number of passes form one such run, and two
    consecutive Beats of a run are exactly [60 / T] seconds apart, the
    later one strictly later. *)
Theorem scheduler_beats (w : World) (c : AudioContext) :
  audioContext (metro w) = Some c ->
  30 <= tempo (metro w) <= 300 ->
  let T := tempo (metro w) in
  let N := timeSignature (metro w) in
  let t0 := nextTickTime (metro w) in
  let b0 := currentBeat (metro w) in
  (exists n fuel0 w',
      (forall fuel, (fuel0 <= fuel)%nat -> _scheduler fuel w = Return tt w') /\
      calls (host w') = calls (host w) ++ beats_from (60 / T) N t0 b0 n /\
      (forall i, (i < n)%nat ->
                 time_after (60 / T) t0 i
                 < currentTime c + scheduleAheadTime (metro w)) /\
      nextTickTime (metro w') = time_after (60 / T) t0 n /\
      currentTime c + scheduleAheadTime (metro w) <= nextTickTime (metro w') /\
      currentBeat (metro w') = beat_after N b0 n /\
      tempo (metro w') = T /\ timeSignature (metro w') = N) /\
  (forall lapses, exists n fuel0 w',
      (forall fuel, (fuel0 <= fuel)%nat -> passes fuel lapses w = Return tt w') /\
      calls (host w') = calls (host w) ++ beats_from (60 / T) N t0 b0 n) /\
  (forall n pre b1 b2 post,
      beats_from (60 / T) N t0 b0 n = pre ++ b1 :: b2 :: post ->
      targetTime b2 - targetTime b1 == 60 / T /\
      targetTime b1 < targetTime b2 /\
      beatIndex b2 = JsNum.rem (beatIndex b1 + 1) N /\
      ((0 <= beatIndex b1)%Z -> (0 < N)%Z ->
       beatIndex b2 = ((beatIndex b1 + 1) mod N)%Z)).
Proof.
  intros C [Tlo Thi]. cbv zeta.
  assert (0 < tempo (metro w)) as T by lra.
  split; [|split].
  - destruct (scheduler_pass w c C T)
      as (n & fuel0 & w' & R & S & Cn & In & Tn & G & Bn).
    destruct S as (St & Ss & _).
    exists n, fuel0, w'. repeat (split; [assumption|]). assumption.
  - intro lapses. exact (passes_beats lapses w c C T).
  - intros n pre b1 b2 post E.
    destruct (beats_from_neighbours _ _ _ _ _ _ _ _ _ E) as [Ht Hb].
    pose proof (seconds_per_beat_pos _ T) as D.
    rewrite Ht. split; [ring|]. split; [lra|]. split; [exact Hb|].
    intros P Q. rewrite Hb. unfold JsNum.rem. apply Z.rem_mod_nonneg; lia.
Qed.

Lemma scheduler_beats_witness :
  exists n fuel0 w',
    (forall fuel, (fuel0 <= fuel)%nat ->
                  passes fuel [0.025; 0.5] scenario_world = Return tt w') /\
    calls (host w')
    = calls (host scenario_world) ++ beats_from (60 / 120) 4 (60 / 120) 0 n.
Proof.
  assert (audioContext (metro scenario_world) = Some (mkAudioContext running (0 + 0.425)))
    as C by reflexivity.
  assert (30 <= tempo (metro scenario_world) <= 300) as T
      by (split; vm_compute; discriminate).
  exact (proj1 (proj2 (scheduler_beats scenario_world _ C T)) [0.025; 0.5]).
Defined.








(** *** Notifications and pending ticks *)

Lemma scheduleTick_spec (time : Q) (beatNumber : Z) (w : World) (c : AudioContext) :
  audioContext (metro w) = Some c ->
  exists w',
    _scheduleTick time beatNumber w = Return tt w' /\
    calls (host w') = calls (host w) ++ [mkBeat time beatNumber] /\
    (currentTime c < time ->
     events (host w')
     = events (host w) ++ [BeatScheduled (beatNumber + 1) (beatNumber =? 0)%Z time] /\
     timeouts (host w')
     = timeouts (host w)
         ++ [mkTimeout (fresh (host w))
               (performance_now (host w) + (time - currentTime c) * 1000)
               time beatNumber]) /\
    (time <= currentTime c ->
     events (host w') = events (host w) /\
     timeouts (host w') = timeouts (host w) /\
     metro w' = metro w).
Proof.
  destruct w as [m h]. cbn [metro host]. intro C.
  unfold _scheduleTick, bind, this, onHost, audio_currentTime,
    assign, setTimeout, onBeatScheduled, ret.
  cbn -[Nat.ltb JsNum.gtb Qplus Qminus Qdiv Qmult]. rewrite C.
  cbn -[Nat.ltb JsNum.gtb Qplus Qminus Qdiv Qmult].
  destruct (JsNum.gtb (time - currentTime c) 0) eqn:G.
  - apply ltb_lt in G.
    cbn -[Nat.ltb JsNum.gtb Qplus Qminus Qdiv Qmult].
    destruct (20 <? _)%nat;
      (eexists; split; [reflexivity|]);
      cbn -[Qplus Qminus Qdiv Qmult];
      (split; [reflexivity|]); (split; [intros _; split; reflexivity|]);
      intro L; lra.
  - apply ltb_ge in G.
    eexists. split; [reflexivity|].
    cbn -[Qplus Qminus Qdiv Qmult]. split; [reflexivity|].
    split; [intro L; lra|]. intros _. repeat split.
Qed.

(** C4 (as the code has it). A Beat whose time is strictly ahead of the
    audio clock is announced by [onBeatScheduled] within the call that
    produces it, right after its tick is armed; a Beat whose time is not
    ahead of the clock arms no tick and is not announced.  Over a whole
    pass the announcements are those of the Beats that were ahead. *)
Theorem scheduleTick_notifies_future_beats
  (time : Q) (beatNumber : Z) (w : World) (c : AudioContext) :
  audioContext (metro w) = Some c ->
  (exists w',
      _scheduleTick time beatNumber w = Return tt w' /\
      calls (host w') = calls (host w) ++ [mkBeat time beatNumber] /\
      (currentTime c < time ->
       events (host w')
       = events (host w)
           ++ [BeatScheduled (beatNumber + 1) (beatNumber =? 0)%Z time] /\
       timeouts (host w')
       = timeouts (host w)
           ++ [mkTimeout (fresh (host w))
                 (performance_now (host w) + (time - currentTime c) * 1000)
                 time beatNumber]) /\
      (time <= currentTime c ->
       events (host w') = events (host w) /\
       timeouts (host w') = timeouts (host w) /\
       metro w' = metro w)) /\
  (forall fuel, exists beats,
      calls (host (world_of (_scheduler fuel w))) = calls (host w) ++ beats /\
      events (host (world_of (_scheduler fuel w)))
      = events (host w) ++ flat_map (notification (currentTime c)) beats).
Proof.
  intro C. split; [exact (scheduleTick_spec time beatNumber w c C)|].
  intro fuel.
  destruct (scheduler_loop fuel w c C) as (n & w' & _ & W & _ & _ & _ & Cn & En & _).
  rewrite <- W. eexists. split; [exact Cn|exact En].
Qed.

Lemma scheduleTick_notifies_future_beats_witness :
  exists w',
    _scheduleTick 0.5 0 scenario_world = Return tt w' /\
    events (host w')
    = events (host scenario_world) ++ [BeatScheduled 1 true 0.5].
Proof.
  destruct (proj1 (scheduleTick_notifies_future_beats 0.5 0 scenario_world
                     (mkAudioContext running (0 + 0.425)) eq_refl))
    as (w' & R & _ & F & _).
  exists w'. split; [exact R|]. apply F. vm_compute. reflexivity.
Defined.

(** C4 fails as stated: the first pass produces the Beat at time 0, and
    [onBeatScheduled] is not called for it. *)
Lemma beat_without_notification :
  fire_interval 5 1 immediate_world
  = Return tt (world_of (fire_interval 5 1 immediate_world)) /\
  calls (host immediate_world) = [] /\
  events (host immediate_world) = [] /\
  calls (host (world_of (fire_interval 5 1 immediate_world))) = [mkBeat 0 0] /\
  events (host (world_of (fire_interval 5 1 immediate_world))) = [].
Proof. vm_compute. repeat split. Qed.

(** What [stop] leaves in the timer table. *)
Lemma cancel_timeouts (ids : list Z) :
  forall h : Host,
    timeouts (cancel ids h)
    = filter (fun t => negb (existsb (fun id => negb (id =? 0)%Z && (handle t =? id)%Z) ids))
        (timeouts h).
Proof.
  induction ids as [|id ids IH]; intro h.
  - cbn. induction (timeouts h) as [|t l IHl]; [reflexivity|].
    cbn. now rewrite <- IHl.
  - unfold cancel. cbn [fold_left]. fold (cancel ids).
    rewrite IH. cbn [existsb]. destruct (id =? 0)%Z eqn:Z0.
    + apply filter_ext. intro t. reflexivity.
    + cbn [timeouts with_timeouts negb andb].
      induction (timeouts h) as [|t l IHl]; [reflexivity|].
      cbn [filter]. destruct (handle t =? id)%Z; cbn [negb orb filter].
      * exact IHl.
      * destruct (negb (existsb _ ids)); [now rewrite IHl|exact IHl].
Qed.

(** Every armed tick whose handle is still in [scheduledTicks] is gone
    from the timer table when [stop] returns. *)
Lemma stop_cancels_tracked (w : World) (t : Timeout) :
  isPlaying (metro w) = true ->
  In (handle t) (scheduledTicks (metro w)) ->
  handle t <> 0%Z ->
  ~ In t (timeouts (host (world_of (stop w)))).
Proof.
  intros P I N. rewrite (stop_running w P). cbn [world_of host].
  rewrite cancel_timeouts. intro H. apply filter_In in H. destruct H as [_ H].
  apply negb_true_iff in H.
  assert (existsb (fun id => negb (id =? 0)%Z && (handle t =? id)%Z)
            (scheduledTicks (metro w)) = true) as E; [|congruence].
  apply existsb_exists. exists (handle t). split; [exact I|].
  rewrite Z.eqb_refl, andb_true_r. apply negb_true_iff. now apply Z.eqb_neq.
Qed.

(** The end-to-end scenario of C2: started at clock 0 with the first beat
    delayed to 0.5, polled every 25 ms, stopped at 0.3. Nothing is armed
    any more, so no tick can follow. *)
Lemma stop_before_first_tick :
  let w := world_of ((advance 0.3 ;; fire_interval 5 1 ;; stop) running_world) in
  timeouts (host w) = [] /\ intervals (host w) = [] /\
  events (host w) = [BeatScheduled 1 true (60 / 120)].
Proof. vm_compute. repeat split. Qed.

(** C2 (the code departs from it). The pass of [fast_world] armed 25
    ticks and kept the 20 latest handles. [stop] cancels those 20; the
    ticks with handles 2 to 6 stay armed, and the one with handle 2 calls
    [onTick] once its time has come. *)
Theorem stop_leaves_armed_ticks :
  let stopped := world_of (stop fast_world) in
  let later := world_of ((advance 0.1 ;; fire_timeout 2) stopped) in
  length (timeouts (host fast_world)) = 25%nat /\
  scheduledTicks (metro fast_world)
  = [7; 8; 9; 10; 11; 12; 13; 14; 15; 16; 17; 18; 19; 20; 21; 22; 23; 24; 25; 26]%Z /\
  stop fast_world = Return tt stopped /\
  isPlaying (metro stopped) = false /\
  map handle (timeouts (host stopped)) = [2; 3; 4; 5; 6]%Z /\
  existsb is_tick (events (host stopped)) = false /\
  exists t,
    events (host later) = events (host stopped) ++ [Tick 4 false t].
Proof.
  cbv zeta. repeat (split; [vm_compute; reflexivity|]).
  eexists. vm_compute. reflexivity.
Qed.

End MetronomeFacts.

(** ** Facts about MetronomeUI.js *)

Module MetronomeUIFacts.
Import MetronomeUI Vis.

Lemma updateMarkerSpeed_frame (u u' : MetronomeUI) :
  updateMarkerSpeed u = Some u' ->
  firstBeat u' = firstBeat u /\ beatMarkers u' = beatMarkers u.
Proof.
  unfold updateMarkerSpeed. destruct (canvas u); [|discriminate].
  intro E. injection E as <-. split; reflexivity.
Qed.

Lemma updateBeatMarkers_frame (now : Q) (u u' : MetronomeUI) :
  updateBeatMarkers now u = Some u' ->
  firstBeat u' = firstBeat u /\
  (beatMarkers u = [] -> beatMarkers u' = []).
Proof.
  unfold updateBeatMarkers.
  destruct (forEach _ _) as [moved|] eqn:F; [|discriminate].
  intro E. injection E as <-. split; [reflexivity|].
  intro N. rewrite N in F. cbn in F. injection F as <-. reflexivity.
Qed.

(** Once a marker exists the [firstBeat] flag is down: [addBeatMarker]
    lowers it when it creates the first marker, and only
    [resetVisualization], which empties the list, raises it. *)
Lemma markers_after_first_beat (u : MetronomeUI) :
  reachable u -> firstBeat u = true -> beatMarkers u = [].
Proof.
  induction 1 as [rect|rect u R IH|checked u u' R IH T|checked u R IH
                 |input u u' R IH T|tempo u u' R IH T|now n d u R IH
                 |a u R IH|now u u' R IH T]; intro F.
  - reflexivity.
  - exact (IH F).
  - unfold toggle, resetVisualization in T. destruct checked.
    + apply updateMarkerSpeed_frame in T. destruct T as [_ T]. exact T.
    + injection T as <-. reflexivity.
  - exact (IH F).
  - unfold handleTempoChange in T. apply updateMarkerSpeed_frame in T.
    destruct T as [T1 T2]. rewrite T2. apply IH. rewrite <- F, T1. reflexivity.
  - unfold updateTempo in T. apply updateMarkerSpeed_frame in T.
    destruct T as [T1 T2]. rewrite T2. apply IH. congruence.
  - unfold addBeatMarker in *. destruct (canvas u); [|exact (IH F)].
    destruct (firstBeat u) eqn:G; cbn in F; congruence.
  - unfold registerNoteHit in *.
    destruct (negb (enabled u) || negb (showVisualization u)); exact (IH F).
  - unfold renderRhythmVisualization in T.
    destruct (negb (ctx u) || negb (showVisualization u)).
    + injection T as <-. exact (IH F).
    + destruct (updateBeatMarkers now u) as [u1|] eqn:U; [|discriminate].
      injection T as <-. apply updateBeatMarkers_frame in U.
      destruct U as [U1 U2]. cbn. apply U2, IH. cbn in F. congruence.
Qed.

(** On a frame every marker of a reachable state is placed by the
    interpolation; none is kept at the hit line. *)
Lemma frame_interpolates_every_marker (now : Q) (u : MetronomeUI) (c : Canvas)
  (m : BeatMarker) :
  reachable u -> canvas u = Some c -> In m (beatMarkers u) ->
  moveBeatMarker u now m = Some (with_x (interpolated c (hitLineX u) now m) m).
Proof.
  intros R C I. unfold moveBeatMarker, interpolated.
  destruct (firstBeat u) eqn:F.
  - rewrite (markers_after_first_beat u R F) in I. destruct I.
  - now rewrite C.
Qed.

(** C5 (the code departs from it). After the switch is turned on, the
    first marker is created at the hit line, x = 80, and the [firstBeat]
    flag is lowered. The frame drawn 0.1 s later moves that marker by the
    interpolation, to x = 336; the frame drawn at the very instant of its
    creation already puts it at the right edge, x = 400. *)
Theorem first_marker_not_pinned :
  let u1 := switched_on in
  let u2 := addBeatMarker 10 1 true u1 in
  toggle true (constructor (mkCanvas 400 120)) = Some u1 /\
  firstBeat u1 = true /\ hitLineX u1 = 80 /\
  map x (beatMarkers u2) = [80] /\ firstBeat u2 = false /\
  (exists u3 m,
      renderRhythmVisualization 10.1 u2 = Some u3 /\
      beatMarkers u3 = [m] /\ x m == 336 /\ ~ x m == hitLineX u3) /\
  (exists u3 m,
      renderRhythmVisualization 10 u2 = Some u3 /\
      beatMarkers u3 = [m] /\ x m == 400).
Proof.
  cbv zeta. do 5 (split; [reflexivity|]). split.
  - eexists. eexists. split; [vm_compute; reflexivity|].
    split; [reflexivity|]. split; [reflexivity|]. intro H. discriminate H.
  - eexists. eexists. split; [vm_compute; reflexivity|].
    split; [reflexivity|]. reflexivity.
Qed.

(** *** Hit markers *)

Lemma gtb_lt (a b : Q) : JsNum.gtb a b = true <-> b < a.
Proof.
  unfold JsNum.gtb, JsNum.ltb. rewrite negb_true_iff. split; intro H.
  - apply Qnot_le_lt. intro K. apply Qle_bool_iff in K. congruence.
  - destruct (Qle_bool a b) eqn:E; auto. apply Qle_bool_iff in E. lra.
Qed.

Lemma moveHitMarker_kept (u : MetronomeUI) (m : HitMarker) :
  JsNum.gtb (hit_x (moveHitMarker u m)) (-30)
  && JsNum.gtb (opacity (moveHitMarker u m)) 0 = true <->
  -30 < hit_x m - markerSpeed u /\ 0 < opacity m - 0.01.
Proof.
  unfold moveHitMarker. cbn [hit_x opacity]. rewrite andb_true_iff, !gtb_lt.
  destruct (JsNum.ltb (opacity m - 0.01) 0) eqn:L.
  - apply MetronomeFacts.ltb_lt in L. split; intros [A B]; split; lra.
  - apply MetronomeFacts.ltb_ge in L. reflexivity.
Qed.

Lemma moveHitMarker_visible (u : MetronomeUI) (m : HitMarker) :
  0 < opacity m - 0.01 ->
  moveHitMarker u m
  = mkHitMarker (hit_x m - markerSpeed u) (accuracy m) (opacity m - 0.01).
Proof.
  intro P. unfold moveHitMarker.
  destruct (JsNum.ltb (opacity m - 0.01) 0) eqn:L; [|reflexivity].
  apply MetronomeFacts.ltb_lt in L. lra.
Qed.

(** C8 (as the code has it). A frame moves every hit marker to the left by
    the current [markerSpeed] and lowers its opacity by 0.01; the marker
    is dropped when it then is at or left of x = -30 or has no opacity
    left, and kept otherwise. A frame does not change [markerSpeed];
    [handleTempoChange] sets it to [(width - hitLineX) * tempo / 3600] for
    the tempo it clamps its input to. *)
Theorem hit_markers_frame (u : MetronomeUI) :
  (forall m',
      In m' (hitMarkers (updateHitMarkers u)) ->
      exists m,
        In m (hitMarkers u) /\
        hit_x m' = hit_x m - markerSpeed u /\
        opacity m' = opacity m - 0.01 /\
        accuracy m' = accuracy m /\
        -30 < hit_x m' /\ 0 < opacity m') /\
  (forall m,
      In m (hitMarkers u) ->
      -30 < hit_x m - markerSpeed u -> 0 < opacity m - 0.01 ->
      In (mkHitMarker (hit_x m - markerSpeed u) (accuracy m) (opacity m - 0.01))
        (hitMarkers (updateHitMarkers u))) /\
  markerSpeed (updateHitMarkers u) = markerSpeed u /\
  (forall input u',
      handleTempoChange input u = Some u' ->
      exists c,
        canvas u = Some c /\
        markerSpeed u'
        == (width c - hitLineX u) * inject_Z (Z.min 240 (Z.max 40 input)) / 3600).
Proof.
  split; [|split; [|split]].
  - intros m' I. unfold updateHitMarkers in I. cbn [hitMarkers with_hitMarkers] in I.
    apply filter_In in I. destruct I as [I K].
    apply in_map_iff in I. destruct I as (m & <- & I).
    apply moveHitMarker_kept in K. destruct K as [K1 K2].
    rewrite (moveHitMarker_visible u m K2). cbn [hit_x opacity accuracy].
    exists m. repeat (split; [assumption || reflexivity|]). assumption.
  - intros m I K1 K2. unfold updateHitMarkers. cbn [hitMarkers with_hitMarkers].
    apply filter_In. rewrite <- (moveHitMarker_visible u m K2). split.
    + apply in_map. exact I.
    + apply moveHitMarker_kept. split; assumption.
  - reflexivity.
  - intros input u' H. unfold handleTempoChange, updateMarkerSpeed in H.
    cbn [canvas with_secondsPerBeat with_currentTempo] in H.
    destruct (canvas u) as [c|]; [|discriminate]. injection H as <-.
    exists c. split; [reflexivity|].
    cbn [markerSpeed with_markerSpeed secondsPerBeat with_secondsPerBeat
           currentTempo with_currentTempo hitLineX].
    assert (40 <= inject_Z (Z.min 240 (Z.max 40 input))) as P
        by (change 40 with (inject_Z 40); rewrite <- Zle_Qle; lia).
    field. lra.
Qed.

Lemma hit_markers_frame_witness :
  (exists u',
      handleTempoChange 60 with_one_hit = Some u' /\
      markerSpeed u' == (400 - 80) * 60 / 3600) /\
  In (mkHitMarker (80 - markerSpeed with_one_hit) 0.8 (1.0 - 0.01))
    (hitMarkers (updateHitMarkers with_one_hit)).
Proof.
  split.
  - destruct (handleTempoChange 60 with_one_hit) as [u'|] eqn:E;
      [|discriminate E].
    exists u'. split; [reflexivity|].
    destruct (proj2 (proj2 (proj2 (hit_markers_frame with_one_hit))) 60%Z u' E)
      as (c & C & S).
    injection C as <-. exact S.
  - apply (proj1 (proj2 (hit_markers_frame with_one_hit))
             (mkHitMarker 80 0.8 1.0)).
    + left. reflexivity.
    + vm_compute. reflexivity.
    + vm_compute. reflexivity.
Defined.

(** C8 fails as stated: the same hit marker moves 16/3 pixels in a frame
    after the tempo was set to 60, and 32/3 pixels after it was set to
    120. *)
Lemma hit_marker_speed_follows_tempo :
  exists u60 u120 m60 m120,
    map hit_x (hitMarkers with_one_hit) = [80] /\
    handleTempoChange 60 with_one_hit = Some u60 /\
    handleTempoChange 120 with_one_hit = Some u120 /\
    hitMarkers (updateHitMarkers u60) = [m60] /\
    hitMarkers (updateHitMarkers u120) = [m120] /\
    80 - hit_x m60 == 16 # 3 /\
    80 - hit_x m120 == 32 # 3 /\
    ~ hit_x m60 == hit_x m120.
Proof.
  do 4 eexists. do 5 (split; [vm_compute; reflexivity|]).
  split; [reflexivity|]. split; [reflexivity|]. intro H. discriminate H.
Qed.

End MetronomeUIFacts.

(** ** Further facts about Metronome.js *)

Module SchedulerFacts.
Import Metronome Sched Timers Life MetronomeFacts.

(** *** Invariants of a scheduling pass *)

(** What the loop body keeps, the whole pass keeps, whatever its outcome. *)
Lemma scheduler_preserves (P : World -> Prop) :
  (forall w c w',
      audioContext (metro w) = Some c -> P w ->
      scheduler_body w = Return tt w' -> P w') ->
  forall fuel w, P w -> P (world_of (_scheduler fuel w)).
Proof.
  intros Step fuel. induction fuel as [|fuel IH]; intros w H;
    (destruct (audioContext (metro w)) as [c|] eqn:C;
     [rewrite (scheduler_eq _ w c C)
     |rewrite (scheduler_no_context _ w C); exact H]);
    destruct (JsNum.ltb _ _); try exact H.
  destruct (scheduler_body_spec w c C) as (w1 & B & _).
  unfold bind. rewrite B. apply IH. exact (Step w c w1 C H B).
Qed.

(** The timers and handles after one iteration. *)
Lemma scheduler_body_timers (w : World) (c : AudioContext) :
  audioContext (metro w) = Some c ->
  exists w',
    scheduler_body w = Return tt w' /\
    performance_now (host w') = performance_now (host w) /\
    intervals (host w') = intervals (host w) /\
    timerID (metro w') = timerID (metro w) /\
    (currentTime c < nextTickTime (metro w) ->
     timeouts (host w')
     = timeouts (host w)
         ++ [mkTimeout (fresh (host w))
               (performance_now (host w)
                + (nextTickTime (metro w) - currentTime c) * 1000)
               (nextTickTime (metro w)) (currentBeat (metro w))] /\
     fresh (host w') = (fresh (host w) + 1)%Z /\
     scheduledTicks (metro w')
     = push_capped (scheduledTicks (metro w)) (fresh (host w))) /\
    (nextTickTime (metro w) <= currentTime c ->
     timeouts (host w') = timeouts (host w) /\
     fresh (host w') = fresh (host w) /\
     scheduledTicks (metro w') = scheduledTicks (metro w)).
Proof.
  destruct w as [m h]. cbn [metro host]. intro C.
  unfold scheduler_body, _scheduleTick, bind, this, onHost, audio_currentTime,
    assign, setTimeout, onBeatScheduled, ret, push_capped.
  cbn -[Nat.ltb JsNum.gtb Qplus Qminus Qdiv Qmult]. rewrite C.
  cbn -[Nat.ltb JsNum.gtb Qplus Qminus Qdiv Qmult].
  destruct (JsNum.gtb (nextTickTime m - currentTime c) 0) eqn:G.
  - apply ltb_lt in G.
    cbn -[Nat.ltb JsNum.gtb Qplus Qminus Qdiv Qmult].
    destruct (20 <? _)%nat;
      (eexists; split; [reflexivity|]);
      cbn -[Qplus Qminus Qdiv Qmult];
      do 3 (split; [reflexivity|]);
      (split; [intros _; repeat split|intro L; lra]).
  - apply ltb_ge in G.
    eexists. split; [reflexivity|].
    cbn -[Qplus Qminus Qdiv Qmult]. do 3 (split; [reflexivity|]).
    split; [intro L; lra|intros _; repeat split].
Qed.

Lemma push_capped_length (ids : list Z) (id : Z) :
  (length ids <= 20)%nat -> (length (push_capped ids id) <= 20)%nat.
Proof.
  intro L. unfold push_capped.
  destruct (20 <? length (ids ++ [id]))%nat eqn:E.
  - rewrite length_tl, length_app. cbn. lia.
  - apply Nat.ltb_ge in E. exact E.
Qed.

(** *** What each action leaves *)

Lemma start_open (d : bool) (w : World) (c : AudioContext) :
  isPlaying (metro w) = false ->
  audioContext (metro w) = Some c ->
  state c <> closed ->
  exists w',
    start d w = Return tt w' /\
    isPlaying (metro w') = true /\
    currentBeat (metro w') = 0%Z /\
    nextTickTime (metro w')
    = (if d then currentTime c + 60 / tempo (metro w) else currentTime c) /\
    timerID (metro w') = Some (fresh (host w)) /\
    beatStartTime (metro w') = performance_now (host w) / 1000 /\
    tempo (metro w') = tempo (metro w) /\
    timeSignature (metro w') = timeSignature (metro w) /\
    audioContext (metro w') = audioContext (metro w) /\
    scheduleAheadTime (metro w') = scheduleAheadTime (metro w) /\
    scheduledTicks (metro w') = scheduledTicks (metro w) /\
    intervals (host w') = intervals (host w) ++ [fresh (host w)] /\
    fresh (host w') = (fresh (host w) + 1)%Z /\
    timeouts (host w') = timeouts (host w) /\
    performance_now (host w') = performance_now (host w) /\
    calls (host w') = calls (host w) /\
    events (host w')
    = events (host w)
        ++ (if d then [BeatScheduled 1 true (currentTime c + 60 / tempo (metro w))]
            else []).
Proof.
  destruct w as [m h]. cbn [metro host]. intros P C S.
  unfold start, bind, this, context_closed, audio_currentTime, assign,
    onBeatScheduled, onHost, performance_now_ms, setInterval, ret.
  cbn -[Qplus Qdiv]. rewrite P, C.
  destruct c as [s t]. cbn [state currentTime] in *.
  assert (match s with closed => true | _ => false end = false) as ->
      by (destruct s; congruence).
  cbn -[Qplus Qdiv]. rewrite ?C.
  destruct d; cbn -[Qplus Qdiv]; rewrite ?C; (eexists; split; [reflexivity|]);
    cbn -[Qplus Qdiv]; rewrite ?app_nil_r; repeat split; exact C.
Qed.

Lemma fire_timeout_spec (id : Z) (w : World) :
  exists w',
    fire_timeout id w = Return tt w' /\
    metro w' = metro w /\
    performance_now (host w') = performance_now (host w) /\
    fresh (host w') = fresh (host w) /\
    intervals (host w') = intervals (host w) /\
    calls (host w') = calls (host w) /\
    ((timeouts (host w') = timeouts (host w) /\ events (host w') = events (host w)) \/
     (exists t,
         find (fun t => (handle t =? id)%Z) (timeouts (host w)) = Some t /\
         due t <= performance_now (host w) /\
         timeouts (host w')
         = filter (fun t => negb (handle t =? id)%Z) (timeouts (host w)) /\
         events (host w')
         = events (host w)
             ++ [Tick (tick_beat t + 1) (tick_beat t =? 0)%Z (tick_time t)])).
Proof.
  destruct w as [m h]. unfold fire_timeout. cbn [host metro].
  destruct (find _ (timeouts h)) as [t|] eqn:F.
  - destruct (Qle_bool (due t) (performance_now h)) eqn:D.
    + eexists. split; [reflexivity|]. cbn. do 5 (split; [reflexivity|]).
      right. exists t. apply Qle_bool_iff in D. repeat split; assumption.
    + eexists. split; [reflexivity|]. do 5 (split; [reflexivity|]).
      left. split; reflexivity.
  - eexists. split; [reflexivity|]. do 5 (split; [reflexivity|]).
    left. split; reflexivity.
Qed.

Lemma scheduler_throws_nothing_new (fuel : nat) (w w' : World) (e : Error) :
  _scheduler fuel w = Throw e w' -> w' = w.
Proof.
  destruct (audioContext (metro w)) as [c|] eqn:C.
  - destruct (scheduler_loop fuel w c C)
      as (n & w2 & _ & _ & _ & _ & _ & _ & _ & _ & [[R _]|[H _]]);
      intro T; congruence.
  - rewrite (scheduler_no_context fuel w C). intro T. now injection T.
Qed.

(** An induction over the life of a metronome. *)
Lemma reachable_invariant (P : World -> Prop) :
  (forall options, P (new options)) ->
  (forall a w, reachable w -> P w -> P (world_of (perform a w))) ->
  forall w, reachable w -> P w.
Proof.
  intros Init Step w R.
  induction R as [options|a w w' R IH _ E|a e w w' R IH _ E].
  - apply Init.
  - specialize (Step a w R IH). now rewrite E in Step.
  - specialize (Step a w R IH). now rewrite E in Step.
Qed.

Lemma reach_step (a : Action) (w : World) :
  reachable w -> representable a = true ->
  (forall x, perform a w <> Hang x) ->
  reachable (world_of (perform a w)).
Proof.
  intros R Rep H. destruct (perform a w) as [[] w'|e w'|w'] eqn:E; cbn [world_of].
  - exact (reach_return a w w' R Rep E).
  - exact (reach_throw a e w w' R Rep E).
  - exfalso. exact (H w' eq_refl).
Qed.

Lemma running_world_reachable : reachable running_world.
Proof.
  apply (reach_step (Start true) stopped_world);
    [apply reach_new|reflexivity|intro x; vm_compute; discriminate].
Qed.

Lemma scenario_world_reachable : reachable scenario_world.
Proof.
  apply (reach_step (Wait 0.425) running_world);
    [apply running_world_reachable|reflexivity|intro x; vm_compute; discriminate].
Qed.

Lemma fast_world_reachable : reachable fast_world.
Proof.
  assert (fast_world
          = world_of
              (perform (Poll 40 1)
                 (world_of
                    (perform (Wait 0.025)
                       (world_of
                          (perform (Start false)
                             (new (mkOptions (Some 15000) (Some 4%Z)
                                     (Some (mkAudioContext running 0)))))))))) as ->
      by (vm_compute; reflexivity).
  do 3 (apply reach_step; [|reflexivity|intro x; vm_compute; discriminate]).
  apply reach_new.
Qed.

Lemma getHitAccuracy_world (hitTime : Q) (w : World) :
  world_of (perform (GetHitAccuracy hitTime) w) = w.
Proof.
  destruct (getHitAccuracy_returns hitTime w) as [v R].
  cbn [perform]. unfold bind. now rewrite R.
Qed.

(** The cases of [start], by the state it is called in. *)
Lemma start_cases (d : bool) (w : World) :
  world_of (start d w) = w \/
  (isPlaying (metro w) = false /\ audioContext (metro w) = None /\
   world_of (start d w)
   = mkWorld (with_currentBeat 0 (with_isPlaying true (metro w))) (host w)) \/
  (exists c w',
      isPlaying (metro w) = false /\ audioContext (metro w) = Some c /\
      state c <> closed /\ start d w = Return tt w' /\ world_of (start d w) = w').
Proof.
  destruct (isPlaying (metro w)) eqn:P.
  - left. now rewrite (start_running d w P).
  - destruct (audioContext (metro w)) as [c|] eqn:C.
    + destruct (state c) eqn:S.
      1,2: right; right;
        (assert (state c <> closed) as N by congruence);
        destruct (start_open d w c P C N) as (w' & R & _);
        exists c, w'; rewrite R; repeat split; assumption.
      left. rewrite (start_closed d w P); [reflexivity|].
      unfold context_closed. now rewrite C, S.
    + right. left. rewrite (start_no_context d w P C). repeat split.
Qed.

(** X1. However a metronome is driven, it never keeps more than 20
    tick handles. *)
Theorem scheduledTicks_capped (w : World) :
  reachable w -> (length (scheduledTicks (metro w)) <= 20)%nat.
Proof.
  revert w.
  apply (reachable_invariant
           (fun w => (length (scheduledTicks (metro w)) <= 20)%nat));
    [intro options; cbn; lia|].
  intros a w0 _ H. destruct a as [d| |bpm|beats|hitTime|fuel id|id|dt|s].
  - cbn [perform].
    destruct (start_cases d w0) as [E|[(_ & _ & E)|(c & w' & P & C & N & R & E)]];
      rewrite E; [exact H|exact H|].
    destruct (start_open d w0 c P C N) as (w2 & R2 & K).
    assert (w2 = w') as <- by congruence.
    decompose [and] K. congruence.
  - cbn [perform]. destruct (isPlaying (metro w0)) eqn:P.
    + rewrite (stop_running w0 P). cbn. lia.
    + now rewrite (stop_stopped w0 P).
  - exact H.
  - exact H.
  - now rewrite getHitAccuracy_world.
  - cbn [perform]. unfold fire_interval. destruct (existsb _ _); [|exact H].
    apply scheduler_preserves; [|exact H].
    intros w1 c w2 C L B.
    destruct (scheduler_body_timers w1 c C) as (w3 & B3 & _ & _ & _ & F & G).
    assert (w3 = w2) as -> by congruence.
    destruct (Qlt_le_dec (currentTime c) (nextTickTime (metro w1))) as [D|D].
    + destruct (F D) as (_ & _ & ->). now apply push_capped_length.
    + destruct (G D) as (_ & _ & ->). exact L.
  - cbn [perform]. destruct (fire_timeout_spec id w0) as (w' & R & M & _).
    rewrite R. cbn [world_of]. now rewrite M.
  - cbn. destruct (audioContext (metro w0)) as [[[| |] t]|]; exact H.
  - cbn. destruct (audioContext (metro w0)); exact H.
Qed.

Lemma polling_inv (w : World) :
  reachable w -> polling_consistent w.
Proof.
  revert w.
  apply (reachable_invariant polling_consistent);
    [intro options; split; [reflexivity|split; reflexivity]|].
  intros a w0 _ [H1 H2]. destruct a as [d| |bpm|beats|hitTime|fuel id|id|dt|s].
  - cbn [perform].
    destruct (start_cases d w0) as [E|[(P & C & E)|(c & w' & P & C & N & R & E)]];
      rewrite E; [split; assumption| |].
    + destruct (H2 P) as [T S]. split; [cbn; rewrite <- H1; reflexivity|].
      cbn. discriminate.
    + destruct (start_open d w0 c P C N) as (w2 & R2 & K).
      assert (w2 = w') as <- by congruence.
      destruct K as (K1 & _ & _ & K4 & _ & _ & _ & _ & _ & _ & K11 & _).
      destruct (H2 P) as [T S]. rewrite T in H1.
      split; [rewrite K4, K11, H1; reflexivity|]. rewrite K1. discriminate.
  - cbn [perform]. destruct (Sumbool.sumbool_of_bool (isPlaying (metro w0))) as [P|P].
    + rewrite (stop_running w0 P). cbn [world_of]. split.
      * cbn [metro host timerID with_scheduledTicks with_timerID].
        assert (forall ids h, intervals (cancel ids h) = intervals h) as I.
        { induction ids as [|i ids IH]; intro h; [reflexivity|].
          unfold cancel. cbn [fold_left]. fold (cancel ids). rewrite IH.
          destruct (i =? 0)%Z; reflexivity. }
        rewrite I. unfold clear. destruct (timerID (metro w0)) as [i|].
        -- cbn. rewrite H1. cbn. now rewrite Z.eqb_refl.
        -- now rewrite H1.
      * intros _. split; reflexivity.
    + rewrite (stop_stopped w0 P). split; assumption.
  - split; [exact H1|exact H2].
  - split; [exact H1|exact H2].
  - rewrite getHitAccuracy_world. split; assumption.
  - cbn [perform]. unfold fire_interval.
    destruct (existsb _ _) eqn:X; [|split; assumption].
    destruct (Sumbool.sumbool_of_bool (isPlaying (metro w0))) as [P|P].
    2:{ destruct (H2 P) as [T _]. rewrite T in H1. rewrite H1 in X.
        discriminate. }
    assert (timerID (metro (world_of (_scheduler fuel w0))) = timerID (metro w0) /\
            intervals (host (world_of (_scheduler fuel w0))) = intervals (host w0) /\
            isPlaying (metro (world_of (_scheduler fuel w0))) = true) as (T & I & Q).
    { apply (scheduler_preserves
               (fun w => timerID (metro w) = timerID (metro w0) /\
                         intervals (host w) = intervals (host w0) /\
                         isPlaying (metro w) = true)); [|repeat split; exact P].
      intros w1 c w2 C (T & I & Q) B.
      destruct (scheduler_body_timers w1 c C) as (w3 & B3 & _ & I3 & T3 & _).
      destruct (scheduler_body_spec w1 c C) as (w4 & B4 & S4 & _).
      assert (w3 = w2) as -> by congruence.
      assert (w4 = w2) as -> by congruence.
      destruct S4 as (_ & _ & _ & _ & S5 & _).
      repeat split; congruence. }
    split; [now rewrite T, I|]. rewrite Q. discriminate.
  - cbn [perform]. destruct (fire_timeout_spec id w0) as (w' & R & M & _ & _ & I & _).
    rewrite R. cbn [world_of]. split; [now rewrite M, I|now rewrite M].
  - cbn. destruct (audioContext (metro w0)) as [[[| |] t]|]; split; assumption.
  - cbn. destruct (audioContext (metro w0)); split; assumption.
Qed.

(** X2. However a metronome is driven, at most one polling
    interval is armed, the one [timerID] names, and a stopped metronome has
    none armed and no tick handle kept. *)
Theorem polling_follows_timerID (w : World) :
  reachable w -> polling_consistent w.
Proof. exact (polling_inv w). Qed.

Lemma scheduledTicks_capped_witness :
  (length (scheduledTicks (metro fast_world)) <= 20)%nat.
Proof.
  apply (scheduledTicks_capped fast_world). exact fast_world_reachable.
Defined.

Lemma polling_follows_timerID_witness :
  intervals (host running_world) = [1%Z] /\
  timerID (metro running_world) = Some 1%Z.
Proof.
  destruct (polling_follows_timerID running_world running_world_reachable)
    as [I _].
  split; [exact I|reflexivity].
Defined.

End SchedulerFacts.

Module LifeFacts.
Import Metronome Sched Timers Life MetronomeFacts SchedulerFacts.

Lemma cancel_cons (i : Z) (ids : list Z) (h : Host) :
  cancel (i :: ids) h
  = cancel ids
      (if (i =? 0)%Z then h
       else with_timeouts
              (filter (fun t => negb (handle t =? i)%Z) (timeouts h)) h).
Proof. reflexivity. Qed.

Lemma cancel_frame (ids : list Z) :
  forall h : Host,
    fresh (cancel ids h) = fresh h /\
    intervals (cancel ids h) = intervals h /\
    events (cancel ids h) = events h /\
    calls (cancel ids h) = calls h /\
    performance_now (cancel ids h) = performance_now h.
Proof.
  induction ids as [|i ids IH]; intro h; [repeat split|].
  rewrite cancel_cons.
  destruct (IH (if (i =? 0)%Z then h
                else with_timeouts
                       (filter (fun t => negb (handle t =? i)%Z) (timeouts h)) h))
    as (A & B & C & D & E).
  rewrite A, B, C, D, E. destruct (i =? 0)%Z; repeat split.
Qed.

(** A stopped metronome is at beat 0. *)
Lemma stopped_at_beat_zero (w : World) :
  reachable w -> isPlaying (metro w) = false -> currentBeat (metro w) = 0%Z.
Proof.
  revert w.
  apply (reachable_invariant
           (fun w => isPlaying (metro w) = false -> currentBeat (metro w) = 0%Z));
    [intros options _; reflexivity|].
  intros a w0 R H. destruct a as [d| |bpm|beats|hitTime|fuel id|id|dt|s].
  - cbn [perform].
    destruct (start_cases d w0) as [E|[(_ & _ & E)|(c & w' & P & C & N & S & E)]];
      rewrite E; [exact H|cbn; discriminate|].
    destruct (start_open d w0 c P C N) as (w2 & R2 & K1 & _).
    assert (w2 = w') as <- by congruence. rewrite K1. discriminate.
  - cbn [perform].
    destruct (Sumbool.sumbool_of_bool (isPlaying (metro w0))) as [P|P].
    + rewrite (stop_running w0 P). reflexivity.
    + now rewrite (stop_stopped w0 P).
  - exact H.
  - intros _. reflexivity.
  - now rewrite getHitAccuracy_world.
  - cbn [perform]. unfold fire_interval.
    destruct (existsb _ _) eqn:X; [|exact H].
    destruct (polling_inv w0 R) as [I S].
    destruct (Sumbool.sumbool_of_bool (isPlaying (metro w0))) as [P|P].
    + intro Q. exfalso.
      assert (isPlaying (metro (world_of (_scheduler fuel w0))) = true) as T;
        [|congruence].
      apply (scheduler_preserves (fun w => isPlaying (metro w) = true));
        [|exact P].
      intros w1 c w2 C Q1 B.
      destruct (scheduler_body_spec w1 c C) as (w4 & B4 & S4 & _).
      assert (w4 = w2) as -> by congruence.
      destruct S4 as (_ & _ & _ & _ & S5 & _). congruence.
    + destruct (S P) as [T _]. rewrite T in I. rewrite I in X. discriminate.
  - cbn [perform]. destruct (fire_timeout_spec id w0) as (w' & F & M & _).
    rewrite F. cbn [world_of]. now rewrite M.
  - cbn. destruct (audioContext (metro w0)) as [[[| |] t]|]; exact H.
  - cbn. destruct (audioContext (metro w0)); exact H.
Qed.

Lemma stopped_idle (w : World) (fuel : nat) (id : Z) :
  reachable w -> isPlaying (metro w) = false ->
  fire_interval fuel id w = Return tt w.
Proof.
  intros R P. destruct (polling_inv w R) as [I S].
  destruct (S P) as [T _]. rewrite T in I.
  unfold fire_interval. now rewrite I.
Qed.

Lemma stop_clean (w : World) :
  reachable w ->
  exists w',
    stop w = Return tt w' /\
    isPlaying (metro w') = false /\
    currentBeat (metro w') = 0%Z /\
    timerID (metro w') = None /\
    scheduledTicks (metro w') = [] /\
    intervals (host w') = [] /\
    tempo (metro w') = tempo (metro w) /\
    timeSignature (metro w') = timeSignature (metro w) /\
    events (host w') = events (host w) /\
    forall fuel id, fire_interval fuel id w' = Return tt w'.
Proof.
  intro R.
  assert (exists w', stop w = Return tt w') as [w' S].
  { destruct (Sumbool.sumbool_of_bool (isPlaying (metro w))) as [P|P].
    - eexists. apply (stop_running w P).
    - eexists. apply (stop_stopped w P). }
  assert (reachable w') as R' by exact (reach_return Stop w w' R eq_refl S).
  exists w'. split; [exact S|].
  assert (isPlaying (metro w') = false) as P'.
  { destruct (Sumbool.sumbool_of_bool (isPlaying (metro w))) as [P|P].
    - rewrite (stop_running w P) in S. injection S as <-. reflexivity.
    - rewrite (stop_stopped w P) in S. injection S as <-. exact P. }
  destruct (polling_inv w' R') as [I Q].
  destruct (Q P') as [T K]. rewrite T in I.
  split; [exact P'|]. split; [exact (stopped_at_beat_zero w' R' P')|].
  split; [exact T|]. split; [exact K|]. split; [exact I|].
  destruct (Sumbool.sumbool_of_bool (isPlaying (metro w))) as [P|P].
  - rewrite (stop_running w P) in S. injection S as <-.
    cbn [metro host]. destruct (cancel_frame (scheduledTicks (metro w))
                                  (clear (timerID (metro w)) (host w)))
      as (_ & _ & E & _).
    split; [reflexivity|]. split; [reflexivity|].
    split; [rewrite E; destruct (timerID (metro w)); reflexivity|].
    intros fuel id. apply stopped_idle; assumption.
  - rewrite (stop_stopped w P) in S. injection S as <-.
    do 3 (split; [reflexivity|]).
    intros fuel id. apply stopped_idle; assumption.
Qed.

(** X3. [stop] always returns, whatever happened before, and leaves a clean
    stopped state: not playing, beat 0, no polling interval, no tick handle
    kept; no scheduling pass can run afterwards. *)
Theorem stop_always_clean (w : World) :
  reachable w ->
  exists w',
    stop w = Return tt w' /\
    isPlaying (metro w') = false /\
    currentBeat (metro w') = 0%Z /\
    timerID (metro w') = None /\
    scheduledTicks (metro w') = [] /\
    intervals (host w') = [] /\
    tempo (metro w') = tempo (metro w) /\
    timeSignature (metro w') = timeSignature (metro w) /\
    events (host w') = events (host w) /\
    forall fuel id, fire_interval fuel id w' = Return tt w'.
Proof. exact (stop_clean w). Qed.

Lemma start_open_world (d : bool) (w : World) (c : AudioContext) :
  isPlaying (metro w) = false ->
  audioContext (metro w) = Some c ->
  state c <> closed ->
  start d w =
  Return tt
    (mkWorld
       (with_timerID (Some (fresh (host w)))
          (with_beatStartTime (performance_now (host w) / 1000)
             (with_nextTickTime
                (if d then currentTime c + 60 / tempo (metro w) else currentTime c)
                (with_currentBeat 0 (with_isPlaying true (metro w))))))
       (with_fresh (fresh (host w) + 1)
          (with_intervals (intervals (host w) ++ [fresh (host w)])
             (with_events
                (events (host w)
                   ++ (if d
                       then [BeatScheduled 1 true (currentTime c + 60 / tempo (metro w))]
                       else []))
                (host w))))).
Proof.
  destruct w as [m h]. cbn [metro host]. intros P C S.
  unfold start, bind, this, context_closed, audio_currentTime, assign,
    onBeatScheduled, onHost, performance_now_ms, setInterval, ret.
  cbn -[Qplus Qdiv]. rewrite P, C.
  destruct c as [s t]. cbn [state currentTime] in *.
  assert (match s with closed => true | _ => false end = false) as ->
      by (destruct s; congruence).
  cbn -[Qplus Qdiv]. rewrite ?C.
  destruct d; cbn -[Qplus Qdiv]; rewrite ?C; [reflexivity|].
  rewrite app_nil_r. destruct h. reflexivity.
Qed.

(** X4. A [start] undone at once by [stop]: from a stopped metronome with a
    usable context the pair returns, the metronome is stopped again with
    only [nextTickTime] and [beatStartTime] rewritten, no interval and no
    new timeout is left armed, and of the callbacks only the announcement
    of the delayed first beat has been made. *)
Theorem start_then_stop (d : bool) (w : World) (c : AudioContext) :
  reachable w ->
  isPlaying (metro w) = false ->
  audioContext (metro w) = Some c ->
  state c <> closed ->
  exists w',
    (start d ;; stop) w = Return tt w' /\
    metro w'
    = with_beatStartTime (performance_now (host w) / 1000)
        (with_nextTickTime
           (if d then currentTime c + 60 / tempo (metro w) else currentTime c)
           (metro w)) /\
    intervals (host w') = [] /\
    timeouts (host w') = timeouts (host w) /\
    calls (host w') = calls (host w) /\
    events (host w')
    = events (host w)
        ++ (if d then [BeatScheduled 1 true (currentTime c + 60 / tempo (metro w))]
            else []).
Proof.
  intros R P C S.
  destruct (polling_inv w R) as [I Q].
  destruct (Q P) as [T K]. rewrite T in I.
  pose proof (stopped_at_beat_zero w R P) as B.
  unfold bind. rewrite (start_open_world d w c P C S).
  rewrite stop_running by reflexivity.
  eexists. split; [reflexivity|].
  cbn [metro host scheduledTicks timerID with_timerID with_beatStartTime
         with_nextTickTime with_currentBeat with_isPlaying].
  rewrite K. unfold cancel. cbn [fold_left].
  split.
  - destruct w as [[] h]. cbn in *. subst. reflexivity.
  - cbn -[Qplus Qdiv]. rewrite I. cbn -[Qplus Qdiv]. rewrite Z.eqb_refl.
    repeat split.
Qed.

(** *** Filtered lists *)

Lemma filter_keys_NoDup {E K : Type} (key : E -> K) (keep : E -> bool) :
  forall entries : list E,
    NoDup (map key entries) -> NoDup (map key (filter keep entries)).
Proof.
  intro entries. induction entries as [|e rest IH]; intro N; [exact N|].
  cbn [map] in N. apply NoDup_cons_iff in N. destruct N as [N1 N2].
  cbn [filter]. destruct (keep e); [|exact (IH N2)].
  cbn [map]. apply NoDup_cons; [|exact (IH N2)].
  intro I. apply N1. apply in_map_iff in I. destruct I as (x & Ex & I).
  apply filter_In in I. apply in_map_iff. exists x. tauto.
Qed.

Lemma Forall_filter {A : Type} (P : A -> Prop) (p : A -> bool) (l : list A) :
  Forall P l -> Forall P (filter p l).
Proof.
  intro F. apply Forall_forall. intros x I. apply filter_In in I.
  rewrite Forall_forall in F. apply F. tauto.
Qed.

Lemma stop_always_clean_witness :
  exists w',
    stop fast_world = Return tt w' /\
    isPlaying (metro w') = false /\
    scheduledTicks (metro w') = [] /\
    intervals (host w') = [].
Proof.
  destruct (stop_always_clean fast_world fast_world_reachable)
    as (w' & S & P & _ & _ & T & I & _).
  exists w'. repeat split; assumption.
Defined.

Lemma start_then_stop_witness :
  exists w',
    (start true ;; stop) stopped_world = Return tt w' /\
    intervals (host w') = [] /\
    events (host w') = [BeatScheduled 1 true (0 + 60 / 120)].
Proof.
  destruct (start_then_stop true stopped_world (mkAudioContext running 0))
    as (w' & R & _ & I & _ & _ & E).
  - apply reach_new.
  - reflexivity.
  - reflexivity.
  - discriminate.
  - exists w'. split; [exact R|]. split; [exact I|exact E].
Defined.

End LifeFacts.

Module TickFacts.
Import Metronome Sched Timers Life Trace MetronomeFacts SchedulerFacts LifeFacts.

(** *** The trace of callbacks *)

Lemma ticks_announced_other (es : list Event) (n : Z) (d : bool) (t : Q) :
  ticks_announced es -> ticks_announced (es ++ [BeatScheduled n d t]).
Proof.
  intros H pre post n' d' t' E.
  destruct post as [|y post] using rev_ind.
  - apply app_inj_tail in E. destruct E as [_ E]. discriminate.
  - clear IHpost. rewrite app_comm_cons, app_assoc in E.
    apply app_inj_tail in E. destruct E as [E _]. exact (H _ _ _ _ _ E).
Qed.

Lemma ticks_announced_tick (es : list Event) (n : Z) (d : bool) (t : Q) :
  ticks_announced es -> In (BeatScheduled n d t) es ->
  ticks_announced (es ++ [Tick n d t]).
Proof.
  intros H I pre post n' d' t' E.
  destruct post as [|y post] using rev_ind.
  - apply app_inj_tail in E. destruct E as [E1 E2]. subst pre.
    inversion E2. subst. exact I.
  - clear IHpost. rewrite app_comm_cons, app_assoc in E.
    apply app_inj_tail in E. destruct E as [E _]. exact (H _ _ _ _ _ E).
Qed.

Lemma scheduler_body_trace (w : World) (c : AudioContext) :
  audioContext (metro w) = Some c ->
  exists w',
    scheduler_body w = Return tt w' /\
    ((timeouts (host w') = timeouts (host w) /\ events (host w') = events (host w)) \/
     (exists id due,
         timeouts (host w')
         = timeouts (host w)
             ++ [mkTimeout id due (nextTickTime (metro w)) (currentBeat (metro w))] /\
         events (host w')
         = events (host w)
             ++ [BeatScheduled (currentBeat (metro w) + 1)
                   (currentBeat (metro w) =? 0)%Z (nextTickTime (metro w))])).
Proof.
  intro C.
  destruct (scheduler_body_spec w c C) as (w1 & B & _ & _ & _ & _ & E).
  destruct (scheduler_body_timers w c C) as (w2 & B2 & _ & _ & _ & A & G).
  assert (w2 = w1) as -> by congruence.
  exists w1. split; [exact B|].
  unfold notification in E. cbn [targetTime beatIndex] in E.
  destruct (JsNum.gtb (nextTickTime (metro w) - currentTime c) 0) eqn:L.
  - apply ltb_lt in L. right. destruct A as (A & _); [lra|].
    eexists. eexists. split; [exact A|exact E].
  - apply ltb_ge in L. left. destruct G as (G & _); [lra|].
    split; [exact G|]. now rewrite E, app_nil_r.
Qed.

(** X6. However a metronome is driven, [onTick] is only ever called for a
    Beat that [onBeatScheduled] announced before with the same beat number,
    downbeat flag and target time, and in every call of either callback the
    downbeat flag is set exactly when the beat number is 1. *)
Theorem ticks_follow_announcements (w : World) :
  reachable w ->
  ticks_announced (events (host w)) /\
  Forall downbeat_is_one (events (host w)).
Proof.
  intro R.
  enough (ticks_announced (events (host w)) /\
          Forall downbeat_is_one (events (host w)) /\ armed_announced w) by tauto.
  revert w R.
  apply (reachable_invariant
           (fun w => ticks_announced (events (host w)) /\
                     Forall downbeat_is_one (events (host w)) /\
                     armed_announced w)).
  { intro options. split; [|split; [constructor|intros t []]].
    intros pre post n d t E. destruct pre; discriminate. }
  intros a w0 R (A & D & T).
  destruct a as [d| |bpm|beats|hitTime|fuel id|id|dt|s].
  - cbn [perform].
    destruct (start_cases d w0) as [E|[(_ & _ & E)|(c & w' & P & C & Nc & St & E)]];
      rewrite E; [tauto|tauto|].
    destruct (start_open d w0 c P C Nc) as (w2 & R2 & K).
    assert (w2 = w') as <- by congruence.
    destruct K as (_ & _ & _ & _ & _ & _ & _ & _ & _ & _ & _ & _ & K13 & _ & _ & K16).
    unfold armed_announced. rewrite K13, K16.
    destruct d.
    + split; [now apply ticks_announced_other|].
      split; [apply Forall_app; split; [exact D|repeat constructor]|].
      intros t I. apply in_or_app. left. exact (T t I).
    + rewrite app_nil_r. tauto.
  - cbn [perform].
    destruct (Sumbool.sumbool_of_bool (isPlaying (metro w0))) as [P|P].
    + rewrite (stop_running w0 P). cbn [world_of]. unfold armed_announced.
      cbn [host]. rewrite cancel_timeouts.
      destruct (cancel_frame (scheduledTicks (metro w0))
                  (clear (timerID (metro w0)) (host w0))) as (_ & _ & E & _).
      rewrite E.
      assert (events (clear (timerID (metro w0)) (host w0)) = events (host w0)) as ->
          by (destruct (timerID (metro w0)); reflexivity).
      assert (timeouts (clear (timerID (metro w0)) (host w0)) = timeouts (host w0)) as ->
          by (destruct (timerID (metro w0)); reflexivity).
      split; [exact A|]. split; [exact D|].
      intros t I. apply filter_In in I. apply T. tauto.
    + rewrite (stop_stopped w0 P). tauto.
  - tauto.
  - tauto.
  - rewrite getHitAccuracy_world. tauto.
  - cbn [perform]. unfold fire_interval.
    destruct (existsb _ _); [|tauto].
    apply (scheduler_preserves
             (fun w => ticks_announced (events (host w)) /\
                       Forall downbeat_is_one (events (host w)) /\
                       armed_announced w)); [|tauto].
    intros w1 c w2 C (A1 & D1 & T1) B.
    destruct (scheduler_body_trace w1 c C)
      as (w3 & B3 & [[Et Ee]|(i & du & Et & Ee)]);
      (assert (w3 = w2) as -> by congruence); unfold armed_announced;
      rewrite Et, Ee; [tauto|].
    split; [now apply ticks_announced_other|]. split.
    + apply Forall_app. split; [exact D1|]. constructor; [|constructor].
      cbn. destruct (currentBeat (metro w1) =? 0)%Z eqn:Z0.
      * apply Z.eqb_eq in Z0. rewrite Z0. reflexivity.
      * apply Z.eqb_neq in Z0. symmetry. apply Z.eqb_neq. lia.
    + intros t I. apply in_app_or in I. apply in_or_app.
      destruct I as [I|[<-|[]]]; [left; exact (T1 t I)|right; left; reflexivity].
  - cbn [perform].
    destruct (fire_timeout_spec id w0)
      as (w' & Fi & _ & _ & _ & _ & _ & [[Ti Ei]|(t & Ft & _ & Ti & Ei)]);
      rewrite Fi; cbn [world_of]; unfold armed_announced; rewrite Ti, Ei; [tauto|].
    apply find_some in Ft. destruct Ft as [Ft _].
    split; [apply ticks_announced_tick; [exact A|exact (T t Ft)]|]. split.
    + apply Forall_app. split; [exact D|]. constructor; [|constructor].
      cbn. destruct (tick_beat t =? 0)%Z eqn:Z0.
      * apply Z.eqb_eq in Z0. rewrite Z0. reflexivity.
      * apply Z.eqb_neq in Z0. symmetry. apply Z.eqb_neq. lia.
    + intros u I. apply filter_In in I. apply in_or_app. left. apply T. tauto.
  - cbn. destruct (audioContext (metro w0)) as [[[| |] t]|]; tauto.
  - cbn. destruct (audioContext (metro w0)); tauto.
Qed.

Lemma ticking_world_reachable : reachable ticking_world.
Proof.
  assert (ticking_world
          = world_of
              (perform (Poll 5 1) (world_of (perform (Wait 0.025) scenario_world))))
    as -> by (vm_compute; reflexivity).
  do 2 (apply reach_step; [|reflexivity|intro x; vm_compute; discriminate]).
  apply scenario_world_reachable.
Qed.

Lemma ticked_world_reachable : reachable ticked_world.
Proof.
  assert (ticked_world
          = world_of
              (perform (Fire (handle first_armed))
                 (world_of (perform (Wait 0.05) ticking_world))))
    as -> by (vm_compute; reflexivity).
  do 2 (apply reach_step; [|reflexivity|intro x; vm_compute; discriminate]).
  apply ticking_world_reachable.
Qed.

Lemma ticks_follow_announcements_witness :
  ticks_announced (events (host ticked_world)) /\
  Forall downbeat_is_one (events (host ticked_world)).
Proof.
  apply (ticks_follow_announcements ticked_world). exact ticked_world_reachable.
Defined.

End TickFacts.

Module PassFacts.
Import Metronome Sched Timers Life Trace MetronomeFacts SchedulerFacts LifeFacts
  TickFacts.

(** *** How many Beats a pass announces *)

Lemma notifications_at_most_one (d ahead now : Q) (N : Z) (n : nat) :
  forall (t : Q) (b : Z),
    0 < d -> ahead <= d ->
    (forall i, (i < n)%nat -> time_after d t i < now + ahead) ->
    (length (flat_map (notification now) (beats_from d N t b n)) <= 1)%nat.
Proof.
  induction n as [|n IH]; intros t b D A G; [cbn; lia|].
  cbn [beats_from flat_map]. rewrite length_app.
  unfold notification at 1. cbn [targetTime].
  destruct (JsNum.gtb (t - now) 0) eqn:L.
  - apply ltb_lt in L. destruct n as [|n]; [cbn; lia|].
    exfalso. specialize (G 1%nat ltac:(lia)). cbn [time_after] in G. lra.
  - cbn [length Nat.add]. apply IH; [exact D|exact A|].
    intros i Hi. exact (G (S i) ltac:(lia)).
Qed.

(** A pass leaves the armed timeouts armed and arms one more for each Beat
    it announces. *)
Lemma pass_arms (fuel : nat) (w : World) :
  exists armed,
    timeouts (host (world_of (_scheduler fuel w))) = timeouts (host w) ++ armed /\
    (length armed + length (events (host w))
     = length (events (host (world_of (_scheduler fuel w)))))%nat.
Proof.
  apply (scheduler_preserves
           (fun x => exists armed,
                timeouts (host x) = timeouts (host w) ++ armed /\
                (length armed + length (events (host w))
                 = length (events (host x)))%nat)).
  - intros w1 c1 w2 C1 (ar & H1 & H2) B.
    destruct (scheduler_body_trace w1 c1 C1)
      as (w3 & B3 & [[Et Ee]|(i & du & Et & Ee)]);
      (assert (w3 = w2) as -> by congruence); rewrite Et, Ee.
    + exists ar. split; assumption.
    + eexists. rewrite H1, <- app_assoc. split; [reflexivity|].
      rewrite !length_app. cbn. lia.
  - exists []. rewrite app_nil_r. split; reflexivity.
Qed.

(** X7. When the schedule-ahead window is not longer than one beat (as with
    the window of 0.1 s and any tempo up to 600), a scheduling pass arms at
    most one tick and announces at most one Beat, however late it runs. *)
Theorem one_tick_per_pass (fuel : nat) (w : World) (c : AudioContext) :
  audioContext (metro w) = Some c ->
  0 < tempo (metro w) ->
  scheduleAheadTime (metro w) <= 60 / tempo (metro w) ->
  exists announced armed,
    events (host (world_of (_scheduler fuel w))) = events (host w) ++ announced /\
    timeouts (host (world_of (_scheduler fuel w))) = timeouts (host w) ++ armed /\
    (length announced <= 1)%nat /\ length armed = length announced.
Proof.
  intros C T A.
  destruct (scheduler_loop fuel w c C) as (n & w' & _ & W & _ & _ & _ & _ & E & G & _).
  rewrite <- W.
  destruct (pass_arms fuel w) as (armed & Ha & Hl). rewrite <- W in Ha, Hl.
  eexists. exists armed. split; [exact E|]. split; [exact Ha|].
  rewrite E, length_app in Hl.
  split; [|lia].
  apply (notifications_at_most_one _ (scheduleAheadTime (metro w)));
    [now apply seconds_per_beat_pos|exact A|exact G].
Qed.

(** *** Tempo *)

Lemma min_spec (a b : Q) :
  (a <= b /\ JsNum.min a b = a) \/ (b < a /\ JsNum.min a b = b).
Proof.
  unfold JsNum.min. destruct (Qle_bool a b) eqn:E.
  - left. apply Qle_bool_iff in E. split; [exact E|reflexivity].
  - right. split; [|reflexivity]. apply Qnot_le_lt. intro K.
    apply Qle_bool_iff in K. congruence.
Qed.

Lemma max_spec (a b : Q) :
  (a <= b /\ JsNum.max a b = b) \/ (b < a /\ JsNum.max a b = a).
Proof.
  unfold JsNum.max. destruct (Qle_bool a b) eqn:E.
  - left. apply Qle_bool_iff in E. split; [exact E|reflexivity].
  - right. split; [|reflexivity]. apply Qnot_le_lt. intro K.
    apply Qle_bool_iff in K. congruence.
Qed.

Lemma setTempo_bounds (bpm : Q) (w : World) :
  30 <= tempo (metro (world_of (setTempo bpm w))) <= 300.
Proof.
  cbn [setTempo assign world_of metro tempo with_tempo].
  destruct (min_spec 300 bpm) as [[A ->]|[A ->]];
    [destruct (max_spec 30 300) as [[B ->]|[B ->]]
    |destruct (max_spec 30 bpm) as [[B ->]|[B ->]]]; split; lra.
Qed.

(** X8. [setTempo] stores its argument clamped to [30, 300]: the argument
    itself when it lies in the range, the nearer bound otherwise; it changes
    no other field and no timer. *)
Theorem setTempo_clamps (bpm : Q) (w : World) :
  setTempo bpm w
  = Return tt (mkWorld (with_tempo (tempo (metro (world_of (setTempo bpm w)))) (metro w))
                 (host w)) /\
  30 <= tempo (metro (world_of (setTempo bpm w))) <= 300 /\
  (30 <= bpm <= 300 -> tempo (metro (world_of (setTempo bpm w))) == bpm) /\
  (bpm < 30 -> tempo (metro (world_of (setTempo bpm w))) = 30) /\
  (300 < bpm -> tempo (metro (world_of (setTempo bpm w))) = 300).
Proof.
  split; [reflexivity|]. cbn [setTempo assign world_of metro tempo with_tempo].
  destruct (min_spec 300 bpm) as [[A ->]|[A ->]];
    [destruct (max_spec 30 300) as [[B ->]|[B ->]]
    |destruct (max_spec 30 bpm) as [[B ->]|[B ->]]];
    repeat split; intros; try lra; try reflexivity.
Qed.

Lemma setTempo_clamps_witness :
  tempo (metro (world_of (setTempo 1000 stopped_world))) = 300 /\
  tempo (metro (world_of (setTempo 12 stopped_world))) = 30 /\
  tempo (metro (world_of (setTempo 90 stopped_world))) == 90.
Proof.
  split; [|split].
  - apply (proj2 (proj2 (proj2 (proj2 (setTempo_clamps 1000 stopped_world))))).
    reflexivity.
  - apply (proj1 (proj2 (proj2 (proj2 (setTempo_clamps 12 stopped_world))))).
    reflexivity.
  - apply (proj1 (proj2 (proj2 (setTempo_clamps 90 stopped_world)))).
    split; discriminate.
Defined.

(** X9. A tempo change is not retroactive: after [setTempo(bpm)] the next
    pass always returns, the ticks armed before stay armed as they were, the
    first Beat of the pass is at the [nextTickTime] fixed under the old
    tempo, and the following Beats are [60 / T] apart for the clamped new
    tempo [T]. *)
Theorem tempo_change_next_interval (bpm : Q) (w : World) (c : AudioContext) :
  audioContext (metro w) = Some c ->
  exists T n fuel0 w' armed,
    T = tempo (metro (world_of (setTempo bpm w))) /\ 30 <= T <= 300 /\
    (forall fuel, (fuel0 <= fuel)%nat ->
                  (setTempo bpm ;; _scheduler fuel) w = Return tt w') /\
    calls (host w')
    = calls (host w)
        ++ beats_from (60 / T) (timeSignature (metro w))
             (nextTickTime (metro w)) (currentBeat (metro w)) n /\
    timeouts (host w') = timeouts (host w) ++ armed /\
    tempo (metro w') = T.
Proof.
  intro C.
  set (w1 := world_of (setTempo bpm w)).
  destruct (setTempo_bounds bpm w) as [Lo Hi]. fold w1 in Lo, Hi.
  assert (audioContext (metro w1) = Some c) as C1 by exact C.
  assert (0 < tempo (metro w1)) as P by lra.
  destruct (scheduler_pass w1 c C1 P) as (n & fuel0 & w' & R & S & Cn & _).
  destruct (pass_arms fuel0 w1) as (armed & Ha & _).
  rewrite (R fuel0 (le_n _)) in Ha. cbn [world_of] in Ha.
  exists (tempo (metro w1)), n, fuel0, w', armed.
  split; [reflexivity|]. split; [split; assumption|].
  split; [intros fuel L; exact (R fuel L)|].
  split; [exact Cn|]. split; [exact Ha|]. destruct S as (S & _). exact S.
Qed.

Lemma tempo_change_next_interval_witness :
  exists T n fuel0 w' armed,
    T = tempo (metro (world_of (setTempo 60 scenario_world))) /\ 30 <= T <= 300 /\
    (forall fuel, (fuel0 <= fuel)%nat ->
                  (setTempo 60 ;; _scheduler fuel) scenario_world = Return tt w') /\
    calls (host w')
    = calls (host scenario_world)
        ++ beats_from (60 / T) (timeSignature (metro scenario_world))
             (nextTickTime (metro scenario_world))
             (currentBeat (metro scenario_world)) n /\
    timeouts (host w') = timeouts (host scenario_world) ++ armed /\
    tempo (metro w') = T.
Proof.
  exact (tempo_change_next_interval 60 scenario_world
           (mkAudioContext running (0 + 0.425)) eq_refl).
Defined.

(** *** The measure *)


Lemma beats_from_length (d : Q) (N : Z) (n : nat) :
  forall t b, length (beats_from d N t b n) = n.
Proof. induction n as [|n IH]; intros t b; [reflexivity|]. cbn. now rewrite IH. Qed.





Lemma one_tick_per_pass_witness :
  exists announced armed,
    events (host (world_of (_scheduler 5 scenario_world)))
    = events (host scenario_world) ++ announced /\
    timeouts (host (world_of (_scheduler 5 scenario_world)))
    = timeouts (host scenario_world) ++ armed /\
    (length announced <= 1)%nat /\ length armed = length announced.
Proof.
  apply (one_tick_per_pass 5 scenario_world (mkAudioContext running (0 + 0.425))).
  - reflexivity.
  - reflexivity.
  - vm_compute. discriminate.
Defined.

End PassFacts.

Module AccuracyFacts.
Import Metronome Sched MetronomeFacts.

(** *** The score of a hit *)

Lemma getHitAccuracy_running (hitTime : Q) (w : World) :
  isPlaying (metro w) = true ->
  getHitAccuracy hitTime w
  = Return
      (JsNum.max 0
         (1 - JsNum.abs
                ((hitTime - beatStartTime (metro w)) / (60 / tempo (metro w))
                 - JsNum.round
                     ((hitTime - beatStartTime (metro w)) / (60 / tempo (metro w))))
              * 2))
      w.
Proof.
  intro P. cbv beta iota delta [getHitAccuracy bind this ret]. now rewrite P.
Qed.

(** The score of a position [p], counted in beats, that lies within half a
    beat of the integer [n]. *)
Lemma score_near (n : Z) (p : Q) :
  inject_Z n - (1 # 2) <= p <= inject_Z n + (1 # 2) ->
  JsNum.max 0 (1 - JsNum.abs (p - JsNum.round p) * 2)
  == 1 - 2 * Qabs (p - inject_Z n).
Proof.
  intros [Lo Hi]. unfold JsNum.abs.
  destruct (Qlt_le_dec p (inject_Z n + (1 # 2))) as [L|L].
  - rewrite (round_at n p Lo L). rewrite max_r; [ring|].
    apply Qabs_case; intro; lra.
  - assert (p == inject_Z n + (1 # 2)) as E by lra.
    rewrite (round_at (n + 1) p)
      by (rewrite inject_Z_plus; change (inject_Z 1) with 1; lra).
    rewrite inject_Z_plus. change (inject_Z 1) with 1.
    rewrite max_r by (apply Qabs_case; intro; lra).
    assert (Qabs (p - (inject_Z n + 1)) == 1 # 2) as ->
        by (apply Qabs_case; intro; lra).
    assert (Qabs (p - inject_Z n) == 1 # 2) as ->
        by (apply Qabs_case; intro; lra).
    ring.
Qed.


(** X12. The score is a triangle around every beat: on a running metronome
    with a positive tempo, a hit [delta] seconds away from the k-th beat
    after [beatStartTime], early or late by at most half a beat, scores
    [1 - 2 |delta| / beatDuration]. Early and late hits score alike, and so
    do hits at the same distance from different beats. *)
Theorem accuracy_triangle (hitTime delta : Q) (k : Z) (w : World) :
  isPlaying (metro w) = true ->
  0 < tempo (metro w) ->
  hitTime - beatStartTime (metro w) == inject_Z k * (60 / tempo (metro w)) + delta ->
  Qabs delta <= (60 / tempo (metro w)) / 2 ->
  exists v,
    getHitAccuracy hitTime w = Return v w /\
    v == 1 - 2 * Qabs delta / (60 / tempo (metro w)).
Proof.
  intros P T E D.
  pose proof (seconds_per_beat_pos _ T) as B.
  eexists. split; [apply (getHitAccuracy_running hitTime w P)|].
  set (bd := 60 / tempo (metro w)) in *.
  set (p := (hitTime - beatStartTime (metro w)) / bd).
  assert (p == inject_Z k + delta / bd) as Hp
      by (unfold p; rewrite E; field; lra).
  assert (Qabs (delta / bd) == Qabs delta / bd) as Ha.
  { unfold Qdiv. rewrite Qabs_Qmult.
    rewrite (Qabs_pos (/ bd)); [reflexivity|].
    apply Qlt_le_weak, Qinv_lt_0_compat, B. }
  assert (Qabs delta / bd <= 1 # 2) as Hb.
  { apply Qle_shift_div_r; [exact B|].
    assert (bd / 2 == (1 # 2) * bd) as <- by (field). exact D. }
  rewrite (score_near k p).
  - assert (p - inject_Z k == delta / bd) as -> by lra.
    rewrite Ha. field. lra.
  - rewrite <- Ha in Hb. revert Hb. apply Qabs_case; intros; lra.
Qed.

Lemma accuracy_triangle_witness :
  exists v,
    getHitAccuracy (1.5 - 0.05) running_world = Return v running_world /\
    v == 1 - 2 * Qabs (- 0.05) / (60 / tempo (metro running_world)).
Proof.
  apply (accuracy_triangle (1.5 - 0.05) (- 0.05) 3 running_world).
  - reflexivity.
  - reflexivity.
  - reflexivity.
  - vm_compute. discriminate.
Defined.

End AccuracyFacts.
(** ** Further facts about MetronomeUI.js *)

Module FrameFacts.
Import MetronomeUI Vis Frames MetronomeUIFacts.

Lemma forEach_map {A : Type} (f : A -> option A) (g : A -> A) (l : list A) :
  (forall a, In a l -> f a = Some (g a)) -> forEach f l = Some (map g l).
Proof.
  induction l as [|a l IH]; intro H; [reflexivity|].
  cbn [forEach map]. rewrite (H a (or_introl eq_refl)).
  rewrite IH; [reflexivity|]. intros b I. apply H. now right.
Qed.

Lemma forEach_Forall {A : Type} (P : A -> Prop) (f : A -> option A) :
  (forall a a', f a = Some a' -> P a -> P a') ->
  forall l l', Forall P l -> forEach f l = Some l' -> Forall P l'.
Proof.
  intros H l. induction l as [|a l IH]; intros l' F E.
  - injection E as <-. constructor.
  - cbn [forEach] in E. destruct (f a) as [a'|] eqn:Ea; [|discriminate].
    destruct (forEach f l) as [r|] eqn:Er; [|discriminate].
    injection E as <-. inversion F; subst.
    constructor; [eapply H; eassumption|now apply IH].
Qed.

Lemma moveHitMarker_opacity (u : MetronomeUI) (m : HitMarker) :
  opacity m <= 1 -> opacity (moveHitMarker u m) <= 1.
Proof.
  intro O. unfold moveHitMarker. cbn [opacity].
  destruct (JsNum.ltb (opacity m - 0.01) 0); lra.
Qed.

(** What a page keeps through its life: the hit line at x = 80, a positive
    beat duration, beat markers that aim at a time after their creation and
    hit markers that are at most opaque. *)
Lemma page_invariant (u : MetronomeUI) :
  reachable u ->
  hitLineX u = 80 /\
  0 < secondsPerBeat u /\
  Forall (fun m => time m < targetTime m) (beatMarkers u) /\
  Forall (fun m => opacity m <= 1) (hitMarkers u).
Proof.
  induction 1 as [rect|rect u R IH|checked u u' R IH T|checked u R IH
                 |input u u' R IH T|tempo u u' R IH T|now n d u R IH
                 |a u R IH|now u u' R IH T];
    try destruct IH as (H & S & B & O).
  - cbn. repeat split; try constructor.
  - repeat split; assumption.
  - unfold toggle, resetVisualization, updateMarkerSpeed in T.
    cbn [canvas with_firstBeat with_hitMarkers with_beatMarkers with_enabled] in T.
    destruct checked.
    + destruct (canvas u); [|discriminate]. injection T as <-.
      cbn. repeat split; try assumption; constructor.
    + injection T as <-. cbn. repeat split; try assumption; constructor.
  - repeat split; assumption.
  - unfold handleTempoChange, updateMarkerSpeed in T.
    cbn [canvas with_secondsPerBeat with_currentTempo] in T.
    destruct (canvas u); [|discriminate]. injection T as <-.
    cbn [hitLineX secondsPerBeat beatMarkers hitMarkers with_markerSpeed
           with_secondsPerBeat with_currentTempo currentTempo].
    repeat split; try assumption.
    apply MetronomeFacts.seconds_per_beat_pos.
    change 0 with (inject_Z 0). rewrite <- Zlt_Qlt. lia.
  - unfold updateTempo, updateMarkerSpeed in T.
    destruct (canvas u); [|discriminate]. injection T as <-.
    repeat split; assumption.
  - unfold addBeatMarker. destruct (canvas u); [|repeat split; assumption].
    destruct (firstBeat u); cbn -[Qplus]; repeat split; try assumption;
      (apply Forall_app; split; [exact B|]); constructor; try constructor;
      cbn -[Qplus]; lra.
  - unfold registerNoteHit.
    destruct (negb (enabled u) || negb (showVisualization u));
      [repeat split; assumption|].
    cbn. repeat split; try assumption.
    apply Forall_app. split; [exact O|]. constructor; [|constructor].
    cbn. discriminate.
  - unfold renderRhythmVisualization in T.
    destruct (negb (ctx u) || negb (showVisualization u)).
    + injection T as <-. repeat split; assumption.
    + destruct (updateBeatMarkers now u) as [u1|] eqn:U; [|discriminate].
      injection T as <-. unfold updateBeatMarkers in U.
      destruct (forEach _ _) as [moved|] eqn:F; [|discriminate].
      injection U as <-. cbn [hitLineX secondsPerBeat beatMarkers hitMarkers
                               updateHitMarkers with_hitMarkers with_beatMarkers
                               markerSpeed].
      split; [exact H|]. split; [exact S|]. split.
      * apply LifeFacts.Forall_filter.
        refine (forEach_Forall _ _ _ _ _ B F).
        intros a a' E. unfold moveBeatMarker in E.
        destruct (firstBeat u); [|destruct (canvas u); [|discriminate]];
          injection E as <-; exact (fun K => K).
      * apply LifeFacts.Forall_filter. apply Forall_forall. intros m I.
        apply in_map_iff in I. destruct I as (m0 & <- & I).
        apply moveHitMarker_opacity. rewrite Forall_forall in O. now apply O.
Qed.

(** *** Beat markers on a frame *)

Lemma updateBeatMarkers_places (now : Q) (u : MetronomeUI) (c : Canvas) :
  reachable u -> canvas u = Some c ->
  updateBeatMarkers now u
  = Some (with_beatMarkers
            (filter (fun marker => JsNum.gtb (x marker) (-30))
               (map (placed c u now) (beatMarkers u)))
            u).
Proof.
  intros R C. unfold updateBeatMarkers.
  rewrite (forEach_map _ (placed c u now)); [reflexivity|].
  intros m I. exact (frame_interpolates_every_marker now u c m R C I).
Qed.

(** X13. A beat marker is on the hit line at its target time: the frame drawn
    at that very time keeps the marker and puts it at x = 80, whatever the
    width of the canvas. *)
Theorem marker_on_hit_line_at_target (u : MetronomeUI) (c : Canvas) (m : BeatMarker) :
  reachable u -> canvas u = Some c -> In m (beatMarkers u) ->
  exists u' m',
    updateBeatMarkers (targetTime m) u = Some u' /\
    In m' (beatMarkers u') /\
    x m' == 80 /\
    beatNumber m' = beatNumber m /\ isDownbeat m' = isDownbeat m /\
    time m' = time m /\ targetTime m' = targetTime m.
Proof.
  intros R C I.
  destruct (page_invariant u R) as (H & _).
  assert (x (placed c u (targetTime m) m) == 80) as X.
  { unfold placed, interpolated. cbn [x with_x]. rewrite H.
    assert (targetTime m - targetTime m == 0) as -> by ring.
    unfold Qdiv. ring. }
  exists (with_beatMarkers
            (filter (fun marker => JsNum.gtb (x marker) (-30))
               (map (placed c u (targetTime m)) (beatMarkers u)))
            u), (placed c u (targetTime m) m).
  split; [exact (updateBeatMarkers_places _ u c R C)|].
  split; [|split; [exact X|repeat split]].
  cbn [beatMarkers with_beatMarkers]. apply filter_In.
  split; [now apply in_map|]. apply gtb_lt. rewrite X. reflexivity.
Qed.

(** X14. A beat marker is never removed before its beat: on a canvas at least
    as wide as the hit line is far, a frame drawn between the creation of a
    marker and its target time keeps it, somewhere between the right edge
    and the hit line; the frame drawn at its creation time puts it on the
    right edge. *)
Theorem marker_kept_until_its_beat
  (now : Q) (u : MetronomeUI) (c : Canvas) (m : BeatMarker) :
  reachable u -> canvas u = Some c -> 80 <= width c ->
  In m (beatMarkers u) -> time m <= now <= targetTime m ->
  exists u' m',
    updateBeatMarkers now u = Some u' /\
    In m' (beatMarkers u') /\
    80 <= x m' <= width c /\
    (now == time m -> x m' == width c) /\
    beatNumber m' = beatNumber m /\ isDownbeat m' = isDownbeat m /\
    time m' = time m /\ targetTime m' = targetTime m.
Proof.
  intros R C W I [Lo Hi].
  destruct (page_invariant u R) as (H & _ & B & _).
  rewrite Forall_forall in B. specialize (B m I).
  set (q := (targetTime m - now) / (targetTime m - time m)).
  assert (0 <= q <= 1) as [Q0 Q1].
  { unfold q. split.
    - apply Qle_shift_div_l; lra.
    - apply Qle_shift_div_r; lra. }
  assert (x (placed c u now m) == width c - (1 - q) * (width c - 80)) as X
      by (unfold placed, interpolated; cbn [x with_x]; rewrite H; reflexivity).
  assert (80 <= x (placed c u now m) <= width c) as [X0 X1].
  { rewrite X. split; nra. }
  exists (with_beatMarkers
            (filter (fun marker => JsNum.gtb (x marker) (-30))
               (map (placed c u now) (beatMarkers u)))
            u), (placed c u now m).
  split; [exact (updateBeatMarkers_places _ u c R C)|].
  split; [|split; [split; assumption|split; [|repeat split]]].
  - cbn [beatMarkers with_beatMarkers]. apply filter_In.
    split; [now apply in_map|]. apply gtb_lt. lra.
  - intro E. rewrite X.
    assert (q == 1) as ->; [|ring].
    unfold q. rewrite E. field. lra.
Qed.

(** *** The first marker after the switch is turned on *)

Lemma addBeatMarkers_right_edge (beats : list (Q * Z * bool)) (c : Canvas) :
  forall u,
    canvas u = Some c -> firstBeat u = false ->
    map x (beatMarkers (addBeatMarkers beats u))
    = map x (beatMarkers u) ++ repeat (width c) (length beats).
Proof.
  induction beats as [|[[now n] d] beats IH]; intros u C F.
  - cbn. now rewrite app_nil_r.
  - unfold addBeatMarkers. cbn [fold_left fst snd]. fold (addBeatMarkers beats).
    rewrite IH.
    + unfold addBeatMarker. rewrite C, F.
      cbn [beatMarkers with_lastBeatTime with_beatMarkers].
      rewrite map_app, <- app_assoc. reflexivity.
    + unfold addBeatMarker. rewrite C, F. exact C.
    + unfold addBeatMarker. rewrite C, F. exact F.
Qed.

(** X15. Turning the switch on clears all markers and arms the anchor: of the
    beat markers added afterwards the first is created on the hit line and
    every later one on the right edge of the canvas. *)
Theorem anchor_then_right_edge
  (u u1 : MetronomeUI) (c : Canvas) (first : Q * Z * bool) (later : list (Q * Z * bool)) :
  canvas u = Some c ->
  toggle true u = Some u1 ->
  beatMarkers u1 = [] /\ hitMarkers u1 = [] /\ enabled u1 = true /\
  map x (beatMarkers (addBeatMarkers (first :: later) u1))
  = hitLineX u :: repeat (width c) (length later).
Proof.
  intros C T. unfold toggle, resetVisualization, updateMarkerSpeed in T.
  cbn [canvas with_firstBeat with_hitMarkers with_beatMarkers with_enabled] in T.
  rewrite C in T. injection T as <-.
  do 3 (split; [reflexivity|]).
  destruct first as [[now n] d].
  unfold addBeatMarkers. cbn [fold_left fst snd]. fold (addBeatMarkers later).
  rewrite (addBeatMarkers_right_edge later c).
  - unfold addBeatMarker. cbn. rewrite C. reflexivity.
  - unfold addBeatMarker. cbn. rewrite C. exact C.
  - unfold addBeatMarker. cbn. rewrite C. reflexivity.
Qed.

Lemma anchor_then_right_edge_witness :
  map x (beatMarkers
           (addBeatMarkers [(10, 1%Z, true); (10.4, 1%Z, true); (10.9, 2%Z, false)]
              switched_on))
  = [80; width (mkCanvas 400 120); width (mkCanvas 400 120)].
Proof.
  apply (anchor_then_right_edge (with_enabled true (constructor (mkCanvas 400 120)))
           switched_on (mkCanvas 400 120) (10, 1%Z, true)
           [(10.4, 1%Z, true); (10.9, 2%Z, false)]); reflexivity.
Defined.

(** *** Hit markers fade out *)

Lemma hitFrames_add (n k : nat) :
  forall u, hitFrames (n + k) u = hitFrames k (hitFrames n u).
Proof. induction n as [|n IH]; intro u; [reflexivity|]. cbn. apply IH. Qed.

Lemma hitFrames_empty (k : nat) :
  forall u, hitMarkers u = [] -> hitMarkers (hitFrames k u) = [].
Proof.
  induction k as [|k IH]; intros u E; [exact E|].
  cbn [hitFrames]. apply IH. unfold updateHitMarkers. cbn. now rewrite E.
Qed.

Lemma hitFrames_opacity (k : nat) :
  forall (u : MetronomeUI) (bound : Q),
    Forall (fun m => opacity m <= bound) (hitMarkers u) ->
    Forall (fun m => opacity m <= bound - inject_Z (Z.of_nat k) * 0.01)
      (hitMarkers (hitFrames k u)).
Proof.
  induction k as [|k IH]; intros u bound F.
  - cbn [hitFrames]. eapply Forall_impl; [|exact F].
    intros m H. cbn beta in *. change (inject_Z (Z.of_nat 0)) with 0. lra.
  - cbn [hitFrames].
    assert (Forall (fun m => opacity m <= bound - 0.01)
              (hitMarkers (updateHitMarkers u))) as G.
    { apply Forall_forall. intros m' I.
      unfold updateHitMarkers in I. cbn [hitMarkers with_hitMarkers] in I.
      apply filter_In in I. destruct I as [I K].
      apply in_map_iff in I. destruct I as (m & <- & I).
      apply moveHitMarker_kept in K. destruct K as [_ K].
      rewrite (moveHitMarker_visible u m K). cbn [opacity].
      rewrite Forall_forall in F. specialize (F m I). lra. }
    specialize (IH _ _ G). eapply Forall_impl; [|exact IH].
    intros m H. cbn beta in *. rewrite Nat2Z.inj_succ. unfold Z.succ.
    rewrite inject_Z_plus. change (inject_Z 1) with 1. lra.
Qed.

Lemma hitMarkers_visible (u : MetronomeUI) :
  Forall (fun m => 0 < opacity m) (hitMarkers (updateHitMarkers u)).
Proof.
  apply Forall_forall. intros m' I.
  unfold updateHitMarkers in I. cbn [hitMarkers with_hitMarkers] in I.
  apply filter_In in I. destruct I as [_ K].
  apply andb_true_iff in K. destruct K as [_ K]. now apply gtb_lt in K.
Qed.

Lemma hitFrames_last (k : nat) (u : MetronomeUI) :
  hitFrames (S k) u = updateHitMarkers (hitFrames k u).
Proof.
  replace (S k) with (k + 1)%nat by lia. now rewrite hitFrames_add.
Qed.

Lemma hit_markers_faded (k : nat) (u : MetronomeUI) :
  Forall (fun m => opacity m <= 1) (hitMarkers u) -> (99 <= k)%nat ->
  hitMarkers (hitFrames (S k) u) = [].
Proof.
  intros O L. rewrite hitFrames_last.
  pose proof (hitFrames_opacity k u 1 O) as F.
  set (v := hitFrames k u) in *.
  destruct (hitMarkers (updateHitMarkers v)) as [|m l] eqn:E; [reflexivity|].
  exfalso.
  assert (In m (hitMarkers (updateHitMarkers v))) as I by (rewrite E; now left).
  unfold updateHitMarkers in I. cbn [hitMarkers with_hitMarkers] in I.
  apply filter_In in I. destruct I as [I K].
  apply in_map_iff in I. destruct I as (m0 & <- & I).
  apply moveHitMarker_kept in K. destruct K as [_ K].
  rewrite Forall_forall in F. specialize (F m0 I). cbn beta in F.
  assert (99 <= inject_Z (Z.of_nat k)) as B
      by (change 99 with (inject_Z 99); rewrite <- Zle_Qle; lia).
  lra.
Qed.

(** X16. No hit marker outlives 101 frames: after that many hit-marker
    updates without a new hit, a page has no hit marker left. *)
Theorem hit_markers_fade_out (n : nat) (u : MetronomeUI) :
  reachable u -> (101 <= n)%nat -> hitMarkers (hitFrames n u) = [].
Proof.
  intros R L. destruct (page_invariant u R) as (_ & _ & _ & O).
  destruct n as [|k]; [lia|]. apply hit_markers_faded; [exact O|lia].
Qed.

Lemma switched_on_reachable : reachable switched_on.
Proof.
  apply (reach_toggle true (constructor (mkCanvas 400 120)));
    [apply reach_constructor|reflexivity].
Qed.

Lemma two_beats_reachable : reachable two_beats.
Proof.
  unfold two_beats, addBeatMarkers. cbn [fold_left fst snd].
  do 2 apply reach_beat. apply switched_on_reachable.
Qed.

Lemma marker_on_hit_line_at_target_witness :
  exists u' m',
    updateBeatMarkers (10.5 + 60 / 120) two_beats = Some u' /\
    In m' (beatMarkers u') /\
    x m' == 80 /\ beatNumber m' = 2%Z.
Proof.
  destruct (marker_on_hit_line_at_target two_beats (mkCanvas 400 120) second_marker)
    as (u' & m' & U & I & X & B & _).
  - exact two_beats_reachable.
  - reflexivity.
  - right. left. reflexivity.
  - exists u', m'. repeat split; assumption.
Defined.

Lemma marker_kept_until_its_beat_witness :
  exists u' m',
    updateBeatMarkers 10.75 two_beats = Some u' /\
    In m' (beatMarkers u') /\
    80 <= x m' <= 400 /\ beatNumber m' = 2%Z.
Proof.
  destruct (marker_kept_until_its_beat 10.75 two_beats (mkCanvas 400 120)
              second_marker)
    as (u' & m' & U & I & X & _ & B & _).
  - exact two_beats_reachable.
  - reflexivity.
  - vm_compute. discriminate.
  - right. left. reflexivity.
  - split; vm_compute; discriminate.
  - exists u', m'. repeat split; try assumption; apply X.
Defined.

Lemma hit_markers_fade_out_witness :
  hitMarkers (hitFrames 101 with_one_hit) = [].
Proof.
  apply (hit_markers_fade_out 101 with_one_hit).
  - apply reach_hit. exact switched_on_reachable.
  - lia.
Defined.

End FrameFacts.
(** ** Facts about NoteConverter.js *)

Module NoteFacts.
Import NoteConverter Notes.

Lemma rem_nonneg (m : Z) :
  (0 <= m)%Z -> (0 <= JsNum.rem m 12 < 12)%Z /\ (m = 12 * (m / 12) + JsNum.rem m 12)%Z.
Proof.
  intro H. unfold JsNum.rem. rewrite Z.rem_mod_nonneg by lia.
  split; [apply Z.mod_pos_bound; lia|apply Z.div_mod; lia].
Qed.

Lemma rem_negative (m : Z) :
  (m < 0)%Z ->
  (-12 < JsNum.rem m 12 <= 0)%Z /\ ((m mod 12 <> 0)%Z -> (JsNum.rem m 12 < 0)%Z).
Proof.
  intro H. unfold JsNum.rem.
  assert (Z.rem m 12 = - ((- m) mod 12))%Z as E.
  { rewrite <- (Z.opp_involutive m) at 1. rewrite Z.rem_opp_l by lia.
    rewrite Z.rem_mod_nonneg by lia. reflexivity. }
  pose proof (Z.mod_pos_bound (- m) 12) as B.
  split; [lia|]. intro N.
  assert ((- m) mod 12 <> 0)%Z as N'; [|lia].
  intro Z0. apply N. rewrite <- (Z.opp_involutive m).
  apply Z.mod_opp_l_z; [lia|exact Z0].
Qed.

(** X17. The names of the notes, on the note numbers -128 to 127: a MIDI
    note, 0 to 127, is named by one of the twelve names of its pitch class,
    followed by its octave number [floor(m / 12) - 1], and it is a black
    key exactly when that name has a sharp. A negative note number, -128 to
    -1, is never a black key, and unless it is a multiple of 12 its name
    starts with [undefined]. *)
Theorem names_and_black_keys (m : Z) :
  ((0 <= m <= 127)%Z ->
   exists noteName,
     nth_error noteNames (Z.to_nat (m mod 12)) = Some noteName /\
     midiToNote m = String.append noteName (numeral (m / 12 - 1)) /\
     isBlackKey m = sharp noteName) /\
  ((-128 <= m < 0)%Z ->
   isBlackKey m = false /\
   ((m mod 12 <> 0)%Z ->
    midiToNote m = String.append "undefined" (numeral (m / 12 - 1)))).
Proof.
  split; intros [H Hb].
  - destruct (rem_nonneg m H) as [B _].
    unfold midiToNote, isBlackKey, nameAt.
    assert (JsNum.rem m 12 = m mod 12)%Z as E
        by (unfold JsNum.rem; apply Z.rem_mod_nonneg; lia).
    rewrite !E. rewrite E in B. clear E. set (i := (m mod 12)%Z) in *.
    assert (i = 0 \/ i = 1 \/ i = 2 \/ i = 3 \/ i = 4 \/ i = 5 \/ i = 6 \/ i = 7 \/
            i = 8 \/ i = 9 \/ i = 10 \/ i = 11)%Z as C by lia.
    clearbody i.
    repeat (destruct C as [->|C];
            [eexists; split; [reflexivity|split; reflexivity]|]).
    subst i. eexists. split; [reflexivity|split; reflexivity].
  - destruct (rem_negative m Hb) as [B Neg]. split.
    + unfold isBlackKey. set (i := JsNum.rem m 12) in *. clearbody i. cbn.
      repeat (match goal with
              | |- context [(i =? ?a)%Z] =>
                  destruct (Z.eqb_spec i a); [lia|]
              end).
      reflexivity.
    + intro N. unfold midiToNote, nameAt.
      pose proof (Neg N) as L.
      apply Z.ltb_lt in L. rewrite L. reflexivity.
Qed.

Lemma distinct_names_spec (notes : list Z) (m1 m2 : Z) :
  distinct_names notes = true -> In m1 notes -> In m2 notes ->
  midiToNote m1 = midiToNote m2 -> m1 = m2.
Proof.
  intros D I1 I2 E. unfold distinct_names in D.
  rewrite forallb_forall in D. specialize (D m1 I1).
  rewrite forallb_forall in D. specialize (D m2 I2).
  rewrite E, String.eqb_refl in D. cbn in D. now apply Z.eqb_eq.
Qed.

Lemma midi_notes_spec (m : Z) : (0 <= m <= 127)%Z -> In m midi_notes.
Proof.
  intro H. unfold midi_notes. apply in_map_iff. exists (Z.to_nat m).
  split; [lia|]. apply in_seq. lia.
Qed.

(** X18. No two MIDI notes share a name: on the note numbers 0 to 127,
    [midiToNote] is injective, so the name under which a sounding note is
    stored and stopped belongs to that note alone. *)
Theorem midiToNote_injective (m1 m2 : Z) :
  (0 <= m1 <= 127)%Z -> (0 <= m2 <= 127)%Z ->
  midiToNote m1 = midiToNote m2 -> m1 = m2.
Proof.
  intros H1 H2. apply (distinct_names_spec midi_notes).
  - vm_compute. reflexivity.
  - now apply midi_notes_spec.
  - now apply midi_notes_spec.
Qed.

Lemma names_and_black_keys_witness :
  (exists noteName,
      nth_error noteNames (Z.to_nat (61 mod 12)) = Some noteName /\
      midiToNote 61 = String.append noteName (numeral (61 / 12 - 1)) /\
      isBlackKey 61 = sharp noteName) /\
  isBlackKey (-11) = false /\
  midiToNote (-11) = String.append "undefined" (numeral (-11 / 12 - 1)).
Proof.
  split; [|split].
  - apply (proj1 (names_and_black_keys 61)). lia.
  - apply (proj2 (names_and_black_keys (-11))). lia.
  - apply (proj2 (names_and_black_keys (-11))); [lia|]. cbn. lia.
Defined.

Lemma midiToNote_injective_witness : (48 + 12 = 12 * 5)%Z.
Proof.
  apply (midiToNote_injective (48 + 12) (12 * 5)); [lia|lia|reflexivity].
Defined.

End NoteFacts.
(** ** Facts about VisualKeysApp.js *)

Module AppFacts.
Import Metronome VisualKeysApp AppWords.

(** *** Callbacks reaching the application *)

Lemma panel_grows_refl (u : MetronomeUI.MetronomeUI) : panel_grows u u.
Proof. repeat split. exact (fun H => H). Qed.

Lemma panel_grows_trans (a b c : MetronomeUI.MetronomeUI) :
  panel_grows a b -> panel_grows b c -> panel_grows a c.
Proof.
  intros (A1 & A2 & A3 & A4 & A5) (B1 & B2 & B3 & B4 & B5).
  repeat split; try congruence. exact (fun H => B5 (A5 H)).
Qed.

Lemma addBeatMarker_grows (now : Q) (n : Z) (d : bool) (u : MetronomeUI.MetronomeUI) :
  panel_grows u (MetronomeUI.addBeatMarker now n d u).
Proof.
  split; [|split; [|split; [|split]]].
  5: intro R; exact (Vis.reach_beat now n d u R).
  all: unfold MetronomeUI.addBeatMarker; destruct (MetronomeUI.canvas u);
    [destruct (MetronomeUI.firstBeat u)|]; reflexivity.
Qed.

Lemma deliver_frame (now : Q) (es : list Event) :
  forall a,
    keyboardUI (fold_left (fun a e => deliver now e a) es a) = keyboardUI a /\
    metronome (fold_left (fun a e => deliver now e a) es a) = metronome a /\
    rhythmAccuracyTracker (fold_left (fun a e => deliver now e a) es a)
    = rhythmAccuracyTracker a /\
    activeNotes (fold_left (fun a e => deliver now e a) es a) = activeNotes a /\
    match metronomeUI a with
    | Some u =>
        exists u',
          metronomeUI (fold_left (fun a e => deliver now e a) es a) = Some u' /\
          panel_grows u u'
    | None => metronomeUI (fold_left (fun a e => deliver now e a) es a) = None
    end.
Proof.
  induction es as [|e es IH]; intro a.
  - cbn [fold_left]. do 4 (split; [reflexivity|]).
    destruct (metronomeUI a) as [u|]; [|reflexivity].
    exists u. split; [reflexivity|apply panel_grows_refl].
  - cbn [fold_left].
    destruct (IH (deliver now e a)) as (K & M & T & N & U).
    assert (keyboardUI (deliver now e a) = keyboardUI a /\
            metronome (deliver now e a) = metronome a /\
            rhythmAccuracyTracker (deliver now e a) = rhythmAccuracyTracker a /\
            activeNotes (deliver now e a) = activeNotes a) as (K1 & M1 & T1 & N1).
    { destruct e; cbn [deliver]; unfold handleBeatScheduled;
        destruct (metronomeUI a); repeat split. }
    rewrite K, M, T, N. do 4 (split; [assumption|]).
    destruct e as [n d t|n d t]; cbn [deliver] in *.
    + unfold handleBeatScheduled in *. destruct (metronomeUI a) as [u|] eqn:E.
      * cbn [metronomeUI with_metronomeUI] in U. destruct U as (u' & U1 & U2).
        exists u'. split; [exact U1|].
        eapply panel_grows_trans; [apply addBeatMarker_grows|exact U2].
      * rewrite E in U. exact U.
    + exact U.
Qed.

Lemma drive_spec (c : M unit) (a a' : App) (o : Outcome unit) :
  drive c a = Some (o, a') ->
  exists w,
    metronome a = Some w /\ o = c w /\ (forall x, o <> Hang x) /\
    metronome a' = Some (world_of o) /\
    keyboardUI a' = keyboardUI a /\
    rhythmAccuracyTracker a' = rhythmAccuracyTracker a /\
    activeNotes a' = activeNotes a /\
    match metronomeUI a with
    | Some u => exists u', metronomeUI a' = Some u' /\ panel_grows u u'
    | None => metronomeUI a' = None
    end.
Proof.
  unfold drive. destruct (metronome a) as [w|] eqn:M; [|discriminate].
  intro E. exists w. split; [reflexivity|].
  set (now := performance_now (host w) / 1000) in *.
  set (made := skipn _ _) in *.
  destruct (deliver_frame now made (with_metronome (Some (world_of (c w))) a))
    as (K & M' & T & N & U).
  destruct (c w) as [[] w1|e w1|w1] eqn:O; [| |discriminate];
    injection E as <- <-; (split; [reflexivity|]); (split; [discriminate|]);
    cbn [world_of] in *; rewrite K, M', T, N; repeat split; exact U.
Qed.

(** *** What an action does to the settings of the metronome *)

Lemma perform_settings (t : Life.Action) (w : World) :
  scheduleAheadTime (metro (world_of (Life.perform t w))) = scheduleAheadTime (metro w) /\
  tempo (metro (world_of (Life.perform t w)))
  = match t with
    | Life.SetTempo bpm => JsNum.max 30 (JsNum.min 300 bpm)
    | _ => tempo (metro w)
    end /\
  (isPlaying (metro (world_of (Life.perform t w))) = true ->
   isPlaying (metro w) = true \/ exists d, t = Life.Start d).
Proof.
  destruct t as [d| |bpm|beats|hitTime|fuel id|id|dt|s].
  - cbn [Life.perform].
    destruct (SchedulerFacts.start_cases d w)
      as [E|[(_ & _ & E)|(c & w' & P & C & N & R & E)]]; rewrite E.
    + repeat split. now left.
    + repeat split. right. now exists d.
    + destruct (SchedulerFacts.start_open d w c P C N) as (w2 & R2 & K).
      assert (w2 = w') as <- by congruence.
      destruct K as (_ & _ & _ & _ & _ & K6 & _ & _ & K9 & _).
      repeat split; try assumption. right. now exists d.
  - cbn [Life.perform].
    destruct (Sumbool.sumbool_of_bool (isPlaying (metro w))) as [P|P].
    + rewrite (MetronomeFacts.stop_running w P). repeat split. discriminate.
    + rewrite (MetronomeFacts.stop_stopped w P). repeat split. now left.
  - repeat split. now left.
  - repeat split. now left.
  - rewrite SchedulerFacts.getHitAccuracy_world. repeat split. now left.
  - cbn [Life.perform]. unfold fire_interval.
    destruct (existsb _ _); [|repeat split; now left].
    assert (scheduleAheadTime (metro (world_of (_scheduler fuel w)))
            = scheduleAheadTime (metro w) /\
            tempo (metro (world_of (_scheduler fuel w))) = tempo (metro w) /\
            isPlaying (metro (world_of (_scheduler fuel w))) = isPlaying (metro w))
      as (A & B & C).
    { apply (SchedulerFacts.scheduler_preserves
               (fun x => scheduleAheadTime (metro x) = scheduleAheadTime (metro w) /\
                         tempo (metro x) = tempo (metro w) /\
                         isPlaying (metro x) = isPlaying (metro w)));
        [|repeat split].
      intros w1 c w2 C1 (A & B & C) Bd.
      destruct (MetronomeFacts.scheduler_body_spec w1 c C1) as (w4 & B4 & S4 & _).
      assert (w4 = w2) as -> by congruence.
      destruct S4 as (S1 & _ & _ & S2 & S3 & _). repeat split; congruence. }
    rewrite A, B, C. repeat split. now left.
  - cbn [Life.perform].
    destruct (SchedulerFacts.fire_timeout_spec id w) as (w' & F & M & _).
    rewrite F. cbn [world_of]. rewrite M. repeat split. now left.
  - cbn. destruct (audioContext (metro w)) as [[[| |] t]|]; repeat split; now left.
  - cbn. destruct (audioContext (metro w)); repeat split; now left.
Qed.

(** A run from the application keeps the metronome within its lives. *)
Lemma drive_reachable (t : Life.Action) (a a' : App) (o : Outcome unit) (w : World) :
  metronome a = Some w -> Life.reachable w ->
  Life.representable t = true ->
  drive (Life.perform t) a = Some (o, a') ->
  Life.reachable (world_of o).
Proof.
  intros M R Rep D. destruct (drive_spec _ _ _ _ D) as (w0 & M0 & O & H & _).
  assert (w0 = w) as -> by congruence.
  destruct o as [[] w1|e w1|w1]; cbn [world_of].
  - exact (Life.reach_return t w w1 R Rep (eq_sym O)).
  - exact (Life.reach_throw t e w w1 R Rep (eq_sym O)).
  - exfalso. exact (H w1 eq_refl).
Qed.

(** *** The sounding notes *)

Lemma mapHas_false (k : Z) (m : list (Z * string)) :
  mapHas k m = false <-> ~ In k (map fst m).
Proof.
  unfold mapHas. split.
  - intros H I. apply in_map_iff in I. destruct I as (e & <- & I).
    assert (existsb (fun x => (fst x =? fst e)%Z) m = true) as K; [|congruence].
    apply existsb_exists. exists e. split; [exact I|apply Z.eqb_refl].
  - intro H. destruct (existsb _ m) eqn:E; [|reflexivity].
    exfalso. apply existsb_exists in E. destruct E as (e & I & E).
    apply Z.eqb_eq in E. subst k. apply H. now apply in_map.
Qed.

Lemma mapSet_named (k : Z) (m : list (Z * string)) :
  notes_named m -> notes_named (mapSet k (NoteConverter.midiToNote k) m).
Proof.
  intros [F N]. unfold mapSet. destruct (mapHas k m) eqn:H.
  - split.
    + apply Forall_forall. intros e I. apply in_map_iff in I.
      destruct I as (e0 & <- & I). rewrite Forall_forall in F.
      destruct (fst e0 =? k)%Z; [reflexivity|exact (F e0 I)].
    + assert (map fst (map (fun e => if (fst e =? k)%Z
                                     then (k, NoteConverter.midiToNote k) else e) m)
              = map fst m) as ->; [|exact N].
      rewrite map_map. apply map_ext. intro e.
      destruct (fst e =? k)%Z eqn:E; [|reflexivity].
      apply Z.eqb_eq in E. now rewrite E.
  - apply mapHas_false in H. split.
    + apply Forall_app. split; [exact F|]. repeat constructor.
    + rewrite map_app. cbn [map fst].
      apply NoDup_app; [exact N|repeat constructor; intros []|].
      intros x I [<-|[]]. exact (H I).
Qed.

Lemma mapDelete_named (k : Z) (m : list (Z * string)) :
  notes_named m -> notes_named (mapDelete k m).
Proof.
  intros [F N]. split.
  - now apply LifeFacts.Forall_filter.
  - now apply LifeFacts.filter_keys_NoDup.
Qed.

Lemma playNote_frame (m : Z) (a : App) :
  metronome (playNote m a) = metronome a /\
  metronomeUI (playNote m a) = metronomeUI a /\
  rhythmAccuracyTracker (playNote m a) = rhythmAccuracyTracker a /\
  activeNotes (playNote m a)
  = mapSet m (NoteConverter.midiToNote m) (activeNotes a) /\
  synthEngine (playNote m a)
  = synthEngine a ++ [playNoteCall (NoteConverter.midiToNote m)] /\
  keyboardUI (playNote m a)
  = option_map (KeyboardUI.activateKey m) (keyboardUI a).
Proof.
  unfold playNote. cbn [keyboardUI with_activeNotes with_synthEngine].
  destruct (keyboardUI a) eqn:K; cbn; rewrite ?K; repeat split.
Qed.

Lemma stopNote_frame (m : Z) (a : App) :
  metronome (stopNote m a) = metronome a /\
  metronomeUI (stopNote m a) = metronomeUI a /\
  rhythmAccuracyTracker (stopNote m a) = rhythmAccuracyTracker a /\
  (forall k, keyboardUI a = Some k -> exists k', keyboardUI (stopNote m a) = Some k') /\
  (notes_named (activeNotes a) -> notes_named (activeNotes (stopNote m a))).
Proof.
  unfold stopNote. destruct (mapGet m (activeNotes a)).
  - cbn [keyboardUI with_activeNotes with_synthEngine].
    destruct (keyboardUI a) eqn:K; cbn; rewrite ?K;
      (split; [reflexivity|]); (split; [reflexivity|]); (split; [reflexivity|]);
      (split; [|apply mapDelete_named]); try discriminate.
    intros k0 _. eexists. reflexivity.
  - do 3 (split; [reflexivity|]). split; [|exact (fun H => H)].
    intros k K. now exists k.
Qed.

(** *** The panel *)

Lemma toggle_fields (checked : bool) (u u' : MetronomeUI.MetronomeUI) :
  MetronomeUI.toggle checked u = Some u' ->
  MetronomeUI.currentTempo u' = MetronomeUI.currentTempo u /\
  MetronomeUI.secondsPerBeat u' = MetronomeUI.secondsPerBeat u /\
  MetronomeUI.enabled u' = checked.
Proof.
  unfold MetronomeUI.toggle, MetronomeUI.resetVisualization,
    MetronomeUI.updateMarkerSpeed.
  cbn [MetronomeUI.canvas MetronomeUI.with_firstBeat MetronomeUI.with_hitMarkers
         MetronomeUI.with_beatMarkers MetronomeUI.with_enabled].
  destruct checked; [destruct (MetronomeUI.canvas u); [|discriminate]|];
    intro E; injection E as <-; repeat split.
Qed.

Lemma handleTempoChange_fields (input : Z) (u u' : MetronomeUI.MetronomeUI) :
  MetronomeUI.handleTempoChange input u = Some u' ->
  MetronomeUI.currentTempo u' = inject_Z (Z.min 240 (Z.max 40 input)) /\
  MetronomeUI.secondsPerBeat u' = 60 / MetronomeUI.currentTempo u' /\
  MetronomeUI.enabled u' = MetronomeUI.enabled u.
Proof.
  unfold MetronomeUI.handleTempoChange, MetronomeUI.updateMarkerSpeed.
  cbn [MetronomeUI.canvas MetronomeUI.with_secondsPerBeat MetronomeUI.with_currentTempo].
  destruct (MetronomeUI.canvas u); [|discriminate].
  intro E; injection E as <-; repeat split.
Qed.

Lemma render_fields (now : Q) (u u' : MetronomeUI.MetronomeUI) :
  MetronomeUI.renderRhythmVisualization now u = Some u' ->
  MetronomeUI.currentTempo u' = MetronomeUI.currentTempo u /\
  MetronomeUI.secondsPerBeat u' = MetronomeUI.secondsPerBeat u /\
  MetronomeUI.enabled u' = MetronomeUI.enabled u.
Proof.
  unfold MetronomeUI.renderRhythmVisualization, MetronomeUI.updateBeatMarkers.
  destruct (negb (MetronomeUI.ctx u) || negb (MetronomeUI.showVisualization u)).
  - intro E; injection E as <-; repeat split.
  - destruct (MetronomeUI.forEach _ _); [|discriminate].
    intro E; injection E as <-; repeat split.
Qed.

Lemma registerNoteHit_fields (v : Q) (u : MetronomeUI.MetronomeUI) :
  MetronomeUI.currentTempo (MetronomeUI.registerNoteHit v u) = MetronomeUI.currentTempo u /\
  MetronomeUI.secondsPerBeat (MetronomeUI.registerNoteHit v u)
  = MetronomeUI.secondsPerBeat u /\
  MetronomeUI.enabled (MetronomeUI.registerNoteHit v u) = MetronomeUI.enabled u.
Proof.
  unfold MetronomeUI.registerNoteHit.
  destruct (negb (MetronomeUI.enabled u) || negb (MetronomeUI.showVisualization u));
    repeat split.
Qed.

(** *** The rhythm check *)

Lemma trackHit_spec (w : World) (u : MetronomeUI.MetronomeUI) (a : App) :
  exists v,
    getHitAccuracy (performance_now (host w) / 1000) w = Return v w /\
    metronome (trackHit w u a) = Some w /\
    metronomeUI (trackHit w u a) = Some (MetronomeUI.registerNoteHit v u) /\
    keyboardUI (trackHit w u a) = keyboardUI a /\
    activeNotes (trackHit w u a) = activeNotes a /\
    synthEngine (trackHit w u a) = synthEngine a /\
    isMetronomeActive (rhythmAccuracyTracker (trackHit w u a))
    = isMetronomeActive (rhythmAccuracyTracker a) /\
    lastNoteHitTime (rhythmAccuracyTracker (trackHit w u a))
    = performance_now (host w) / 1000 /\
    totalNotes (rhythmAccuracyTracker (trackHit w u a))
    = (totalNotes (rhythmAccuracyTracker a) + 1)%Z /\
    ((MetronomeUI.getAccuracyColor v = MetronomeUI.mkColor 76 175 80 /\
      0.9 < v /\
      perfectHits (rhythmAccuracyTracker (trackHit w u a))
      = (perfectHits (rhythmAccuracyTracker a) + 1)%Z /\
      goodHits (rhythmAccuracyTracker (trackHit w u a))
      = goodHits (rhythmAccuracyTracker a) /\
      missedHits (rhythmAccuracyTracker (trackHit w u a))
      = missedHits (rhythmAccuracyTracker a)) \/
     (MetronomeUI.getAccuracyColor v = MetronomeUI.mkColor 255 193 7 /\
      0.7 < v <= 0.9 /\
      perfectHits (rhythmAccuracyTracker (trackHit w u a))
      = perfectHits (rhythmAccuracyTracker a) /\
      goodHits (rhythmAccuracyTracker (trackHit w u a))
      = (goodHits (rhythmAccuracyTracker a) + 1)%Z /\
      missedHits (rhythmAccuracyTracker (trackHit w u a))
      = missedHits (rhythmAccuracyTracker a)) \/
     (MetronomeUI.getAccuracyColor v = MetronomeUI.mkColor 244 67 54 /\
      v <= 0.7 /\
      perfectHits (rhythmAccuracyTracker (trackHit w u a))
      = perfectHits (rhythmAccuracyTracker a) /\
      goodHits (rhythmAccuracyTracker (trackHit w u a))
      = goodHits (rhythmAccuracyTracker a) /\
      missedHits (rhythmAccuracyTracker (trackHit w u a))
      = (missedHits (rhythmAccuracyTracker a) + 1)%Z)).
Proof.
  destruct (MetronomeFacts.getHitAccuracy_returns (performance_now (host w) / 1000) w)
    as [v R].
  exists v. split; [exact R|]. unfold trackHit. rewrite R.
  unfold MetronomeUI.getAccuracyColor.
  cbn [metronome metronomeUI keyboardUI activeNotes synthEngine rhythmAccuracyTracker
         with_tracker with_metronomeUI with_metronome].
  destruct (JsNum.gtb v 0.9) eqn:G9; [|destruct (JsNum.gtb v 0.7) eqn:G7];
    cbn [isMetronomeActive lastNoteHitTime totalNotes perfectHits goodHits missedHits];
    do 8 (split; [reflexivity|]).
  - left. apply MetronomeUIFacts.gtb_lt in G9. repeat split. exact G9.
  - right. left. apply MetronomeUIFacts.gtb_lt in G7.
    apply MetronomeFacts.ltb_ge in G9. repeat split; assumption.
  - right. right. apply MetronomeFacts.ltb_ge in G7. repeat split. exact G7.
Qed.

(** *** The application, its metronome and its panel *)

Lemma clamp_tempo (input : Z) :
  40 <= inject_Z (Z.min 240 (Z.max 40 input)) <= 240 /\
  JsNum.max 30 (JsNum.min 300 (inject_Z (Z.min 240 (Z.max 40 input))))
  = inject_Z (Z.min 240 (Z.max 40 input)).
Proof.
  set (c := Z.min 240 (Z.max 40 input)).
  assert (40 <= inject_Z c <= 240) as [Lo Hi].
  { split; [change 40 with (inject_Z 40)|change 240 with (inject_Z 240)];
      rewrite <- Zle_Qle; unfold c; lia. }
  split; [split; assumption|].
  unfold JsNum.min, JsNum.max.
  destruct (Qle_bool 300 (inject_Z c)) eqn:A.
  - apply Qle_bool_iff in A. lra.
  - destruct (Qle_bool 30 (inject_Z c)) eqn:B; [reflexivity|].
    assert (Qle_bool 30 (inject_Z c) = true) as B'
        by (apply Qle_bool_iff; lra).
    congruence.
Qed.

Lemma in_step_drive (t : Life.Action) (a a' : App) (o : Outcome unit)
  (k : KeyboardUI.KeyboardUI) (w : World) (u : MetronomeUI.MetronomeUI) :
  keyboardUI a = Some k -> metronome a = Some w -> metronomeUI a = Some u ->
  Life.reachable w -> Vis.reachable u ->
  tempo (metro w) = MetronomeUI.currentTempo u ->
  MetronomeUI.secondsPerBeat u = 60 / MetronomeUI.currentTempo u ->
  40 <= tempo (metro w) <= 240 ->
  scheduleAheadTime (metro w) = 0.1 ->
  MetronomeUI.enabled u = isMetronomeActive (rhythmAccuracyTracker a) ->
  counts_add_up (rhythmAccuracyTracker a) ->
  notes_named (activeNotes a) ->
  drive (Life.perform t) a = Some (o, a') ->
  Life.representable t = true ->
  (forall bpm, t <> Life.SetTempo bpm) ->
  (isPlaying (metro (world_of o)) = true ->
   isMetronomeActive (rhythmAccuracyTracker a) = true) ->
  in_step a'.
Proof.
  intros K M U Rw Ru T S B A E C N D Rep NoTempo P.
  destruct (drive_spec _ _ _ _ D) as (w0 & M0 & O & _ & M1 & K1 & T1 & N1 & U1).
  assert (w0 = w) as -> by congruence.
  rewrite U in U1. destruct U1 as (u' & U1 & G1 & G2 & G3 & _ & G5).
  pose proof (drive_reachable t a a' o w M Rw Rep D) as Rw'.
  destruct (perform_settings t w) as (H1 & H2 & _). rewrite <- O in H1, H2.
  assert (tempo (metro (world_of o)) = tempo (metro w)) as Ht.
  { rewrite H2. destruct t; try reflexivity. exfalso. exact (NoTempo bpm eq_refl). }
  exists k, (world_of o), u'.
  rewrite K1, T1, N1, Ht, H1, G1, G2, G3.
  repeat (split; [assumption|]).
  split; [exact (G5 Ru)|]. do 7 (split; [assumption|]). assumption.
Qed.

Lemma in_step_inv (a : App) : VisualKeysApp.reachable a -> in_step a.
Proof.
  induction 1 as [context rect|i a a' R IH E].
  - eexists. eexists. eexists.
    do 3 (split; [reflexivity|]).
    split; [apply Life.reach_new|]. split; [apply Vis.reach_constructor|].
    do 2 (split; [reflexivity|]). split; [split; discriminate|].
    do 2 (split; [reflexivity|]). split; [discriminate|].
    split; [repeat split; discriminate|]. split; constructor.
  - pose proof IH as (k & w & u & K & M & U & Rw & Ru & T & S & B & A & En & P & C & N).
    destruct i as [m|m|m|m|checked|input|beats|checked| |t]; cbn [react] in E.
    + (* NoteOn *)
      injection E as <-. unfold handleMIDINoteOn. rewrite K, M, U.
      destruct (_ && _); [|exact IH].
      destruct (Sumbool.sumbool_of_bool (isMetronomeActive (rhythmAccuracyTracker a)))
        as [Act|Act]; rewrite Act.
      * destruct (trackHit_spec w u a)
          as (v & _ & M1 & U1 & K1 & N1 & _ & A1 & _ & Tot & Bands).
        destruct (playNote_frame m (trackHit w u a)) as (M2 & U2 & T2 & N2 & _ & K2).
        destruct (registerNoteHit_fields v u) as (F1 & F2 & F3).
        exists (KeyboardUI.activateKey m k), w, (MetronomeUI.registerNoteHit v u).
        rewrite M2, U2, T2, N2, K2, M1, U1, K1, N1, K, A1, F1, F2, F3.
        do 4 (split; [reflexivity || assumption|]).
        split; [exact (Vis.reach_hit v u Ru)|].
        do 6 (split; [assumption|]). split; [|now apply mapSet_named].
        destruct C as (C0 & C1 & C2 & C3). unfold counts_add_up.
        destruct Bands as [(_ & _ & -> & -> & ->)|[(_ & _ & -> & -> & ->)
                                                  |(_ & _ & -> & -> & ->)]];
          rewrite Tot; repeat split; lia.
      * destruct (playNote_frame m a) as (M2 & U2 & T2 & N2 & _ & K2).
        exists (KeyboardUI.activateKey m k), w, u.
        rewrite M2, U2, T2, N2, K2, K.
        repeat (split; [reflexivity || assumption|]). now apply mapSet_named.
    + (* NoteOff *)
      injection E as <-. unfold handleMIDINoteOff. rewrite K.
      destruct (_ && _); [|exact IH].
      destruct (stopNote_frame m a) as (M2 & U2 & T2 & K2 & N2).
      destruct (K2 k K) as [k' K'].
      exists k', w, u. rewrite M2, U2, T2, K'.
      repeat (split; [reflexivity || assumption|]). now apply N2.
    + (* MouseDown *)
      injection E as <-. unfold mouseDown. rewrite K.
      set (a0 := with_keyboardUI _ a).
      destruct (playNote_frame m a0) as (M2 & U2 & T2 & N2 & _ & K2).
      eexists. exists w, u. rewrite M2, U2, T2, N2, K2.
      split; [reflexivity|].
      repeat (split; [reflexivity || assumption|]). now apply mapSet_named.
    + (* MouseUp *)
      injection E as <-. unfold mouseUp. rewrite K.
      set (a0 := with_keyboardUI _ a).
      destruct (stopNote_frame m a0) as (M2 & U2 & T2 & K2 & N2).
      destruct (K2 _ eq_refl) as [k' K'].
      exists k', w, u. rewrite M2, U2, T2, K'.
      repeat (split; [reflexivity || assumption|]). now apply N2.
    + (* Switch *)
      unfold switch in E. rewrite U in E.
      destruct (MetronomeUI.toggle checked u) as [u1|] eqn:Tg; [|discriminate].
      destruct (toggle_fields checked u u1 Tg) as (F1 & F2 & F3).
      unfold onToggle in E.
      set (a1 := with_tracker _ (with_metronomeUI (Some u1) a)) in E.
      destruct checked.
      * destruct (drive (start true) a1) as [[o a2]|] eqn:D; [|discriminate].
        injection E as <-.
        apply (in_step_drive (Life.Start true) a1 a2 o k w u1); try assumption;
          try reflexivity; try congruence.
        exact (Vis.reach_toggle true u u1 Ru Tg).
      * destruct (drive stop a1) as [[o a2]|] eqn:D; [|discriminate].
        injection E as <-.
        apply (in_step_drive Life.Stop a1 a2 o k w u1); try assumption;
          try reflexivity; try congruence.
        -- exact (Vis.reach_toggle false u u1 Ru Tg).
        -- destruct (drive_spec _ _ _ _ D) as (w0 & M0 & O & _).
           assert (w0 = w) as -> by (cbn in M0; congruence).
           destruct (LifeFacts.stop_clean w Rw) as (w' & St & Pl & _).
           cbn [Life.perform] in O. rewrite St in O. subst o. cbn [world_of].
           rewrite Pl. discriminate.
    + (* TempoInput *)
      unfold tempoInput in E. rewrite U in E.
      destruct (drive _ a) as [[o a1]|] eqn:D; [|discriminate].
      destruct (MetronomeUI.handleTempoChange input u) as [u1|] eqn:Hc; [|discriminate].
      injection E as <-.
      destruct (handleTempoChange_fields input u u1 Hc) as (F1 & F2 & F3).
      destruct (clamp_tempo input) as (Cl & Cm).
      change (drive (Life.perform (Life.SetTempo
                                     (inject_Z (Z.min 240 (Z.max 40 input))))) a
              = Some (o, a1)) in D.
      destruct (drive_spec _ _ _ _ D) as (w0 & M0 & O & _ & M1 & K1 & T1 & N1 & _).
      assert (w0 = w) as -> by congruence.
      pose proof (drive_reachable (Life.SetTempo (inject_Z (Z.min 240 (Z.max 40 input))))
                  a a1 o w M Rw eq_refl D) as Rw'.
      destruct (perform_settings
                  (Life.SetTempo (inject_Z (Z.min 240 (Z.max 40 input)))) w)
        as (H1 & H2 & H3).
      rewrite <- O in H1, H2, H3. rewrite Cm in H2.
      exists k, (world_of o), u1. cbn [keyboardUI metronome metronomeUI
                                        rhythmAccuracyTracker activeNotes
                                        with_metronomeUI].
      rewrite K1, T1, N1, H1, H2, F1, F2, F1, F3.
      do 4 (split; [reflexivity || assumption|]).
      split; [exact (Vis.reach_tempo input u u1 Ru Hc)|].
      do 5 (split; [reflexivity || assumption|]).
      split; [|split; assumption].
      intro Q. destruct (H3 Q) as [Q0|[d Q0]]; [exact (P Q0)|discriminate].
    + (* TimeSignatureInput *)
      unfold timeSignatureInput in E.
      destruct (existsb _ _) eqn:Menu; [|discriminate].
      destruct (drive _ a) as [[o a1]|] eqn:D; [|discriminate].
      injection E as <-.
      apply (in_step_drive (Life.SetTimeSignature beats) a a1 o k w u);
        try assumption; try congruence.
      { cbn. destruct (beats =? 0)%Z eqn:Z0; [|reflexivity].
        apply Z.eqb_eq in Z0. subst beats. discriminate. }
      intro Q. destruct (drive_spec _ _ _ _ D) as (w0 & M0 & O & _).
      assert (w0 = w) as -> by congruence.
      destruct (perform_settings (Life.SetTimeSignature beats) w) as (_ & _ & H3).
      cbn [Life.perform] in H3. rewrite <- O in H3.
      destruct (H3 Q) as [Q0|[d Q0]]; [exact (P Q0)|discriminate].
    + (* VisToggle *)
      rewrite U in E. injection E as <-.
      exists k, w, (MetronomeUI.with_showVisualization checked u).
      repeat (split; [reflexivity || assumption|]).
      split; [exact (Vis.reach_vis_toggle checked u Ru)|].
      repeat (split; [reflexivity || assumption|]). assumption.
    + (* Frame *)
      unfold frame in E. rewrite M, U in E.
      destruct (MetronomeUI.renderRhythmVisualization _ u) as [u1|] eqn:Rn;
        [|discriminate].
      injection E as <-.
      destruct (render_fields _ u u1 Rn) as (F1 & F2 & F3).
      exists k, w, u1. cbn. rewrite F1, F2, F3.
      repeat (split; [reflexivity || assumption|]).
      split; [exact (Vis.reach_frame _ u u1 Ru Rn)|].
      repeat (split; [reflexivity || assumption|]). assumption.
    + (* Turn *)
      destruct (event_loop t) eqn:Ev; [|discriminate].
      destruct (drive _ a) as [[o a1]|] eqn:D; [|discriminate].
      injection E as <-.
      apply (in_step_drive t a a1 o k w u); try assumption.
      * destruct t; try reflexivity; discriminate.
      * intros bpm ->. discriminate.
      * intro Q. destruct (drive_spec _ _ _ _ D) as (w0 & M0 & O & _).
        assert (w0 = w) as -> by congruence.
        destruct (perform_settings t w) as (_ & _ & H3). rewrite <- O in H3.
        destruct (H3 Q) as [Q0|[d Q0]]; [exact (P Q0)|]. subst t. discriminate.
Qed.

(** *** Keys and notes *)

Lemma has_add (x m : Z) (s : list Z) :
  KeyboardUI.has x (KeyboardUI.add m s) = (x =? m)%Z || KeyboardUI.has x s.
Proof.
  unfold KeyboardUI.add. destruct (KeyboardUI.has m s) eqn:H.
  - destruct (Z.eqb_spec x m) as [->|_]; [now rewrite H|reflexivity].
  - unfold KeyboardUI.has. rewrite existsb_app. cbn [existsb].
    rewrite orb_false_r. apply orb_comm.
Qed.

Lemma has_delete (x m : Z) (s : list Z) :
  KeyboardUI.has x (KeyboardUI.delete m s)
  = negb (x =? m)%Z && KeyboardUI.has x s.
Proof.
  unfold KeyboardUI.has, KeyboardUI.delete.
  induction s as [|y s IH]; [now rewrite andb_false_r|].
  cbn [filter existsb].
  destruct (Z.eqb_spec m y) as [->|Ne]; cbn [negb existsb]; rewrite IH.
  - destruct (Z.eqb_spec x y); reflexivity.
  - destruct (Z.eqb_spec x y) as [->|N1]; [|reflexivity].
    destruct (Z.eqb_spec y m) as [->|N2]; [congruence|reflexivity].
Qed.

Lemma mapHas_set (x m : Z) (v : string) (l : list (Z * string)) :
  mapHas x (mapSet m v l) = (x =? m)%Z || mapHas x l.
Proof.
  unfold mapSet. destruct (mapHas m l) eqn:H.
  - assert (mapHas x (map (fun e => if (fst e =? m)%Z then (m, v) else e) l)
            = mapHas x l) as ->.
    { unfold mapHas. clear H. induction l as [|e l IH]; [reflexivity|].
      cbn [map existsb]. rewrite IH. f_equal.
      destruct (Z.eqb_spec (fst e) m) as [->|_]; reflexivity. }
    destruct (Z.eqb_spec x m) as [->|_]; [now rewrite H|reflexivity].
  - unfold mapHas. rewrite existsb_app. cbn [existsb fst].
    rewrite orb_false_r, orb_comm. f_equal. apply Z.eqb_sym.
Qed.

Lemma mapHas_delete (x m : Z) (l : list (Z * string)) :
  mapHas x (mapDelete m l) = negb (x =? m)%Z && mapHas x l.
Proof.
  unfold mapHas, mapDelete.
  induction l as [|e l IH]; [now rewrite andb_false_r|].
  cbn [filter existsb].
  destruct (Z.eqb_spec (fst e) m) as [E|Ne]; cbn [negb existsb]; rewrite IH.
  - rewrite E. destruct (Z.eqb_spec m x) as [->|N1].
    + now rewrite Z.eqb_refl.
    + reflexivity.
  - destruct (Z.eqb_spec (fst e) x) as [E|N1]; [|reflexivity].
    destruct (Z.eqb_spec x m) as [->|N2]; [congruence|reflexivity].
Qed.

Lemma mapGet_has (m : Z) (l : list (Z * string)) :
  match mapGet m l with
  | Some _ => mapHas m l = true
  | None => mapHas m l = false
  end.
Proof.
  unfold mapGet, mapHas. induction l as [|e l IH]; [reflexivity|].
  cbn [find existsb]. destruct (fst e =? m)%Z; [reflexivity|exact IH].
Qed.

Lemma activateKey_has (x m : Z) (k : KeyboardUI.KeyboardUI) :
  ((KeyboardUI.startNote k <= m <= KeyboardUI.endNote k)%Z \/
   KeyboardUI.has m (KeyboardUI.activeKeys k) = true) ->
  KeyboardUI.has x (KeyboardUI.activeKeys (KeyboardUI.activateKey m k))
  = (x =? m)%Z || KeyboardUI.has x (KeyboardUI.activeKeys k).
Proof.
  intro H. unfold KeyboardUI.activateKey.
  destruct ((KeyboardUI.startNote k <=? m)%Z && (m <=? KeyboardUI.endNote k)%Z) eqn:R.
  - apply has_add.
  - destruct H as [H|H].
    + assert ((KeyboardUI.startNote k <=? m)%Z && (m <=? KeyboardUI.endNote k)%Z = true)
        as R'; [|congruence].
      apply andb_true_iff. split; apply Z.leb_le; lia.
    + destruct (Z.eqb_spec x m) as [->|_]; [now rewrite H|reflexivity].
Qed.

Lemma deactivateKey_has (x m : Z) (k : KeyboardUI.KeyboardUI) :
  KeyboardUI.has x (KeyboardUI.activeKeys (KeyboardUI.deactivateKey m k))
  = negb (x =? m)%Z && KeyboardUI.has x (KeyboardUI.activeKeys k).
Proof.
  unfold KeyboardUI.deactivateKey.
  destruct (KeyboardUI.has m (KeyboardUI.activeKeys k)) eqn:H.
  - apply has_delete.
  - destruct (Z.eqb_spec x m) as [->|_]; [now rewrite H|reflexivity].
Qed.

Lemma stopNote_spec (m : Z) (a : App) :
  (mapHas m (activeNotes a) = false /\ stopNote m a = a) \/
  (exists noteName,
      mapGet m (activeNotes a) = Some noteName /\
      mapHas m (activeNotes a) = true /\
      activeNotes (stopNote m a) = mapDelete m (activeNotes a) /\
      synthEngine (stopNote m a) = synthEngine a ++ [stopNoteCall noteName] /\
      keyboardUI (stopNote m a)
      = option_map (KeyboardUI.deactivateKey m) (keyboardUI a)).
Proof.
  pose proof (mapGet_has m (activeNotes a)) as H. unfold stopNote.
  destruct (mapGet m (activeNotes a)) as [noteName|].
  - right. exists noteName. split; [reflexivity|]. split; [exact H|].
    cbn [keyboardUI with_activeNotes with_synthEngine].
    destruct (keyboardUI a) eqn:K; cbn; rewrite ?K; repeat split.
  - left. split; [exact H|reflexivity].
Qed.

(** The rhythm check leaves keys, notes and synthesizer alone. *)
Lemma rhythm_check_frame (a : App) :
  let a1 :=
    match metronome a, metronomeUI a with
    | Some w, Some u =>
        if isMetronomeActive (rhythmAccuracyTracker a) then trackHit w u a else a
    | _, _ => a
    end in
  keyboardUI a1 = keyboardUI a /\ activeNotes a1 = activeNotes a /\
  synthEngine a1 = synthEngine a.
Proof.
  cbv zeta. destruct (metronome a) as [w|]; [|repeat split].
  destruct (metronomeUI a) as [u|]; [|repeat split].
  destruct (isMetronomeActive (rhythmAccuracyTracker a)); [|repeat split].
  destruct (trackHit_spec w u a) as (v & _ & _ & _ & K & N & S & _).
  repeat split; assumption.
Qed.

(** Inputs other than notes leave keys and notes alone. *)
Lemma react_other (i : Input) (a a' : App) :
  react i a = Some a' ->
  match i with
  | NoteOn _ | NoteOff _ | MouseDown _ | MouseUp _ => True
  | _ => keyboardUI a' = keyboardUI a /\ activeNotes a' = activeNotes a
  end.
Proof.
  destruct i as [m|m|m|m|checked|input|beats|checked| |t]; cbn [react];
    try (intros _; exact I).
  - unfold switch. destruct (metronomeUI a) as [u|]; [|discriminate].
    destruct (MetronomeUI.toggle checked u) as [u1|]; [|discriminate].
    unfold onToggle.
    destruct checked;
      (destruct (drive _ _) as [[o a2]|] eqn:D; [|discriminate]);
      intro E; injection E as <-;
      destruct (drive_spec _ _ _ _ D) as (_ & _ & _ & _ & _ & K & _ & N & _);
      split; assumption.
  - unfold tempoInput. destruct (metronomeUI a) as [u|]; [|discriminate].
    destruct (drive _ _) as [[o a2]|] eqn:D; [|discriminate].
    destruct (MetronomeUI.handleTempoChange input u) as [u1|]; [|discriminate].
    intro E; injection E as <-.
    destruct (drive_spec _ _ _ _ D) as (_ & _ & _ & _ & _ & K & _ & N & _).
    split; assumption.
  - unfold timeSignatureInput. destruct (existsb _ _); [|discriminate].
    destruct (drive _ _) as [[o a2]|] eqn:D; [|discriminate].
    intro E; injection E as <-.
    destruct (drive_spec _ _ _ _ D) as (_ & _ & _ & _ & _ & K & _ & N & _).
    split; assumption.
  - destruct (metronomeUI a); [|discriminate]. intro E; injection E as <-.
    split; reflexivity.
  - unfold frame. destruct (metronome a) as [w|].
    + destruct (metronomeUI a) as [u|].
      * destruct (MetronomeUI.renderRhythmVisualization _ u); [|discriminate].
        intro E; injection E as <-. split; reflexivity.
      * intro E; injection E as <-. split; reflexivity.
    + intro E; injection E as <-. split; reflexivity.
  - destruct (event_loop t); [|discriminate].
    destruct (drive _ _) as [[o a2]|] eqn:D; [|discriminate].
    intro E; injection E as <-.
    destruct (drive_spec _ _ _ _ D) as (_ & _ & _ & _ & _ & K & _ & N & _).
    split; assumption.
Qed.

Lemma lit_keys_inv (a : App) : VisualKeysApp.reachable a -> lit_keys_sound a.
Proof.
  induction 1 as [context rect|i a a' R IH E].
  - intros k K x. cbn in K. injection K as <-. reflexivity.
  - pose proof (react_other i a a' E) as F.
    destruct i as [m|m|m|m|checked|input|beats|checked| |t];
      try (intros k K x; rewrite (proj2 F); apply IH; rewrite <- (proj1 F); exact K);
      cbn [react] in E; injection E as <-; intros k0 K0 x.
    + unfold handleMIDINoteOn in K0 |- *.
      destruct (keyboardUI a) as [k|] eqn:K; cbv beta iota in K0 |- *; [|congruence].
      destruct ((KeyboardUI.startNote k <=? m)%Z && (m <=? KeyboardUI.endNote k)%Z)
        eqn:Rg; cbv beta iota in K0 |- *; [|apply IH; congruence].
      destruct (rhythm_check_frame a) as (K1 & N1 & _).
      set (a1 := match metronome a with Some _ => _ | None => _ end) in *.
      destruct (playNote_frame m a1) as (_ & _ & _ & N2 & _ & K2).
      rewrite K2, K1, K in K0. cbn in K0. injection K0 as <-.
      rewrite N2, N1, mapHas_set, activateKey_has, (IH k K); [reflexivity|].
      left. apply andb_true_iff in Rg. destruct Rg as [A B].
      apply Z.leb_le in A, B. lia.
    + unfold handleMIDINoteOff in K0 |- *.
      destruct (keyboardUI a) as [k|] eqn:K; cbv beta iota in K0 |- *; [|congruence].
      destruct ((KeyboardUI.startNote k <=? m)%Z && (m <=? KeyboardUI.endNote k)%Z);
        cbv beta iota in K0 |- *; [|apply IH; congruence].
      destruct (stopNote_spec m a) as [[H E]|(nm & _ & H & N2 & _ & K2)];
        [rewrite E in K0 |- *; apply IH; exact K0|].
      rewrite K2, K in K0. cbn in K0. injection K0 as <-.
      rewrite N2, mapHas_delete, deactivateKey_has, (IH k K). reflexivity.
    + unfold mouseDown in K0 |- *.
      destruct (keyboardUI a) as [k|] eqn:K; cbv beta iota in K0 |- *; [|congruence].
      set (k1 := KeyboardUI.with_activeKeys _ k) in *.
      set (a0 := with_keyboardUI (Some k1) a) in *.
      destruct (playNote_frame m a0) as (_ & _ & _ & N2 & _ & K2).
      rewrite K2 in K0. cbn in K0. injection K0 as <-.
      rewrite N2. cbn [activeNotes a0 with_keyboardUI].
      rewrite mapHas_set, activateKey_has.
      * unfold k1. cbn [KeyboardUI.activeKeys KeyboardUI.with_activeKeys].
        rewrite has_add, (IH k K). now destruct (x =? m)%Z.
      * right. unfold k1. cbn [KeyboardUI.activeKeys KeyboardUI.with_activeKeys].
        rewrite has_add, Z.eqb_refl. reflexivity.
    + unfold mouseUp in K0 |- *.
      destruct (keyboardUI a) as [k|] eqn:K; cbv beta iota in K0 |- *; [|congruence].
      set (k1 := KeyboardUI.with_activeKeys _ k) in *.
      set (a0 := with_keyboardUI (Some k1) a) in *.
      destruct (stopNote_spec m a0) as [[H E]|(nm & _ & H & N2 & _ & K2)].
      * rewrite E in K0 |- *. cbn in K0. injection K0 as <-.
        unfold k1. cbn [KeyboardUI.activeKeys KeyboardUI.with_activeKeys
                          activeNotes a0 with_keyboardUI].
        rewrite has_delete, (IH k K).
        destruct (Z.eqb_spec x m) as [->|_]; [|reflexivity].
        change (mapHas m (activeNotes a) = false) in H. now rewrite H.
      * rewrite K2 in K0. cbn in K0. injection K0 as <-.
        rewrite N2. cbn [activeNotes a0 with_keyboardUI].
        rewrite mapHas_delete, deactivateKey_has.
        unfold k1. cbn [KeyboardUI.activeKeys KeyboardUI.with_activeKeys].
        rewrite has_delete, (IH k K). now destruct (x =? m)%Z.
Qed.

Lemma mapDelete_fresh (m : Z) (v : string) (l : list (Z * string)) :
  mapHas m l = false -> mapDelete m (l ++ [(m, v)]) = l.
Proof.
  intro H. unfold mapDelete. rewrite filter_app. cbn [filter fst].
  rewrite Z.eqb_refl. cbn [negb]. rewrite app_nil_r.
  induction l as [|e l IH]; [reflexivity|].
  unfold mapHas in H. cbn [existsb] in H. apply orb_false_iff in H.
  destruct H as [H1 H2]. cbn [filter]. rewrite H1. cbn [negb].
  f_equal. exact (IH H2).
Qed.

Lemma delete_fresh (m : Z) (s : list Z) :
  KeyboardUI.has m s = false -> KeyboardUI.delete m (s ++ [m]) = s.
Proof.
  intro H. unfold KeyboardUI.delete. rewrite filter_app. cbn [filter].
  rewrite Z.eqb_refl. cbn [negb]. rewrite app_nil_r.
  induction s as [|y s IH]; [reflexivity|].
  unfold KeyboardUI.has in H. cbn [existsb] in H. apply orb_false_iff in H.
  destruct H as [H1 H2]. cbn [filter]. rewrite H1. cbn [negb].
  f_equal. exact (IH H2).
Qed.

Lemma mapGet_fresh (m : Z) (v : string) (l : list (Z * string)) :
  mapHas m l = false -> mapGet m (l ++ [(m, v)]) = Some v.
Proof.
  intro H. unfold mapGet.
  induction l as [|e l IH].
  - cbn. now rewrite Z.eqb_refl.
  - unfold mapHas in H. cbn [existsb] in H. apply orb_false_iff in H.
    destruct H as [H1 H2]. cbn [app find]. rewrite H1. exact (IH H2).
Qed.

(** *** Percentages *)

Lemma percent_bounds (hits totalNotes : Z) :
  (0 <= hits <= totalNotes)%Z -> (0 < totalNotes)%Z ->
  exists z : Z,
    percent hits totalNotes = inject_Z z /\ (0 <= z <= 100)%Z /\
    inject_Z z - (1 # 2) <= inject_Z hits / inject_Z totalNotes * 100 /\
    inject_Z hits / inject_Z totalNotes * 100 < inject_Z z + (1 # 2).
Proof.
  intros [H0 H1] T. unfold percent.
  assert ((0 <? totalNotes)%Z = true) as -> by (apply Z.ltb_lt; exact T).
  set (x := inject_Z hits / inject_Z totalNotes * 100).
  exists (Qfloor (x + (1 # 2))). split; [reflexivity|].
  assert (0 < inject_Z totalNotes) as Tq
      by (change 0 with (inject_Z 0); rewrite <- Zlt_Qlt; exact T).
  assert (0 <= inject_Z hits) as Hq
      by (change 0 with (inject_Z 0); rewrite <- Zle_Qle; exact H0).
  assert (inject_Z hits <= inject_Z totalNotes) as Lq
      by (rewrite <- Zle_Qle; exact H1).
  assert (0 <= inject_Z hits / inject_Z totalNotes <= 1) as [A B].
  { split.
    - apply Qle_shift_div_l; [exact Tq|lra].
    - apply Qle_shift_div_r; [exact Tq|lra]. }
  assert (0 <= x <= 100) as [X0 X1] by (unfold x; split; lra).
  destruct (MetronomeFacts.round_nearest x) as [R1 R2].
  split; [|split; assumption].
  split.
  - assert ((-1 < Qfloor (x + (1 # 2)))%Z) as L; [|lia].
    rewrite Zlt_Qlt. change (inject_Z (-1)) with (-1). lra.
  - assert ((Qfloor (x + (1 # 2)) < 101)%Z) as L; [|lia].
    rewrite Zlt_Qlt. change (inject_Z 101) with 101. lra.
Qed.

Lemma stats_inv (a : App) :
  VisualKeysApp.reachable a ->
  let s := getRhythmStats a in
  total s = (perfect s + good s + missed s)%Z /\
  (0 <= perfect s)%Z /\ (0 <= good s)%Z /\ (0 <= missed s)%Z /\
  (total s = 0%Z ->
   perfectPercent s = 0 /\ goodPercent s = 0 /\ missedPercent s = 0) /\
  ((0 < total s)%Z ->
   exists p g m : Z,
     perfectPercent s = inject_Z p /\ goodPercent s = inject_Z g /\
     missedPercent s = inject_Z m /\
     (0 <= p <= 100)%Z /\ (0 <= g <= 100)%Z /\ (0 <= m <= 100)%Z /\
     (99 <= p + g + m <= 101)%Z).
Proof.
  intro R. destruct (in_step_inv a R)
    as (k & w & u & _ & _ & _ & _ & _ & _ & _ & _ & _ & _ & _ & (C0 & C1 & C2 & C3) & _).
  cbv zeta. unfold getRhythmStats.
  cbn [total perfect good missed perfectPercent goodPercent missedPercent].
  set (t := rhythmAccuracyTracker a) in *.
  do 4 (split; [assumption|]). split.
  - intro Z0. unfold percent. rewrite Z0. cbn. repeat split.
  - intro T.
    destruct (percent_bounds (perfectHits t) (totalNotes t)) as (p & Ep & Bp & Lp & Up);
      [lia|exact T|].
    destruct (percent_bounds (goodHits t) (totalNotes t)) as (g & Eg & Bg & Lg & Ug);
      [lia|exact T|].
    destruct (percent_bounds (missedHits t) (totalNotes t)) as (m & Em & Bm & Lm & Um);
      [lia|exact T|].
    exists p, g, m. do 6 (split; [assumption|]).
    assert (0 < inject_Z (totalNotes t)) as Tq
        by (change 0 with (inject_Z 0); rewrite <- Zlt_Qlt; exact T).
    assert (inject_Z (perfectHits t) / inject_Z (totalNotes t) * 100
            + inject_Z (goodHits t) / inject_Z (totalNotes t) * 100
            + inject_Z (missedHits t) / inject_Z (totalNotes t) * 100 == 100) as Sum.
    { rewrite C0 at 1 2 3. rewrite !inject_Z_plus. rewrite C0 in Tq.
      rewrite !inject_Z_plus in Tq. field. lra. }
    assert (98 < inject_Z (p + g + m) /\ inject_Z (p + g + m) < 102) as [A B].
    { rewrite !inject_Z_plus. split; lra. }
    change 98 with (inject_Z 98) in A. change 102 with (inject_Z 102) in B.
    rewrite <- Zlt_Qlt in A, B. lia.
Qed.

(** *** A note played and released *)

Lemma round_trip (m : Z) (a : App) (k : KeyboardUI.KeyboardUI) :
  VisualKeysApp.reachable a ->
  keyboardUI a = Some k ->
  (KeyboardUI.startNote k <= m <= KeyboardUI.endNote k)%Z ->
  mapHas m (activeNotes a) = false ->
  mapGet m (activeNotes (handleMIDINoteOn m a)) = Some (NoteConverter.midiToNote m) /\
  (exists k1,
      keyboardUI (handleMIDINoteOn m a) = Some k1 /\
      KeyboardUI.has m (KeyboardUI.activeKeys k1) = true) /\
  activeNotes (handleMIDINoteOff m (handleMIDINoteOn m a)) = activeNotes a /\
  keyboardUI (handleMIDINoteOff m (handleMIDINoteOn m a)) = Some k /\
  synthEngine (handleMIDINoteOff m (handleMIDINoteOn m a))
  = synthEngine a ++ [playNoteCall (NoteConverter.midiToNote m);
                      stopNoteCall (NoteConverter.midiToNote m)].
Proof.
  intros R K Rg H.
  pose proof (lit_keys_inv a R k K m) as L. rewrite H in L.
  assert ((KeyboardUI.startNote k <=? m)%Z && (m <=? KeyboardUI.endNote k)%Z = true)
    as Rb by (apply andb_true_iff; split; apply Z.leb_le; lia).
  assert (exists a1,
             handleMIDINoteOn m a = playNote m a1 /\ keyboardUI a1 = Some k /\
             activeNotes a1 = activeNotes a /\ synthEngine a1 = synthEngine a)
    as (a1 & On & K1 & N1 & S1).
  { unfold handleMIDINoteOn. rewrite K, Rb.
    destruct (rhythm_check_frame a) as (K1 & N1 & S1).
    eexists. split; [reflexivity|]. rewrite K1, N1, S1. now repeat split. }
  destruct (playNote_frame m a1) as (_ & _ & _ & N2 & S2 & K2).
  rewrite On. rewrite K1 in K2. cbn [option_map] in K2. rewrite N1 in N2.
  rewrite S1 in S2.
  assert (activeNotes (playNote m a1)
          = activeNotes a ++ [(m, NoteConverter.midiToNote m)]) as N3.
  { rewrite N2. unfold mapSet. now rewrite H. }
  assert (KeyboardUI.activateKey m k
          = KeyboardUI.with_activeKeys (KeyboardUI.activeKeys k ++ [m]) k) as Ak.
  { unfold KeyboardUI.activateKey. rewrite Rb. unfold KeyboardUI.add. now rewrite L. }
  rewrite Ak in K2.
  split; [rewrite N3; now apply mapGet_fresh|].
  split.
  { eexists. split; [exact K2|]. cbn [KeyboardUI.activeKeys KeyboardUI.with_activeKeys].
    unfold KeyboardUI.has. rewrite existsb_app. cbn. rewrite Z.eqb_refl.
    apply orb_true_r. }
  unfold handleMIDINoteOff. rewrite K2.
  cbn [KeyboardUI.startNote KeyboardUI.endNote KeyboardUI.with_activeKeys].
  rewrite Rb.
  destruct (stopNote_spec m (playNote m a1))
    as [[H3 _]|(nm & G & _ & N4 & S4 & K4)].
  { rewrite N3 in H3. unfold mapHas in H3. rewrite existsb_app in H3.
    cbn in H3. rewrite Z.eqb_refl, orb_true_r in H3. discriminate. }
  rewrite N3, (mapGet_fresh m _ _ H) in G. injection G as <-.
  rewrite N4, S4, K4, N3, S2, K2, (mapDelete_fresh m _ _ H), <- app_assoc.
  split; [reflexivity|]. split; [|reflexivity].
  cbn [option_map]. f_equal. unfold KeyboardUI.deactivateKey.
  cbn [KeyboardUI.activeKeys KeyboardUI.with_activeKeys].
  assert (KeyboardUI.has m (KeyboardUI.activeKeys k ++ [m]) = true) as ->.
  { unfold KeyboardUI.has. rewrite existsb_app. cbn. rewrite Z.eqb_refl.
    apply orb_true_r. }
  rewrite (delete_fresh m _ L). destruct k. reflexivity.
Qed.

(** *** The switch *)

Lemma canvas_present (u : MetronomeUI.MetronomeUI) :
  Vis.reachable u -> exists c, MetronomeUI.canvas u = Some c.
Proof.
  induction 1 as [rect|rect u R IH|checked u u' R IH T|checked u R IH
                 |input u u' R IH T|tempo u u' R IH T|now n d u R IH
                 |v u R IH|now u u' R IH T];
    try destruct IH as [c C].
  - now exists rect.
  - now exists rect.
  - exists c. unfold MetronomeUI.toggle, MetronomeUI.resetVisualization,
      MetronomeUI.updateMarkerSpeed in T.
    cbn [MetronomeUI.canvas MetronomeUI.with_firstBeat MetronomeUI.with_hitMarkers
           MetronomeUI.with_beatMarkers MetronomeUI.with_enabled] in T.
    rewrite C in T. destruct checked; injection T as <-; exact C.
  - now exists c.
  - exists c. unfold MetronomeUI.handleTempoChange, MetronomeUI.updateMarkerSpeed in T.
    cbn [MetronomeUI.canvas MetronomeUI.with_secondsPerBeat
           MetronomeUI.with_currentTempo] in T.
    rewrite C in T. injection T as <-. exact C.
  - exists c. unfold MetronomeUI.updateTempo, MetronomeUI.updateMarkerSpeed in T.
    rewrite C in T. injection T as <-. exact C.
  - exists c. unfold MetronomeUI.addBeatMarker. rewrite C.
    destruct (MetronomeUI.firstBeat u); exact C.
  - exists c. unfold MetronomeUI.registerNoteHit.
    destruct (_ || _); exact C.
  - exists c. unfold MetronomeUI.renderRhythmVisualization,
      MetronomeUI.updateBeatMarkers in T.
    destruct (_ || _); [injection T as <-; exact C|].
    destruct (MetronomeUI.forEach _ _); [|discriminate].
    injection T as <-. exact C.
Qed.

Lemma switch_on (a : App) (w : World) (u : MetronomeUI.MetronomeUI)
  (c : AudioContext) :
  VisualKeysApp.reachable a ->
  metronome a = Some w -> metronomeUI a = Some u ->
  isPlaying (metro w) = false ->
  audioContext (metro w) = Some c -> state c <> closed ->
  exists a' w' u',
    react (Switch true) a = Some a' /\
    metronome a' = Some w' /\ metronomeUI a' = Some u' /\
    isPlaying (metro w') = true /\
    nextTickTime (metro w') = currentTime c + 60 / tempo (metro w) /\
    isMetronomeActive (rhythmAccuracyTracker a') = true /\
    MetronomeUI.enabled u' = true /\
    MetronomeUI.firstBeat u' = false /\
    MetronomeUI.hitMarkers u' = [] /\
    MetronomeUI.beatMarkers u'
    = [MetronomeUI.mkBeatMarker 80 1 true (performance_now (host w) / 1000)
         (performance_now (host w) / 1000 + 60 / tempo (metro w))].
Proof.
  intros R M U P C S.
  destruct (in_step_inv a R)
    as (k & w0 & u0 & _ & M0 & U0 & _ & Ru & T & Sp & _).
  assert (w0 = w) as -> by congruence.
  assert (u0 = u) as -> by congruence.
  destruct (canvas_present u Ru) as [cv Cv].
  destruct (FrameFacts.page_invariant u Ru) as (Hl & _).
  cbn [react]. unfold switch. rewrite U.
  unfold MetronomeUI.toggle, MetronomeUI.resetVisualization,
    MetronomeUI.updateMarkerSpeed.
  cbn [MetronomeUI.canvas MetronomeUI.with_firstBeat MetronomeUI.with_hitMarkers
         MetronomeUI.with_beatMarkers MetronomeUI.with_enabled].
  rewrite Cv. unfold onToggle, drive.
  cbn [metronome with_tracker with_metronomeUI].
  rewrite M, (LifeFacts.start_open_world true w c P C S).
  cbn [world_of host events with_fresh with_intervals with_events option_map snd].
  rewrite skipn_app, skipn_all, Nat.sub_diag. cbn [skipn app fold_left deliver].
  unfold handleBeatScheduled.
  cbn [metronomeUI with_metronome with_tracker with_metronomeUI].
  unfold MetronomeUI.addBeatMarker.
  cbn [MetronomeUI.canvas MetronomeUI.firstBeat MetronomeUI.with_markerSpeed
         MetronomeUI.with_firstBeat MetronomeUI.with_hitMarkers
         MetronomeUI.with_beatMarkers MetronomeUI.with_enabled
         MetronomeUI.with_lastBeatTime MetronomeUI.hitLineX
         MetronomeUI.secondsPerBeat MetronomeUI.beatMarkers].
  rewrite Cv.
  eexists. eexists. eexists.
  split; [reflexivity|]. split; [reflexivity|]. split; [reflexivity|].
  cbn -[Qplus Qdiv Qminus Qmult]. rewrite Hl, Sp, <- T.
  repeat split.
Qed.

(** *** A note against the beat *)

Lemma hit_drawn (m : Z) (a : App) (k : KeyboardUI.KeyboardUI) (w : World)
  (u : MetronomeUI.MetronomeUI) :
  keyboardUI a = Some k -> metronome a = Some w -> metronomeUI a = Some u ->
  (KeyboardUI.startNote k <= m <= KeyboardUI.endNote k)%Z ->
  isMetronomeActive (rhythmAccuracyTracker a) = true ->
  MetronomeUI.enabled u = true -> MetronomeUI.showVisualization u = true ->
  exists v u',
    getHitAccuracy (performance_now (host w) / 1000) w = Return v w /\
    metronomeUI (handleMIDINoteOn m a) = Some u' /\
    MetronomeUI.hitMarkers u'
    = MetronomeUI.hitMarkers u ++ [MetronomeUI.mkHitMarker 80 v 1.0] /\
    totalNotes (rhythmAccuracyTracker (handleMIDINoteOn m a))
    = (totalNotes (rhythmAccuracyTracker a) + 1)%Z /\
    ((MetronomeUI.getAccuracyColor v = MetronomeUI.mkColor 76 175 80 /\
      perfectHits (rhythmAccuracyTracker (handleMIDINoteOn m a))
      = (perfectHits (rhythmAccuracyTracker a) + 1)%Z /\
      goodHits (rhythmAccuracyTracker (handleMIDINoteOn m a))
      = goodHits (rhythmAccuracyTracker a) /\
      missedHits (rhythmAccuracyTracker (handleMIDINoteOn m a))
      = missedHits (rhythmAccuracyTracker a)) \/
     (MetronomeUI.getAccuracyColor v = MetronomeUI.mkColor 255 193 7 /\
      perfectHits (rhythmAccuracyTracker (handleMIDINoteOn m a))
      = perfectHits (rhythmAccuracyTracker a) /\
      goodHits (rhythmAccuracyTracker (handleMIDINoteOn m a))
      = (goodHits (rhythmAccuracyTracker a) + 1)%Z /\
      missedHits (rhythmAccuracyTracker (handleMIDINoteOn m a))
      = missedHits (rhythmAccuracyTracker a)) \/
     (MetronomeUI.getAccuracyColor v = MetronomeUI.mkColor 244 67 54 /\
      perfectHits (rhythmAccuracyTracker (handleMIDINoteOn m a))
      = perfectHits (rhythmAccuracyTracker a) /\
      goodHits (rhythmAccuracyTracker (handleMIDINoteOn m a))
      = goodHits (rhythmAccuracyTracker a) /\
      missedHits (rhythmAccuracyTracker (handleMIDINoteOn m a))
      = (missedHits (rhythmAccuracyTracker a) + 1)%Z)).
Proof.
  intros K M U Rg Act En Sh.
  assert ((KeyboardUI.startNote k <=? m)%Z && (m <=? KeyboardUI.endNote k)%Z = true)
    as Rb by (apply andb_true_iff; split; apply Z.leb_le; lia).
  unfold handleMIDINoteOn. rewrite K, Rb, M, U, Act.
  destruct (trackHit_spec w u a)
    as (v & Acc & _ & U1 & _ & _ & _ & _ & _ & Tot & Bands).
  destruct (playNote_frame m (trackHit w u a)) as (_ & U2 & T2 & _).
  rewrite U2, T2, U1, Tot.
  exists v, (MetronomeUI.registerNoteHit v u).
  split; [exact Acc|]. split; [reflexivity|].
  split.
  { unfold MetronomeUI.registerNoteHit. rewrite En, Sh. reflexivity. }
  split; [reflexivity|].
  destruct Bands as [(Cl & _ & B1 & B2 & B3)|[(Cl & _ & B1 & B2 & B3)
                                             |(Cl & _ & B1 & B2 & B3)]].
  - left. repeat split; assumption.
  - right. left. repeat split; assumption.
  - right. right. repeat split; assumption.
Qed.

(** *** The statements *)

Lemma reach_after (i : Input) (a : App) :
  VisualKeysApp.reachable a -> react i a <> None ->
  VisualKeysApp.reachable (after i a).
Proof.
  intros R H. unfold after. destruct (react i a) as [a'|] eqn:E; [|congruence].
  exact (reach_react i a a' R E).
Qed.

Lemma fresh_app_reachable : VisualKeysApp.reachable fresh_app.
Proof. apply reach_initialize. Qed.

Lemma playing_app_reachable : VisualKeysApp.reachable playing_app.
Proof.
  apply reach_after; [apply fresh_app_reachable|vm_compute; discriminate].
Qed.

Lemma hit_app_reachable : VisualKeysApp.reachable hit_app.
Proof.
  do 2 (apply reach_after; [|vm_compute; discriminate]).
  apply playing_app_reachable.
Qed.

(** X19. In the application the metronome and its panel stay in step, whatever
    the inputs: keyboard, metronome and panel exist, the tempo of the
    metronome is the tempo the panel shows and lies in [40, 240], the beat
    duration of the panel is [60 / tempo], the schedule-ahead window is
    0.1 s, the panel is switched on exactly when the rhythm tracker is
    active, the metronome only plays while it is, the hit counters add up
    and every sounding note is stored once, under its own name. *)
Theorem app_in_step (a : App) : VisualKeysApp.reachable a -> in_step a.
Proof. exact (in_step_inv a). Qed.

Lemma app_in_step_witness : in_step hit_app.
Proof. apply (app_in_step hit_app). exact hit_app_reachable. Defined.

(** X20. The lit keys of the on-screen keyboard are exactly the sounding
    notes, whether they were played on the MIDI device or with the mouse. *)
Theorem keys_lit_iff_sounding (a : App) :
  VisualKeysApp.reachable a -> lit_keys_sound a.
Proof. exact (lit_keys_inv a). Qed.

Lemma keys_lit_iff_sounding_witness : lit_keys_sound hit_app.
Proof. apply (keys_lit_iff_sounding hit_app). exact hit_app_reachable. Defined.

(** X21. A MIDI note of the keyboard range that is not sounding, played and
    then released: after note-on the note is stored under its name and its
    key is lit; after note-off the sounding notes and the keyboard are as
    before, and the synthesizer has been told to play and then to stop that
    one name. *)
Theorem note_on_off_round_trip (m : Z) (a : App) (k : KeyboardUI.KeyboardUI) :
  VisualKeysApp.reachable a ->
  keyboardUI a = Some k ->
  (KeyboardUI.startNote k <= m <= KeyboardUI.endNote k)%Z ->
  mapHas m (activeNotes a) = false ->
  mapGet m (activeNotes (handleMIDINoteOn m a)) = Some (NoteConverter.midiToNote m) /\
  (exists k1,
      keyboardUI (handleMIDINoteOn m a) = Some k1 /\
      KeyboardUI.has m (KeyboardUI.activeKeys k1) = true) /\
  activeNotes (handleMIDINoteOff m (handleMIDINoteOn m a)) = activeNotes a /\
  keyboardUI (handleMIDINoteOff m (handleMIDINoteOn m a)) = Some k /\
  synthEngine (handleMIDINoteOff m (handleMIDINoteOn m a))
  = synthEngine a ++ [playNoteCall (NoteConverter.midiToNote m);
                      stopNoteCall (NoteConverter.midiToNote m)].
Proof. exact (round_trip m a k). Qed.

Lemma note_on_off_round_trip_witness :
  activeNotes (handleMIDINoteOff 60 (handleMIDINoteOn 60 playing_app))
  = activeNotes playing_app /\
  synthEngine (handleMIDINoteOff 60 (handleMIDINoteOn 60 playing_app))
  = synthEngine playing_app ++ [playNoteCall "C4"; stopNoteCall "C4"].
Proof.
  destruct (note_on_off_round_trip 60 playing_app (KeyboardUI.constructor None None))
    as (_ & _ & N & _ & S).
  - exact playing_app_reachable.
  - reflexivity.
  - cbn. lia.
  - reflexivity.
  - split; [exact N|exact S].
Defined.

(** X22. The rhythm statistics are consistent: the total is the sum of the
    perfect, good and missed hits, none of them negative; with no hit every
    percentage is 0; otherwise every percentage is a whole number between 0
    and 100 and the three add up to 99, 100 or 101. *)
Theorem rhythm_stats_consistent (a : App) :
  VisualKeysApp.reachable a ->
  let s := getRhythmStats a in
  total s = (perfect s + good s + missed s)%Z /\
  (0 <= perfect s)%Z /\ (0 <= good s)%Z /\ (0 <= missed s)%Z /\
  (total s = 0%Z ->
   perfectPercent s = 0 /\ goodPercent s = 0 /\ missedPercent s = 0) /\
  ((0 < total s)%Z ->
   exists p g m : Z,
     perfectPercent s = inject_Z p /\ goodPercent s = inject_Z g /\
     missedPercent s = inject_Z m /\
     (0 <= p <= 100)%Z /\ (0 <= g <= 100)%Z /\ (0 <= m <= 100)%Z /\
     (99 <= p + g + m <= 101)%Z).
Proof. exact (stats_inv a). Qed.

Lemma rhythm_stats_consistent_witness :
  total (getRhythmStats hit_app) = 1%Z /\
  exists p g m : Z,
    perfectPercent (getRhythmStats hit_app) = inject_Z p /\
    goodPercent (getRhythmStats hit_app) = inject_Z g /\
    missedPercent (getRhythmStats hit_app) = inject_Z m /\
    (99 <= p + g + m <= 101)%Z.
Proof.
  split; [reflexivity|].
  destruct (rhythm_stats_consistent hit_app hit_app_reachable)
    as (_ & _ & _ & _ & _ & H).
  destruct H as (p & g & m & P & G & M & _ & _ & _ & S); [reflexivity|].
  exists p, g, m. repeat split; try assumption; apply S.
Defined.

(** X23. Turning the switch on while the metronome is stopped and its audio
    context is not closed: the metronome plays, its first tick is due one
    beat after the audio clock, the tracker and the panel are switched on,
    and the panel shows exactly one beat marker, the anchor: on the hit
    line, beat 1, a downbeat, due one beat after the wall clock. *)
Theorem switch_on_shows_first_beat (a : App) (w : World)
  (u : MetronomeUI.MetronomeUI) (c : AudioContext) :
  VisualKeysApp.reachable a ->
  metronome a = Some w -> metronomeUI a = Some u ->
  isPlaying (metro w) = false ->
  audioContext (metro w) = Some c -> state c <> closed ->
  exists a' w' u',
    react (Switch true) a = Some a' /\
    metronome a' = Some w' /\ metronomeUI a' = Some u' /\
    isPlaying (metro w') = true /\
    nextTickTime (metro w') = currentTime c + 60 / tempo (metro w) /\
    isMetronomeActive (rhythmAccuracyTracker a') = true /\
    MetronomeUI.enabled u' = true /\
    MetronomeUI.firstBeat u' = false /\
    MetronomeUI.hitMarkers u' = [] /\
    MetronomeUI.beatMarkers u'
    = [MetronomeUI.mkBeatMarker 80 1 true (performance_now (host w) / 1000)
         (performance_now (host w) / 1000 + 60 / tempo (metro w))].
Proof. exact (switch_on a w u c). Qed.

Lemma switch_on_shows_first_beat_witness :
  exists a' u',
    react (Switch true) fresh_app = Some a' /\
    metronomeUI a' = Some u' /\
    MetronomeUI.beatMarkers u'
    = [MetronomeUI.mkBeatMarker 80 1 true (0 / 1000) (0 / 1000 + 60 / 120)].
Proof.
  destruct (switch_on_shows_first_beat fresh_app
              (new (mkOptions (Some 120) (Some 4%Z) (Some (mkAudioContext running 0))))
              (MetronomeUI.constructor (MetronomeUI.mkCanvas 400 120))
              (mkAudioContext running 0))
    as (a' & w' & u' & R & _ & U & _ & _ & _ & _ & _ & _ & B).
  - exact fresh_app_reachable.
  - reflexivity.
  - reflexivity.
  - reflexivity.
  - reflexivity.
  - discriminate.
  - exists a', u'. split; [exact R|]. split; [exact U|exact B].
Defined.

(** X24. A note of the keyboard range played while the rhythm tracker is
    active and the panel shows its visualization: the hit is scored by the
    metronome at the wall-clock time, drawn as a new hit marker on the hit
    line with that score, and counted once, in the class whose colour the
    marker is drawn in: green with the perfect hits, yellow with the good
    ones, red with the missed ones. *)
Theorem hit_counted_as_drawn (m : Z) (a : App) (k : KeyboardUI.KeyboardUI)
  (w : World) (u : MetronomeUI.MetronomeUI) :
  keyboardUI a = Some k -> metronome a = Some w -> metronomeUI a = Some u ->
  (KeyboardUI.startNote k <= m <= KeyboardUI.endNote k)%Z ->
  isMetronomeActive (rhythmAccuracyTracker a) = true ->
  MetronomeUI.enabled u = true -> MetronomeUI.showVisualization u = true ->
  exists v u',
    getHitAccuracy (performance_now (host w) / 1000) w = Return v w /\
    metronomeUI (handleMIDINoteOn m a) = Some u' /\
    MetronomeUI.hitMarkers u'
    = MetronomeUI.hitMarkers u ++ [MetronomeUI.mkHitMarker 80 v 1.0] /\
    totalNotes (rhythmAccuracyTracker (handleMIDINoteOn m a))
    = (totalNotes (rhythmAccuracyTracker a) + 1)%Z /\
    ((MetronomeUI.getAccuracyColor v = MetronomeUI.mkColor 76 175 80 /\
      perfectHits (rhythmAccuracyTracker (handleMIDINoteOn m a))
      = (perfectHits (rhythmAccuracyTracker a) + 1)%Z /\
      goodHits (rhythmAccuracyTracker (handleMIDINoteOn m a))
      = goodHits (rhythmAccuracyTracker a) /\
      missedHits (rhythmAccuracyTracker (handleMIDINoteOn m a))
      = missedHits (rhythmAccuracyTracker a)) \/
     (MetronomeUI.getAccuracyColor v = MetronomeUI.mkColor 255 193 7 /\
      perfectHits (rhythmAccuracyTracker (handleMIDINoteOn m a))
      = perfectHits (rhythmAccuracyTracker a) /\
      goodHits (rhythmAccuracyTracker (handleMIDINoteOn m a))
      = (goodHits (rhythmAccuracyTracker a) + 1)%Z /\
      missedHits (rhythmAccuracyTracker (handleMIDINoteOn m a))
      = missedHits (rhythmAccuracyTracker a)) \/
     (MetronomeUI.getAccuracyColor v = MetronomeUI.mkColor 244 67 54 /\
      perfectHits (rhythmAccuracyTracker (handleMIDINoteOn m a))
      = perfectHits (rhythmAccuracyTracker a) /\
      goodHits (rhythmAccuracyTracker (handleMIDINoteOn m a))
      = goodHits (rhythmAccuracyTracker a) /\
      missedHits (rhythmAccuracyTracker (handleMIDINoteOn m a))
      = (missedHits (rhythmAccuracyTracker a) + 1)%Z)).
Proof. exact (hit_drawn m a k w u). Qed.

Lemma hit_counted_as_drawn_witness :
  exists u',
    metronomeUI (handleMIDINoteOn 60 playing_app) = Some u' /\
    length (MetronomeUI.hitMarkers u') = 1%nat /\
    totalNotes (rhythmAccuracyTracker (handleMIDINoteOn 60 playing_app)) = 1%Z.
Proof.
  destruct (metronome playing_app) as [w|] eqn:M; [|discriminate M].
  destruct (metronomeUI playing_app) as [u|] eqn:U; [|discriminate U].
  destruct (hit_counted_as_drawn 60 playing_app (KeyboardUI.constructor None None) w u)
    as (v & u' & _ & U' & H & T & _).
  - reflexivity.
  - exact M.
  - exact U.
  - cbn. lia.
  - reflexivity.
  - vm_compute in U. injection U as <-. reflexivity.
  - vm_compute in U. injection U as <-. reflexivity.
  - exists u'. split; [exact U'|]. split; [|exact T].
    rewrite H, length_app. vm_compute in U. injection U as <-. reflexivity.
Defined.

End AppFacts.
